(** * Verification of the array code of [1.Fitting-long-periods-in-tess.ipynb]

    The notebook's own code is the helper [vstack] and a handful of inline
    numpy expressions.  Each is embedded below as a Rocq function over a
    model of the numpy values it touches:

    - a 2-D numpy array is a record with its shape and its rows
      ([ndarray]); a 1-D array is a list;
    - array elements are kept abstract where the code only moves them
      ([vstack]), and are IEEE 754 binary floats ([spec_float], for any
      precision and exponent range) where the code computes with them;
    - a Python exception is a value of [exn] and a call that may raise
      returns a [result];
    - shapes and indices are natural numbers: the 64-bit bound of numpy's
      [intp] is not modelled.

    The calls into numpy and lightkurve are modelled by what they are
    documented to do on the arguments the notebook gives them: slicing
    clips, assignment broadcasts, [np.sum([])] is a float, [np.hstack]
    rejects an empty sequence, [np.gradient] uses central differences
    inside and one-sided differences at the ends, [np.nanmedian] averages
    the two middle values of an even count, the constructor of
    [lk.DesignMatrix] stores its arguments, and [tpf + array] adds the
    array to the flux of a copy of [tpf].  The order in which numpy adds
    the items of a sum is not fixed: the definitions that sum take the
    reduction as a parameter, and what is proved of them holds for every
    order of addition. *)

From Stdlib Require Import ZArith Bool Lia String.
From Stdlib Require Import Floats.SpecFloat.
From stdpp Require Import base option list gmap strings.

Set Default Proof Using "Type".

(** ** Python exceptions and fallible calls *)

Inductive exn : Set :=
| TypeError
| ValueError
| IndexError
| AttributeError.

Definition result (T : Type) : Type := exn + T.

Definition raise {T} (e : exn) : result T := inl e.

#[global] Instance result_ret : MRet result := λ T x, inr x.
#[global] Instance result_bind : MBind result := λ T U k m,
  match m with
  | inl e => inl e
  | inr x => k x
  end.

#[global] Instance exn_eq_dec : EqDecision exn.
Proof. solve_decision. Defined.

(** ** 2-D numpy arrays *)

Section Arrays.
Context {A : Type}.

(** [a.shape] is [(shape0 a, shape1 a)]; [rows a] holds the entries in
    row-major order.  The shape is stored because an array may have no
    row and still have columns. *)
Record ndarray : Type := Ndarray {
  shape0 : nat;
  shape1 : nat;
  rows : list (list A)
}.

(** The representation invariant of a numpy array. *)
Definition wf_ndarray (a : ndarray) : Prop :=
  length (rows a) = shape0 a ∧ Forall (λ r, length r = shape1 a) (rows a).

#[global] Instance wf_ndarray_dec a : Decision (wf_ndarray a).
Proof. unfold wf_ndarray. apply _. Defined.

(** [a[i, j]] for indices that are not negative. *)
Definition get2 (a : ndarray) (i j : nat) : option A :=
  rows a !! i ≫= λ r, r !! j.

(** [np.zeros((r, c))] for integer [r] and [c]. *)
Definition zeros (zero : A) (r c : nat) : ndarray :=
  Ndarray r c (replicate r (replicate c zero)).

(** Bounds of the slice [lo:hi] of an axis of length [n], for [lo] and
    [hi] that are not negative: first index and number of indices. *)
Definition slice_indices (lo hi n : nat) : nat * nat :=
  (lo `min` n, (hi `min` n) - (lo `min` n)).

(** A source axis of length [s] broadcasts to a target axis of length
    [t] when the two are equal or [s] is one. *)
Definition broadcastable (s t : nat) : bool := (s =? t) || (s =? 1).

Definition bcast_index (s k : nat) : nat := if s =? 1 then 0 else k.

Definition in_slice (start count i : nat) : bool :=
  (start <=? i) && (i <? start + count).

(** [Xa[i0:i1, j0:j1] = src]: the slices are clipped to the shape of
    [Xa], [src] is broadcast to the shape of the clipped block, and
    numpy raises [ValueError] when it cannot be. *)
Definition setitem2 (Xa : ndarray) (i0 i1 j0 j1 : nat) (src : ndarray)
  : result ndarray :=
  let '(rs, rn) := slice_indices i0 i1 (shape0 Xa) in
  let '(cs, cn) := slice_indices j0 j1 (shape1 Xa) in
  if broadcastable (shape0 src) rn && broadcastable (shape1 src) cn then
    mret (Ndarray (shape0 Xa) (shape1 Xa)
           (imap (λ i row,
              if in_slice rs rn i then
                imap (λ j x,
                  if in_slice cs cn j then
                    default x (get2 src (bcast_index (shape0 src) (i - rs))
                                        (bcast_index (shape1 src) (j - cs)))
                  else x) row
              else row) (rows Xa)))
  else raise ValueError.
End Arrays.

Arguments ndarray A : clear implicits.

(** ** numpy scalars and reductions used for shapes *)

(** [np.sum] of a list of Python ints is an integer, but [np.sum([])] is
    the float [0.0]. *)
Inductive npscalar : Set :=
| NpInt (n : nat)
| NpFloat (f : spec_float).

Definition np_sum (l : list nat) : npscalar :=
  match l with
  | [] => NpFloat (S754_zero false)
  | _ :: _ => NpInt (sum_list l)
  end.

(** [np.zeros((r, c))]: a float is not accepted as a dimension. *)
Definition np_zeros {A} (zero : A) (r c : npscalar) : result (ndarray A) :=
  match r, c with
  | NpInt r, NpInt c => mret (zeros zero r c)
  | _, _ => raise TypeError
  end.

(** [np.hstack] of 1-D arrays concatenates them, and raises [ValueError]
    on an empty sequence. *)
Definition np_hstack {A} (vs : list (list A)) : result (list A) :=
  match vs with
  | [] => raise ValueError
  | _ :: _ => mret (concat vs)
  end.

(** ** Design matrices and [vstack] *)

Section Vstack.
Context {A : Type} (zero : A).

(** The fields of [lk.DesignMatrix] that [vstack] reads and sets.  The
    constructor of the library stores its arguments.  All arrays hold
    entries of one type [A] (float64 in the notebook), so that assigning
    [dm.X] into [X] copies the entries as they are. *)
Record DesignMatrix : Type := mkDesignMatrix {
  X : ndarray A;
  name : string;
  prior_mu : list A;
  prior_sigma : list A
}.

(** [dm.shape] *)
Definition shape (dm : DesignMatrix) : nat * nat :=
  (shape0 (X dm), shape1 (X dm)).

Definition wf_dm (dm : DesignMatrix) : Prop := wf_ndarray (X dm).

(** The loop of [vstack], from the state [(X, idx, jdx)]:
<<
    for dm in dms:
        X[idx:idx+dm.shape[0], jdx:jdx+dm.shape[1]] = dm.X
        idx = idx + dm.shape[0]
        jdx = jdx + dm.shape[1]
>> *)
Fixpoint vstack_loop (dms : list DesignMatrix) (st : ndarray A * nat * nat)
  : result (ndarray A * nat * nat) :=
  match dms with
  | [] => mret st
  | dm :: dms' =>
      let '(Xa, idx, jdx) := st in
      Xa' ← setitem2 Xa idx (idx + (shape dm).1) jdx (jdx + (shape dm).2) (X dm);
      vstack_loop dms' (Xa', idx + (shape dm).1, jdx + (shape dm).2)
  end.

(** [dms[0]] *)
Definition first {T} (l : list T) : result T :=
  match l with
  | [] => raise IndexError
  | x :: _ => mret x
  end.

(** [vstack], cell 1 of the notebook:
<<
    npoints = np.sum([dm.shape[0] for dm in dms])
    ncomps = np.sum([dm.shape[1] for dm in dms])
    X = np.zeros((npoints, ncomps))
    idx = 0
    jdx = 0
    for dm in dms: ...
    prior_mu = np.hstack([dm.prior_mu for dm in dms])
    prior_sigma = np.hstack([dm.prior_sigma for dm in dms])
    name = dms[0].name
    return lk.DesignMatrix(X, name=name, prior_mu=prior_mu,
                           prior_sigma=prior_sigma)
>> *)
Definition vstack (dms : list DesignMatrix) : result DesignMatrix :=
  let npoints := np_sum (map (λ dm, (shape dm).1) dms) in
  let ncomps := np_sum (map (λ dm, (shape dm).2) dms) in
  X0 ← np_zeros zero npoints ncomps;
  '(X1, _, _) ← vstack_loop dms (X0, 0, 0);
  mu ← np_hstack (map prior_mu dms);
  sigma ← np_hstack (map prior_sigma dms);
  dm0 ← first dms;
  mret (mkDesignMatrix X1 (name dm0) mu sigma).
End Vstack.

Arguments DesignMatrix A : clear implicits.

(** ** The block layout that [vstack] is meant to produce *)

Section Layout.
Context {A : Type}.
Implicit Types (dm : DesignMatrix A) (dms : list (DesignMatrix A)).

Definition total_rows dms : nat := sum_list_with (λ dm, (shape dm).1) dms.
Definition total_cols dms : nat := sum_list_with (λ dm, (shape dm).2) dms.

(** Row and column offset of the [k]-th input: the sums of the row and
    column counts of the inputs before it. *)
Definition row_offset dms (k : nat) : nat := total_rows (take k dms).
Definition col_offset dms (k : nat) : nat := total_cols (take k dms).

(** Entry [(i, j)] lies in the block of [dm] placed at [(ro, co)]. *)
Definition in_block (ro co : nat) dm (i j : nat) : Prop :=
  (ro ≤ i < ro + (shape dm).1) ∧ (co ≤ j < co + (shape dm).2).

(** Entry [(i, j)] lies in none of the diagonal blocks of [dms]. *)
Definition off_blocks dms (i j : nat) : Prop :=
  ∀ k dm, dms !! k = Some dm →
    ¬ in_block (row_offset dms k) (col_offset dms k) dm i j.
End Layout.

#[global] Instance wf_dm_dec {A} (dm : DesignMatrix A) : Decision (wf_dm dm).
Proof. unfold wf_dm. apply _. Defined.

(** ** Sample inputs *)

Module Sample.
(** Three design matrices of shapes (2, 1), (1, 2) and (0, 2) with
    entries in [nat]. *)
Definition dmA : DesignMatrix nat :=
  mkDesignMatrix (Ndarray 2 1 [[1]; [2]]) "bkg" [10] [11].
Definition dmB : DesignMatrix nat :=
  mkDesignMatrix (Ndarray 1 2 [[3; 4]]) "spline" [20; 21] [22; 23].
Definition dmC : DesignMatrix nat :=
  mkDesignMatrix (Ndarray 0 2 []) "empty" [30; 31] [32; 33].
End Sample.

(** ** [vstack] on Python objects

    [vstack] receives references: every design matrix and every array is
    an object of the interpreter's heap and [X[...] = dm.X] writes into
    an existing array.  The model below runs the same statements on a
    heap of objects, to tell which objects the call writes. *)

Definition loc : Set := positive.

Section Heap.
Context {A : Type} (zero : A).

(** A heap cell: a 2-D array, a 1-D array, or a design matrix holding
    references to its arrays and its name (a [str] is immutable). *)
Inductive cell : Type :=
| CArr2 (a : ndarray A)
| CArr1 (v : list A)
| CDm (x mu sigma : loc) (nm : string).

Local Abbreviation heap := (gmap loc cell).

(** Statements act on the heap and may raise; the heap survives an
    exception. *)
Definition Py (T : Type) : Type := heap → result T * heap.

#[global] Instance Py_ret : MRet Py := λ T x h, (inr x, h).
#[global] Instance Py_bind : MBind Py := λ T U k m h,
  match m h with
  | (inl e, h') => (inl e, h')
  | (inr x, h') => k x h'
  end.

Definition lift {T} (r : result T) : Py T := λ h, (r, h).

(** A new object gets an address that no object has. *)
Definition alloc (c : cell) : Py loc := λ h,
  let l := fresh (dom h) in (inr l, <[l := c]> h).

Definition load (l : loc) : Py cell := λ h,
  match h !! l with
  | Some c => (inr c, h)
  | None => (inl AttributeError, h)
  end.

Definition store (l : loc) (c : cell) : Py () := λ h, (inr (), <[l := c]> h).

Definition load_arr2 (l : loc) : Py (ndarray A) :=
  c ← load l;
  match c with
  | CArr2 a => mret a
  | _ => lift (raise AttributeError)
  end.

Definition load_arr1 (l : loc) : Py (list A) :=
  c ← load l;
  match c with
  | CArr1 v => mret v
  | _ => lift (raise AttributeError)
  end.

Definition load_dm (l : loc) : Py (loc * loc * loc * string) :=
  c ← load l;
  match c with
  | CDm x mu sigma nm => mret (x, mu, sigma, nm)
  | _ => lift (raise AttributeError)
  end.

(** [dm.X], [dm.shape], [dm.prior_mu], [dm.prior_sigma], [dm.name] *)
Definition dm_X (dm : loc) : Py (ndarray A) :=
  '(x, _, _, _) ← load_dm dm; load_arr2 x.

Definition dm_shape (dm : loc) : Py (nat * nat) :=
  a ← dm_X dm; mret (shape0 a, shape1 a).

Definition dm_prior_mu (dm : loc) : Py (list A) :=
  '(_, mu, _, _) ← load_dm dm; load_arr1 mu.

Definition dm_prior_sigma (dm : loc) : Py (list A) :=
  '(_, _, sigma, _) ← load_dm dm; load_arr1 sigma.

Definition dm_name (dm : loc) : Py string :=
  '(_, _, _, nm) ← load_dm dm; mret nm.

(** [[f(dm) for dm in dms]] *)
Fixpoint comprehension {T} (f : loc → Py T) (dms : list loc) : Py (list T) :=
  match dms with
  | [] => mret []
  | dm :: dms' => y ← f dm; ys ← comprehension f dms'; mret (y :: ys)
  end.

(** The loop of [vstack], writing into the array object at [lX]. *)
Fixpoint vstack_loop_st (lX : loc) (dms : list loc) (idx jdx : nat) : Py () :=
  match dms with
  | [] => mret ()
  | dm :: dms' =>
      s ← dm_shape dm;
      src ← dm_X dm;
      Xa ← load_arr2 lX;
      Xa' ← lift (setitem2 Xa idx (idx + s.1) jdx (jdx + s.2) src);
      _ ← store lX (CArr2 Xa');
      vstack_loop_st lX dms' (idx + s.1) (jdx + s.2)
  end.

Definition vstack_st (dms : list loc) : Py loc :=
  rs ← comprehension (λ dm, s ← dm_shape dm; mret s.1) dms;
  cs ← comprehension (λ dm, s ← dm_shape dm; mret s.2) dms;
  X0 ← lift (np_zeros zero (np_sum rs) (np_sum cs));
  lX ← alloc (CArr2 X0);
  _ ← vstack_loop_st lX dms 0 0;
  mus ← comprehension dm_prior_mu dms;
  mu ← lift (np_hstack mus);
  lmu ← alloc (CArr1 mu);
  sigmas ← comprehension dm_prior_sigma dms;
  sigma ← lift (np_hstack sigmas);
  lsigma ← alloc (CArr1 sigma);
  dm0 ← lift (first dms);
  nm ← dm_name dm0;
  alloc (CDm lX lmu lsigma nm).

(** The design matrix that the object at [l] stands for. *)
Definition deref (h : heap) (l : loc) : option (DesignMatrix A) :=
  match h !! l with
  | Some (CDm x mu sigma nm) =>
      match h !! x, h !! mu, h !! sigma with
      | Some (CArr2 a), Some (CArr1 m), Some (CArr1 s) =>
          Some (mkDesignMatrix a nm m s)
      | _, _, _ => None
      end
  | _ => None
  end.

(** [keeps h0 m Q]: run from any heap that extends [h0], the statement
    [m] leaves every object of [h0] as it is, and a result it returns
    satisfies [Q]. *)
Definition keeps (h0 : heap) {T} (m : Py T) (Q : T → Prop) : Prop :=
  ∀ h, h0 ⊆ h → h0 ⊆ (m h).2 ∧ ∀ x, (m h).1 = inr x → Q x.
End Heap.

Arguments cell A : clear implicits.
Arguments Py A T : clear implicits.

Module SampleHeap.
Import Sample.
(** The design matrices [dmA] and [dmB] as objects 1 and 5. *)
Definition h0 : gmap loc (cell nat) :=
  list_to_map
    [(1%positive, CDm 2%positive 3%positive 4%positive (name dmA));
     (2%positive, CArr2 (X dmA));
     (3%positive, CArr1 (prior_mu dmA)); (4%positive, CArr1 (prior_sigma dmA));
     (5%positive, CDm 6%positive 7%positive 8%positive (name dmB));
     (6%positive, CArr2 (X dmB));
     (7%positive, CArr1 (prior_mu dmB)); (8%positive, CArr1 (prior_sigma dmB))].
End SampleHeap.

(** ** Floating-point values

    The pixel and light-curve arrays hold IEEE 754 binary floats.  The
    definitions are made for any precision [prec] and exponent bound
    [emax]; binary32 is [prec = 24], [emax = 128] and binary64 is
    [prec = 53], [emax = 1024]. *)

Abbreviation float := spec_float.

(** A 3-D array of floats, as nested lists. *)
Abbreviation cube := (list (list (list float))).

Section Floats.
Variables prec emax : Z.

Definition fzero : float := S754_zero false.

(** [np.isnan], [np.isfinite] *)
Definition isnan (x : float) : bool :=
  match x with S754_nan => true | _ => false end.

Definition isfinite (x : float) : bool :=
  match x with S754_nan | S754_infinity _ => false | _ => true end.

(** [np.nan_to_num]: NaN becomes [0.0], an infinity becomes the finite
    float of largest magnitude with its sign. *)
Definition nan_to_num (x : float) : float :=
  match x with
  | S754_nan => fzero
  | S754_infinity false => SFmax_float prec emax
  | S754_infinity true => SFopp (SFmax_float prec emax)
  | _ => x
  end.

(** [x != 0] *)
Definition nonzero (x : float) : bool := negb (SFeqb x fzero).

(** The float of a count or of a small integer. *)
Definition of_Z (z : Z) : float := binary_normalize prec emax z 0 false.

(** [x] and [y] are the same value: identical, or equal for [==]. *)
Definition same_value (x y : float) : Prop := x = y ∨ SFeqb x y = true.

(** ** Target pixel files *)

(** [tpf.flux] and [tpf.flux_bkg] are arrays indexed by cadence, pixel
    row and pixel column; [tpf.pipeline_mask] is indexed by pixel row and
    pixel column. *)

Record TargetPixelFile : Type := mkTargetPixelFile {
  flux : cube;
  flux_bkg : cube;
  pipeline_mask : ndarray bool
}.

Definition get3 (c : cube) (t i j : nat) : option float :=
  c !! t ≫= λ img, img !! i ≫= λ row, row !! j.

(** [tpf + other] for an array [other]: lightkurve adds [other] to the
    flux of a copy of [tpf], entry by entry.  The notebook passes an
    array of the shape of the flux. *)
Definition tpf_add (tpf : TargetPixelFile) (other : cube) : TargetPixelFile :=
  mkTargetPixelFile
    (zip_with (zip_with (zip_with (SFadd prec emax))) (flux tpf) other)
    (flux_bkg tpf) (pipeline_mask tpf).

(** [tpf + np.nan_to_num(tpf.flux_bkg)] *)
Definition uncorr (tpf : TargetPixelFile) : TargetPixelFile :=
  tpf_add tpf (map (map (map nan_to_num)) (flux_bkg tpf)).

(** [tpfs_uncorr = [(tpf + np.nan_to_num(tpf.flux_bkg)) for tpf in tpfs]] *)
Definition tpfs_uncorr (tpfs : list TargetPixelFile) : list TargetPixelFile :=
  map uncorr tpfs.
End Floats.

Module SampleFloat.
(** Binary32 values: [1.0], [2.5], and a target pixel file of one
    cadence and one row of three pixels whose background is NaN on the
    first pixel. *)
Definition one32 : float := of_Z 24 128 1.
Definition f2_5 : float := S754_finite false 10485760 (-22).
Definition tpf1 : TargetPixelFile :=
  mkTargetPixelFile [[[one32; one32; S754_zero true]]]
                    [[[S754_nan; f2_5; S754_nan]]]
                    (Ndarray 1 3 [[true; true; false]]).
End SampleFloat.

(** ** Elementwise operations on 2-D arrays *)

Definition array_map {A B} (f : A → B) (a : ndarray A) : ndarray B :=
  Ndarray (shape0 a) (shape1 a) (map (map f) (rows a)).

(** An elementwise binary operation on two arrays of one shape. *)
Definition array_zip {A B C} (f : A → B → C) (a : ndarray A) (b : ndarray B)
  : ndarray C :=
  Ndarray (shape0 a) (shape1 a) (zip_with (zip_with f) (rows a) (rows b)).

(** ** Growing the aperture *)

(** [mask.astype(int)] *)
Definition astype_int (b : bool) : Z := if b then 1%Z else 0%Z.

(** [np.gradient] turns integers into binary64 floats. *)
Definition f64 (z : Z) : float := of_Z 53 1024 z.

(** The gradient at index [i] of an axis of length [n] whose values are
    read by [at_], for unit spacing and [edge_order=1]: one-sided
    differences at the two ends, central differences inside. *)
Definition gradient_at (at_ : nat → float) (n i : nat) : float :=
  if i =? 0 then
    SFdiv 53 1024 (SFsub 53 1024 (at_ 1) (at_ 0)) (f64 1)
  else if i =? n - 1 then
    SFdiv 53 1024 (SFsub 53 1024 (at_ (n - 1)) (at_ (n - 2))) (f64 1)
  else
    SFdiv 53 1024 (SFsub 53 1024 (at_ (i + 1)) (at_ (i - 1))) (f64 2).

(** The indices that the gradient at [i] reads. *)
Definition lower (n i : nat) : nat :=
  if i =? 0 then 0 else if i =? n - 1 then n - 2 else i - 1.
Definition upper (n i : nat) : nat :=
  if i =? 0 then 1 else if i =? n - 1 then n - 1 else i + 1.

(** [np.gradient(f)] for a 2-D array: the gradients along axis 0 and
    along axis 1; [ValueError] when an axis has fewer than two elements. *)
Definition np_gradient (f : ndarray float) : result (ndarray float * ndarray float) :=
  if shape0 f <? 2 then raise ValueError
  else if shape1 f <? 2 then raise ValueError
  else
    let at_ i j := default S754_nan (get2 f i j) in
    mret (Ndarray (shape0 f) (shape1 f)
            (imap (λ i row,
               imap (λ j _, gradient_at (λ k, at_ k j) (shape0 f) i) row) (rows f)),
          Ndarray (shape0 f) (shape1 f)
            (imap (λ i row,
               imap (λ j _, gradient_at (λ k, at_ i k) (shape1 f) j) row) (rows f))).

(** [(np.asarray(np.gradient(mask.astype(int))) != 0).any(axis=0) | mask] *)
Definition bigger_aper (mask : ndarray bool) : result (ndarray bool) :=
  '(g0, g1) ← np_gradient (array_map (λ b, f64 (astype_int b)) mask);
  let changes := array_zip orb (array_map nonzero g0) (array_map nonzero g1) in
  mret (array_zip orb changes mask).

(** [bigger_apers = [... for tpf in tpfs_uncorr]] *)
Definition bigger_apers (tpfs : list TargetPixelFile) : result (list (ndarray bool)) :=
  mapM (λ tpf, bigger_aper (pipeline_mask tpf)) tpfs.

(** Two pixels are neighbours along a row or a column. *)
Definition adjacent (i j i' j' : nat) : Prop :=
  (j' = j ∧ (i' = i + 1 ∨ i = i' + 1)) ∨ (i' = i ∧ (j' = j + 1 ∨ j = j' + 1)).

Module SampleMask.
(** A 4 by 5 pipeline mask. *)
Definition mask1 : ndarray bool :=
  Ndarray 4 5 [[false; false; false; false; false];
               [false; false; true;  true;  false];
               [false; false; true;  false; false];
               [true;  false; false; false; false]].
(** A target pixel file with that mask and no cadence. *)
Definition tpf_mask1 : TargetPixelFile := mkTargetPixelFile [] [] mask1.
End SampleMask.

(** ** Pruning the spline design matrix *)

(** [a[mask]] for a 1-D array and a boolean mask of its length. *)
Fixpoint compress {A} (mask : list bool) (l : list A) : list A :=
  match mask, l with
  | b :: mask', x :: l' => if b then x :: compress mask' l' else compress mask' l'
  | _, _ => []
  end.

(** [np.flatnonzero(mask)], counting from [start]: the indices at which
    [mask] is set, in increasing order. *)
Fixpoint where_true (mask : list bool) (start : nat) : list nat :=
  match mask with
  | [] => []
  | b :: mask' =>
      if b then start :: where_true mask' (S start)
      else where_true mask' (S start)
  end.

(** [a[:, mask]] for a 2-D array and a boolean mask; numpy raises
    [IndexError] when the mask is not as long as the rows of [a]. *)
Definition take_columns {A} (a : ndarray A) (mask : list bool)
  : result (ndarray A) :=
  if length mask =? shape1 a then
    mret (Ndarray (shape0 a) (length (where_true mask 0))
            (map (compress mask) (rows a)))
  else raise IndexError.

(** Column [j] of a 2-D array. *)
Definition column {A} (a : ndarray A) (j : nat) : list A :=
  omap (λ row, row !! j) (rows a).

(** *** Sums of floats

    [a.sum(...)] and [np.mean] add the items of a run with
    [np.add.reduce].  Addition of floats is not associative, and numpy
    fixes no order of addition: it adds a short run from left to right
    starting from [0.0], a long contiguous run in pairs over eight
    partial sums, and the columns of a row-major matrix row after row.
    The reduction is therefore a parameter [add_reduce] of every
    definition that sums, and all that is known of it is [summation]:
    its result is the value of some tree of additions whose leaves are
    the items of the run, each once and in any order, and zeros. *)

(** A way of adding floats up. *)
Inductive sum_tree : Type :=
  | Leaf (x : float)
  | Plus (t1 t2 : sum_tree).

Fixpoint leaves (t : sum_tree) : list float :=
  match t with
  | Leaf x => [x]
  | Plus t1 t2 => leaves t1 ++ leaves t2
  end.

(** A column is empty when all its entries are zero. *)
Definition all_zero (col : list float) : Prop :=
  Forall (λ x, SFeqb x fzero = true) col.

(** Adding the items of [l] to [t], one after the other. *)
Definition plus_in_order (t : sum_tree) (l : list float) : sum_tree :=
  fold_left (λ t x, Plus t (Leaf x)) l t.

(** The eight partial sums of a pairwise summation take one item each
    from every block of eight items; what is left of [l] when no block
    of eight remains is returned with them. *)
Fixpoint plus_blocks (accs : list sum_tree) (l : list float)
  : list sum_tree * list float :=
  match l with
  | x0 :: x1 :: x2 :: x3 :: x4 :: x5 :: x6 :: x7 :: l' =>
      plus_blocks
        (zip_with (λ r x, Plus r (Leaf x)) accs [x0; x1; x2; x3; x4; x5; x6; x7])
        l'
  | _ => (accs, l)
  end.

(** The partial sums are added in pairs. *)
Definition plus_pairs (accs : list sum_tree) : sum_tree :=
  match accs with
  | [r0; r1; r2; r3; r4; r5; r6; r7] =>
      Plus (Plus (Plus r0 r1) (Plus r2 r3)) (Plus (Plus r4 r5) (Plus r6 r7))
  | _ => plus_in_order (Leaf fzero) (accs ≫= leaves)
  end.

(** The order of a pairwise summation of one contiguous run, as in
    numpy's [pairwise_sum]: fewer than eight items are added in order
    starting from [0.0]; up to 128 items are added into eight partial
    sums that are then added in pairs, and the items left over are added
    in order; a longer run is cut in two at a multiple of eight, and the
    sums of the two parts are added.  [fuel] bounds the number of cuts:
    the length of the run is enough. *)
Fixpoint pairwise_tree (fuel : nat) (l : list float) : sum_tree :=
  match l with
  | x0 :: x1 :: x2 :: x3 :: x4 :: x5 :: x6 :: x7 :: l' =>
      if length l <=? 128 then
        let '(accs, rest) :=
          plus_blocks [Leaf x0; Leaf x1; Leaf x2; Leaf x3;
                       Leaf x4; Leaf x5; Leaf x6; Leaf x7] l' in
        plus_in_order (plus_pairs accs) rest
      else
        match fuel with
        | S fuel' =>
            let n2 := length l / 2 - (length l / 2) mod 8 in
            Plus (pairwise_tree fuel' (take n2 l)) (pairwise_tree fuel' (drop n2 l))
        | 0 => plus_in_order (Leaf fzero) l
        end
  | _ => plus_in_order (Leaf fzero) l
  end.

Section Sums.
Variables prec emax : Z.

Fixpoint tree_value (t : sum_tree) : float :=
  match t with
  | Leaf x => x
  | Plus t1 t2 => SFadd prec emax (tree_value t1) (tree_value t2)
  end.

(** [s] is a sum of the items of [l]. *)
Definition adds_up (l : list float) (s : float) : Prop :=
  ∃ t zs, tree_value t = s ∧ leaves t ≡ₚ l ++ zs ∧ all_zero zs.

(** What [np.add.reduce] is known to be. *)
Definition summation (add_reduce : list float → float) : Prop :=
  ∀ l, adds_up l (add_reduce l).

(** One order of addition: from left to right, starting from the
    identity [0.0].  numpy adds in this order the items of a run of fewer
    than eight items, and every column of a row-major matrix that has
    several columns. *)
Definition reduce_in_order (l : list float) : float :=
  fold_left (SFadd prec emax) l fzero.

(** Another order: the pairwise sum of the run, added to the identity
    [0.0].  numpy adds one contiguous run in this order. *)
Definition reduce_pairwise (l : list float) : float :=
  tree_value (Plus (Leaf fzero) (pairwise_tree (length l) l)).

(** A float of the format that is neither negative nor NaN. *)
Definition nonnegative (x : float) : bool :=
  valid_binary prec emax x &&
  match x with
  | S754_zero _ => true
  | S754_infinity s | S754_finite s _ _ => negb s
  | S754_nan => false
  end.

(** A zero, a positive float whose exponent is not below the least
    exponent of the format, or [+inf]: what the sums of [nonnegative]
    floats are. *)
Definition at_least_zero (x : float) : Prop :=
  match x with
  | S754_zero _ => True
  | S754_infinity s => s = false
  | S754_nan => False
  | S754_finite s _ e => s = false ∧ (emin prec emax ≤ e)%Z
  end.
End Sums.

(** The sums in order of binary64 and of binary32 floats, for the sample
    inputs. *)
Definition sum64 : list float → float := reduce_in_order 53 1024.
Definition sum32 : list float → float := reduce_in_order 24 128.

Section Prune.
Variable add_reduce : list float → float.

(** [a.sum(axis=0)]: the sum of every column. *)
Definition sum_axis0 (a : ndarray float) : list float :=
  map (λ j, add_reduce (column a j)) (seq 0 (shape1 a)).

(** [lk.DesignMatrix(Xa, name=nm)]: the prior means default to zero and
    the prior standard deviations to infinity. *)
Definition new_DesignMatrix (Xa : ndarray float) (nm : string)
  : DesignMatrix float :=
  mkDesignMatrix Xa nm (replicate (shape1 Xa) fzero)
                 (replicate (shape1 Xa) (S754_infinity false)).

(** [lk.DesignMatrix(star_dm.X[:, star_dm.X.sum(axis=0) != 0], name='spline')] *)
Definition prune_star_dm (star_dm : DesignMatrix float)
  : result (DesignMatrix float) :=
  Xp ← take_columns (X star_dm) (map nonzero (sum_axis0 (X star_dm)));
  mret (new_DesignMatrix Xp "spline").

(** The columns that pruning keeps: those whose sum is not zero. *)
Definition kept_columns (a : ndarray float) : list nat :=
  where_true (map nonzero (sum_axis0 a)) 0.
End Prune.

Module SampleSpline.
(** A binary64 spline matrix of three rows whose second and fourth
    columns are empty, and whose third column sums to zero. *)
Definition star_X : ndarray float :=
  Ndarray 3 4
    [[f64 1; fzero;           f64 2;    fzero];
     [f64 3; S754_zero true;  f64 (-2); fzero];
     [f64 0; fzero;           fzero;    fzero]].
Definition star_dm : DesignMatrix float :=
  mkDesignMatrix star_X "spline"
    (replicate 4 fzero) (replicate 4 (S754_infinity false)).
(** A spline matrix without negative entry whose second and fourth
    columns are empty. *)
(** A column of sixteen entries, 2^53, 1, six zeros, -2^53, -1 and six
    zeros, beside an empty column. *)
Definition mixed_column : list float :=
  [f64 (2 ^ 53); f64 1] ++ replicate 6 fzero
  ++ [f64 (- 2 ^ 53); f64 (-1)] ++ replicate 6 fzero.
Definition mixed_dm : DesignMatrix float :=
  mkDesignMatrix (Ndarray 16 2 (map (λ x, [x; fzero]) mixed_column)) "spline"
    (replicate 2 fzero) (replicate 2 (S754_infinity false)).
Definition knots_dm : DesignMatrix float :=
  mkDesignMatrix
    (Ndarray 3 4
       [[f64 1; fzero; fzero; fzero];
        [f64 3; fzero; f64 2; fzero];
        [fzero; fzero; f64 5; fzero]])
    "spline" (replicate 4 fzero) (replicate 4 (S754_infinity false)).
End SampleSpline.

(** ** The flux-error fix *)

Module Lc.
(** The arrays of a light curve. *)
Record LightCurve : Type := mkLightCurve {
  time : list float;
  flux : list float;
  flux_err : list float
}.
End Lc.

Section FluxErr.
Variables prec emax : Z.
Variable add_reduce : list float → float.

(** [np.mean] of a 1-D array: the sum divided by the count. *)
Definition np_mean (l : list float) : float :=
  SFdiv prec emax (add_reduce l) (of_Z prec emax (Z.of_nat (length l))).

(** Sorting in increasing order; the sequence holds no NaN. *)
Fixpoint sort_insert (x : float) (l : list float) : list float :=
  match l with
  | [] => [x]
  | y :: l' => if SFleb x y then x :: l else y :: sort_insert x l'
  end.

Definition np_sort (l : list float) : list float := foldr sort_insert [] l.

(** [np.median] of a 1-D array without NaN: the mean of the middle
    element, or of the two middle elements, of the sorted array. *)
Definition np_median (l : list float) : float :=
  let n := length l in
  let s := np_sort l in
  if Nat.even n then np_mean (take 2 (drop (n / 2 - 1) s))
  else np_mean (take 1 (drop ((n - 1) / 2) s)).

(** [np.nanmedian] of a 1-D array: the median of the entries that are
    not NaN, and NaN when there is none. *)
Definition np_nanmedian (l : list float) : float :=
  match filter (λ x, isnan x = false) l with
  | [] => S754_nan
  | v => np_median v
  end.

(** [lc.flux_err[~np.isfinite(lc.flux_err)] = np.nanmedian(lc.flux_err)] *)
Definition fix_flux_err (lc : Lc.LightCurve) : Lc.LightCurve :=
  let med := np_nanmedian (Lc.flux_err lc) in
  Lc.mkLightCurve (Lc.time lc) (Lc.flux lc)
    (map (λ x, if isfinite x then x else med) (Lc.flux_err lc)).
End FluxErr.

Module SampleLc.
(** A binary64 light curve whose two finite flux errors are the largest
    finite float, and whose third flux error is NaN. *)
Definition big : float := SFmax_float 53 1024.
Definition lc_big : Lc.LightCurve :=
  Lc.mkLightCurve [f64 1; f64 2; f64 3] [f64 1; f64 1; f64 1] [big; S754_nan; big].
(** A light curve with flux errors 3, NaN, 1, infinity and 2. *)
Definition lc_small : Lc.LightCurve :=
  Lc.mkLightCurve [f64 1; f64 2; f64 3; f64 4; f64 5]
    [f64 1; f64 1; f64 1; f64 1; f64 1]
    [f64 3; S754_nan; f64 1; S754_infinity false; f64 2].
End SampleLc.

(** ** A reference for the entries of the stacked matrix *)

Section Reference.
Context {A : Type} (zero : A).

(** Entry [(i, j)] of the block-diagonal arrangement of [dms], by
    recursion on the list: the first matrix fills the top-left corner,
    the rest is arranged below and to the right of it. *)
Fixpoint block_entry (dms : list (DesignMatrix A)) (i j : nat) : A :=
  match dms with
  | [] => zero
  | dm :: dms' =>
      if i <? shape0 (X dm) then
        if j <? shape1 (X dm) then default zero (get2 (X dm) i j) else zero
      else
        if j <? shape1 (X dm) then zero
        else block_entry dms' (i - shape0 (X dm)) (j - shape1 (X dm))
  end.
End Reference.

(** ** Dropping cadences *)

Section Cadences.
Variables prec emax : Z.
Variable add_reduce : list float → float.

(** The sum of the pixels of one cadence. *)
Definition image_sum (img : list (list float)) : float :=
  add_reduce (concat img).

(** [c.sum(axis=(1, 2))] *)
Definition sum_axis12 (c : cube) : list float := map image_sum c.

(** [tpf[mask]] for a boolean mask over the cadences: lightkurve selects
    the cadences in every data column; numpy raises [IndexError] when the
    mask is not as long as the file has cadences. *)
Definition tpf_getitem (tpf : TargetPixelFile) (mask : list bool)
  : result TargetPixelFile :=
  if length mask =? length (flux tpf) then
    mret (mkTargetPixelFile (compress mask (flux tpf))
            (compress mask (flux_bkg tpf)) (pipeline_mask tpf))
  else raise IndexError.

(** [tpf[np.isfinite(tpf.flux.sum(axis=(1, 2)))]] *)
Definition finite_flux_cadences (tpf : TargetPixelFile) : result TargetPixelFile :=
  tpf_getitem tpf (map isfinite (sum_axis12 (flux tpf))).

(** [tpf[np.isfinite(tpf.flux_bkg.sum(axis=(1, 2)))]], for the raw light
    curve. *)
Definition finite_bkg_cadences (tpf : TargetPixelFile) : result TargetPixelFile :=
  tpf_getitem tpf (map isfinite (sum_axis12 (flux_bkg tpf))).

(** The two statements that build [tpfs_uncorr]:
<<
    tpfs_uncorr = [(tpf + np.nan_to_num(tpf.flux_bkg)) for tpf in tpfs]
    tpfs_uncorr = [tpf[np.isfinite(tpf.flux.sum(axis=(1, 2)))]
                   for tpf in tpfs_uncorr]
>> *)
Definition tpfs_uncorr_finite (tpfs : list TargetPixelFile)
  : result (list TargetPixelFile) :=
  mapM finite_flux_cadences (tpfs_uncorr prec emax tpfs).
End Cadences.

Module SampleCadences.
(** A binary32 cadence of 4 by 4 pixels that are in turn the largest
    finite float and its opposite. *)
Definition big32 : float := SFmax_float 24 128.
Definition checked : list (list float) :=
  replicate 4 [big32; SFopp big32; big32; SFopp big32].
(** A file with that cadence alone. *)
Definition tpf_checked : TargetPixelFile :=
  mkTargetPixelFile [checked] [replicate 4 (replicate 4 fzero)]
    (Ndarray 4 4 (replicate 4 [false; true; true; false])).
(** A binary32 file of three cadences of one row of two pixels; the
    second cadence has a NaN flux and the third a NaN background. *)
Definition tpf3 : TargetPixelFile :=
  mkTargetPixelFile
    [[[SampleFloat.one32; SampleFloat.f2_5]];
     [[S754_nan; SampleFloat.one32]];
     [[SampleFloat.f2_5; SampleFloat.f2_5]]]
    [[[SampleFloat.one32; SampleFloat.one32]];
     [[SampleFloat.one32; SampleFloat.one32]];
     [[S754_nan; SampleFloat.one32]]]
    (Ndarray 1 2 [[true; false]]).
End SampleCadences.

(** ** The pixels outside the aperture *)

(** [a.ravel()]: the entries in row-major order. *)
Definition flat {A} (a : ndarray A) : list A := concat (rows a).

(** An image of [r] rows and [c] columns. *)
Definition image_has_shape (r c : nat) (img : list (list float)) : Prop :=
  length img = r ∧ Forall (λ row, length row = c) img.

#[global] Instance image_has_shape_dec r c img : Decision (image_has_shape r c img).
Proof. unfold image_has_shape. apply _. Defined.

(** [np.flatnonzero(~aper)]: the row-major positions of the pixels
    outside the aperture. *)
Definition outside_positions (aper : ndarray bool) : list nat :=
  where_true (flat (array_map negb aper)) 0.

(** [pixels = tpf.flux[:, ~aper]]: for every cadence the flux of the
    pixels outside the aperture, in row-major order; numpy raises
    [IndexError] when the mask has not the shape of the images.  A file
    without cadence holds no image: its images have the shape of its
    pipeline mask. *)
Definition outside_pixels (tpf : TargetPixelFile) (aper : ndarray bool)
  : result (ndarray float) :=
  if bool_decide
       (Forall (image_has_shape (shape0 aper) (shape1 aper)) (flux tpf)
        ∧ (length (flux tpf) = 0 →
           shape0 aper = shape0 (pipeline_mask tpf)
           ∧ shape1 aper = shape1 (pipeline_mask tpf)))
  then
    mret (Ndarray (length (flux tpf)) (length (outside_positions aper))
            (map (λ img, compress (flat (array_map negb aper)) (concat img))
                 (flux tpf)))
  else raise IndexError.

Module SamplePixels.
(** A binary32 file of two cadences of 2 by 3 pixels whose pipeline mask
    holds the middle pixel of the first row. *)
Definition px (z : Z) : float := of_Z 24 128 z.
Definition tpf23 : TargetPixelFile :=
  mkTargetPixelFile
    [[[px 1; px 2; px 3]; [px 4; px 5; px 6]];
     [[px 11; px 12; px 13]; [px 14; px 15; px 16]]]
    [[[px 0; px 0; px 0]; [px 0; px 0; px 0]];
     [[px 0; px 0; px 0]; [px 0; px 0; px 0]]]
    (Ndarray 2 3 [[false; true; false]; [false; false; false]]).
End SamplePixels.

(** ** Splitting at the data downlink *)

(** [np.diff(a)] for a 1-D binary64 array: [a[1:] - a[:-1]]. *)
Definition np_diff (a : list float) : list float :=
  zip_with (λ x y, SFsub 53 1024 y x) a (drop 1 a).

(** The binary64 float that the literal [0.3] denotes. *)
Definition f0_3 : float := S754_finite false 5404319552844595 (-54).

(** [list(np.where(np.diff(tpf.time) > 0.3)[0] + 1)]: the indices at
    which the design matrix is split. *)
Definition split_points (time : list float) : list nat :=
  map (λ k, k + 1) (where_true (map (λ d, SFltb f0_3 d) (np_diff time)) 0).

Module SampleTime.
(** Times 0, 0.25, 0.5, 1.5, 1.75 and 3 days. *)
Definition quarter (n : positive) : float := SFdiv 53 1024 (f64 (Zpos n)) (f64 4).
Definition times : list float :=
  [f64 0; quarter 1; quarter 2; quarter 6; quarter 7; f64 3].
End SampleTime.

(** ** The priors of the spline design matrix *)

(** The binary64 float that the literal [0.001] denotes. *)
Definition f0_001 : float := S754_finite false 4611686018427388 (-62).

(** The two statements that reset the priors of [star_dm]:
<<
    star_dm.prior_mu = np.zeros_like(star_dm.prior_mu)
    star_dm.prior_sigma = np.zeros_like(star_dm.prior_sigma) + 0.001
>> *)
Definition reset_priors (star_dm : DesignMatrix float) : DesignMatrix float :=
  mkDesignMatrix (X star_dm) (name star_dm)
    (map (λ _, fzero) (prior_mu star_dm))
    (map (λ z, SFadd 53 1024 z f0_001) (map (λ _, fzero) (prior_sigma star_dm))).

(** ** Setting the priors of the offset terms *)

(** [a[-1] = v] for a 1-D array: [IndexError] on an empty array. *)
Definition setitem_last {A} (a : list A) (v : A) : result (list A) :=
  match a with
  | [] => raise IndexError
  | _ :: _ => mret (<[length a - 1 := v]> a)
  end.

(** The binary64 float that the literal [0.1] denotes. *)
Definition f0_1 : float := S754_finite false 7205759403792794 (-56).

(** [bkg.prior_mu] and [bkg.prior_sigma] as objects: the attribute gives
    the array object itself, not a copy. *)
Definition dm_prior_mu_ref (dm : loc) : Py float loc :=
  '(_, mu, _, _) ← load_dm dm; mret mu.

Definition dm_prior_sigma_ref (dm : loc) : Py float loc :=
  '(_, _, sigma, _) ← load_dm dm; mret sigma.

(** [arr[-1] = v] on the array object at [arr]: the array is written in
    place. *)
Definition setitem_last_st (arr : loc) (v : float) : Py float () :=
  a ← load_arr1 arr;
  a' ← lift (setitem_last a v);
  store arr (CArr1 a').

(** The loop over the background design matrices:
<<
    for bkg in bkgs:
        bkg.prior_mu[-1] = 1
        bkg.prior_sigma[-1] = 0.1
>> *)
Fixpoint set_offset_priors (bkgs : list loc) : Py float () :=
  match bkgs with
  | [] => mret ()
  | bkg :: bkgs' =>
      mu ← dm_prior_mu_ref bkg;
      _ ← setitem_last_st mu (f64 1);
      sigma ← dm_prior_sigma_ref bkg;
      _ ← setitem_last_st sigma f0_1;
      set_offset_priors bkgs'
  end.

(** The design matrix with the priors of its last component set. *)
Definition with_offset_priors (dm : DesignMatrix float) : DesignMatrix float :=
  mkDesignMatrix (X dm) (name dm)
    (<[length (prior_mu dm) - 1 := f64 1]> (prior_mu dm))
    (<[length (prior_sigma dm) - 1 := f0_1]> (prior_sigma dm)).

(** The prior arrays of the design matrix object at [l], and of a list
    of design matrix objects. *)
Definition prior_cells_of (h : gmap loc (cell float)) (l : loc) : list loc :=
  match h !! l with
  | Some (CDm _ mu sigma _) => [mu; sigma]
  | _ => []
  end.

Definition prior_cells (h : gmap loc (cell float)) (bkgs : list loc) : list loc :=
  bkgs ≫= prior_cells_of h.

Module SampleBkg.
(** Two background design matrices with three and two components, as
    objects 1 and 5 of a heap. *)
Definition bkg1 : DesignMatrix float :=
  mkDesignMatrix (Ndarray 1 3 [[f64 2; f64 3; f64 1]]) "bkg"
    [fzero; fzero; fzero]
    [S754_infinity false; S754_infinity false; S754_infinity false].
Definition bkg2 : DesignMatrix float :=
  mkDesignMatrix (Ndarray 1 2 [[f64 5; f64 1]]) "bkg"
    [fzero; fzero] [S754_infinity false; S754_infinity false].
Definition hb : gmap loc (cell float) :=
  list_to_map
    [(1%positive, CDm 2%positive 3%positive 4%positive (name bkg1));
     (2%positive, CArr2 (X bkg1));
     (3%positive, CArr1 (prior_mu bkg1)); (4%positive, CArr1 (prior_sigma bkg1));
     (5%positive, CDm 6%positive 7%positive 8%positive (name bkg2));
     (6%positive, CArr2 (X bkg2));
     (7%positive, CArr1 (prior_mu bkg2)); (8%positive, CArr1 (prior_sigma bkg2))].
End SampleBkg.

(** * Facts about arrays *)

Section ArrayFacts.
Context {A : Type}.
Implicit Types (a src Xa : ndarray A) (i j : nat).

Lemma get2_is_Some a i j :
  wf_ndarray a → i < shape0 a → j < shape1 a → is_Some (get2 a i j).
Proof.
  intros [Hlen Hrows] Hi Hj. unfold get2.
  destruct (lookup_lt_is_Some_2 (rows a) i) as [r Hr]; [lia|].
  rewrite Hr. simpl. apply lookup_lt_is_Some_2.
  rewrite Forall_lookup in Hrows. rewrite (Hrows _ _ Hr). lia.
Qed.

Lemma get2_Some_lt a i j x :
  wf_ndarray a → get2 a i j = Some x → i < shape0 a ∧ j < shape1 a.
Proof.
  intros [Hlen Hrows] Hget. unfold get2 in Hget.
  destruct (rows a !! i) as [r|] eqn:Hr; [|done]. simpl in Hget.
  rewrite Forall_lookup in Hrows. specialize (Hrows _ _ Hr).
  apply lookup_lt_Some in Hr, Hget. lia.
Qed.

Lemma wf_zeros (zero : A) r c : wf_ndarray (zeros zero r c).
Proof.
  split; simpl; [by rewrite length_replicate|].
  apply Forall_replicate. by rewrite length_replicate.
Qed.

Lemma get2_zeros (zero : A) r c i j :
  i < r → j < c → get2 (zeros zero r c) i j = Some zero.
Proof.
  intros Hi Hj. unfold get2, zeros. simpl.
  rewrite lookup_replicate_2 by done. simpl. by apply lookup_replicate_2.
Qed.

Lemma in_slice_true start count i :
  in_slice start count i = true ↔ start ≤ i < start + count.
Proof.
  unfold in_slice. rewrite andb_true_iff, Nat.leb_le, Nat.ltb_lt. done.
Qed.

Lemma slice_indices_fits lo n len :
  lo + n ≤ len → slice_indices lo (lo + n) len = (lo, n).
Proof. intros. unfold slice_indices. f_equal; lia. Qed.

Lemma bcast_index_lt s k : k < s → bcast_index s k = k.
Proof. unfold bcast_index. destruct (Nat.eqb_spec s 1); lia. Qed.

(** A block that lies inside [Xa] and has the shape of [src] is
    assigned without clipping and without broadcasting. *)
Lemma setitem2_fits Xa i0 j0 src :
  i0 + shape0 src ≤ shape0 Xa → j0 + shape1 src ≤ shape1 Xa →
  ∃ Xa', setitem2 Xa i0 (i0 + shape0 src) j0 (j0 + shape1 src) src = inr Xa'
    ∧ shape0 Xa' = shape0 Xa ∧ shape1 Xa' = shape1 Xa
    ∧ (wf_ndarray Xa → wf_ndarray Xa')
    ∧ (wf_ndarray Xa → wf_ndarray src → ∀ i j,
         get2 Xa' i j =
           if in_slice i0 (shape0 src) i && in_slice j0 (shape1 src) j
           then get2 src (i - i0) (j - j0) else get2 Xa i j).
Proof.
  intros Hr Hc. unfold setitem2.
  rewrite !slice_indices_fits by done.
  unfold broadcastable. rewrite !Nat.eqb_refl. simpl.
  eexists. split; [reflexivity|]. simpl. split_and!; [done|done| |].
  - intros [Hlen Hrows]. split; simpl; [by rewrite length_imap|].
    rewrite Forall_lookup. intros i r Hi.
    rewrite list_lookup_imap in Hi.
    destruct (rows Xa !! i) as [r0|] eqn:Hr0; [|done]. simpl in Hi.
    rewrite Forall_lookup in Hrows. specialize (Hrows _ _ Hr0).
    injection Hi as <-. destruct (in_slice _ _ i); [|done].
    by rewrite length_imap.
  - intros HwfX Hwfs i j. unfold get2 at 1. simpl.
    rewrite list_lookup_imap.
    destruct (rows Xa !! i) as [r0|] eqn:Hr0; simpl.
    + destruct (in_slice i0 (shape0 src) i) eqn:Hin; simpl.
      * rewrite list_lookup_imap.
        destruct (r0 !! j) as [x|] eqn:Hx; simpl.
        -- destruct (in_slice j0 (shape1 src) j) eqn:Hjn.
           ++ apply in_slice_true in Hin, Hjn.
              rewrite !bcast_index_lt by lia.
              destruct (get2_is_Some src (i - i0) (j - j0)) as [v Hv];
                [done|lia|lia|]. by rewrite Hv.
           ++ unfold get2. by rewrite Hr0.
        -- destruct (in_slice j0 (shape1 src) j) eqn:Hjn.
           ++ exfalso. apply in_slice_true in Hjn.
              destruct HwfX as [_ Hrows]. rewrite Forall_lookup in Hrows.
              specialize (Hrows _ _ Hr0). apply lookup_ge_None in Hx. lia.
           ++ unfold get2. by rewrite Hr0.
      * unfold get2. by rewrite Hr0.
    + destruct (in_slice i0 (shape0 src) i) eqn:Hin; simpl.
      * exfalso. apply in_slice_true in Hin.
        destruct HwfX as [Hlen _]. apply lookup_ge_None in Hr0. lia.
      * unfold get2. by rewrite Hr0.
Qed.
End ArrayFacts.

(** * Facts about [vstack] *)

Section VstackFacts.
Context {A : Type} (zero : A).
Implicit Types (dm : DesignMatrix A) (dms : list (DesignMatrix A)).

Lemma np_sum_cons {T} (f : T → nat) (x : T) (l : list T) :
  np_sum (map f (x :: l)) = NpInt (sum_list_with f (x :: l)).
Proof.
  simpl. f_equal. f_equal. induction l as [|y l IH]; simpl; [done|].
  by rewrite IH.
Qed.

Lemma total_rows_cons dm dms :
  total_rows (dm :: dms) = shape0 (X dm) + total_rows dms.
Proof. reflexivity. Qed.

Lemma total_cols_cons dm dms :
  total_cols (dm :: dms) = shape1 (X dm) + total_cols dms.
Proof. reflexivity. Qed.

Lemma offset_0 dms : row_offset dms 0 = 0 ∧ col_offset dms 0 = 0.
Proof. done. Qed.

Lemma row_offset_S dm dms k :
  row_offset (dm :: dms) (S k) = shape0 (X dm) + row_offset dms k.
Proof. reflexivity. Qed.

Lemma col_offset_S dm dms k :
  col_offset (dm :: dms) (S k) = shape1 (X dm) + col_offset dms k.
Proof. reflexivity. Qed.

(** The loop, started in a state that leaves room for all the blocks of
    [dms], ends normally; the blocks are written at their offsets from
    [(idx, jdx)] and every other entry keeps its value. *)
Lemma vstack_loop_spec dms : ∀ (Xa : ndarray A) (idx jdx : nat),
  wf_ndarray Xa → Forall wf_dm dms →
  idx + total_rows dms ≤ shape0 Xa → jdx + total_cols dms ≤ shape1 Xa →
  ∃ Xa', vstack_loop dms (Xa, idx, jdx)
           = inr (Xa', idx + total_rows dms, jdx + total_cols dms)
    ∧ wf_ndarray Xa'
    ∧ shape0 Xa' = shape0 Xa ∧ shape1 Xa' = shape1 Xa
    ∧ (∀ k dm i j, dms !! k = Some dm →
         i < (shape dm).1 → j < (shape dm).2 →
         get2 Xa' (idx + row_offset dms k + i) (jdx + col_offset dms k + j)
           = get2 (X dm) i j)
    ∧ (∀ i j,
         (∀ k dm, dms !! k = Some dm →
            ¬ in_block (idx + row_offset dms k) (jdx + col_offset dms k) dm i j) →
         get2 Xa' i j = get2 Xa i j).
Proof.
  induction dms as [|dm dms IH]; intros Xa idx jdx HwfX Hwf Hr Hc.
  - exists Xa. cbn [vstack_loop]. unfold total_rows, total_cols. simpl.
    rewrite !Nat.add_0_r. split_and!; try done.
  - apply Forall_cons in Hwf as [Hdm Hwf].
    rewrite total_rows_cons in Hr. rewrite total_cols_cons in Hc.
    destruct (setitem2_fits Xa idx jdx (X dm))
      as (X1 & HX1 & Hs0 & Hs1 & Hwf1 & Hget1); [lia|lia|].
    specialize (Hwf1 HwfX). specialize (Hget1 HwfX Hdm).
    destruct (IH X1 (idx + shape0 (X dm)) (jdx + shape1 (X dm)))
      as (X2 & HX2 & Hwf2 & Hs0' & Hs1' & Hin2 & Hout2); [done|done|lia|lia|].
    exists X2. split_and!.
    + cbn [vstack_loop shape fst snd]. rewrite HX1.
      cbn [mbind result_bind]. rewrite HX2.
      rewrite total_rows_cons, total_cols_cons. do 2 f_equal; [f_equal|]; lia.
    + done.
    + congruence.
    + congruence.
    + intros k dm' i j Hk Hi Hj. cbn [shape fst snd] in Hi, Hj.
      destruct k as [|k]; cbn [lookup list_lookup] in Hk.
      * injection Hk as <-.
        destruct (offset_0 (dm :: dms)) as [-> ->]. rewrite !Nat.add_0_r.
        rewrite Hout2.
        -- rewrite Hget1.
           assert (in_slice idx (shape0 (X dm)) (idx + i) = true) as ->
             by (apply in_slice_true; lia).
           assert (in_slice jdx (shape1 (X dm)) (jdx + j) = true) as ->
             by (apply in_slice_true; lia).
           cbn [andb]. f_equal; lia.
        -- intros k' dm' Hk' [Hb _]. lia.
      * specialize (Hin2 k dm' i j Hk Hi Hj).
        rewrite <- Hin2, row_offset_S, col_offset_S. f_equal; lia.
    + intros i j Hoff. rewrite Hout2.
      * rewrite Hget1.
        destruct (in_slice idx (shape0 (X dm)) i) eqn:Hi; [|done].
        destruct (in_slice jdx (shape1 (X dm)) j) eqn:Hj; [|done].
        exfalso. apply in_slice_true in Hi, Hj.
        apply (Hoff 0 dm); [done|].
        destruct (offset_0 (dm :: dms)) as [-> ->].
        unfold in_block. cbn [shape fst snd]. lia.
      * intros k dm' Hk Hb. apply (Hoff (S k) dm'); [done|].
        rewrite row_offset_S, col_offset_S.
        unfold in_block in *. cbn [shape fst snd] in *. lia.
Qed.

(** [vstack] on a list that is not empty, in terms of its loop. *)
Lemma vstack_unfold_cons dm dms :
  vstack zero (dm :: dms) =
    match vstack_loop (dm :: dms)
            (zeros zero (total_rows (dm :: dms)) (total_cols (dm :: dms)), 0, 0)
    with
    | inl e => inl e
    | inr (X1, _, _) =>
        inr (mkDesignMatrix X1 (name dm)
               (concat (map prior_mu (dm :: dms)))
               (concat (map prior_sigma (dm :: dms))))
    end.
Proof.
  unfold vstack. rewrite !np_sum_cons.
  fold (total_rows (dm :: dms)) (total_cols (dm :: dms)).
  cbn [np_zeros mbind result_bind mret result_ret].
  by destruct (vstack_loop _ _) as [e|[[X1 i1] j1]].
Qed.

(** What [vstack] returns on a list that is not empty. *)
Lemma vstack_cons dm dms :
  Forall wf_dm (dm :: dms) →
  ∃ X1, vstack zero (dm :: dms)
          = inr (mkDesignMatrix X1 (name dm)
                   (concat (map prior_mu (dm :: dms)))
                   (concat (map prior_sigma (dm :: dms))))
    ∧ wf_ndarray X1
    ∧ shape0 X1 = total_rows (dm :: dms)
    ∧ shape1 X1 = total_cols (dm :: dms)
    ∧ (∀ k dm' i j, (dm :: dms) !! k = Some dm' →
         i < (shape dm').1 → j < (shape dm').2 →
         get2 X1 (row_offset (dm :: dms) k + i) (col_offset (dm :: dms) k + j)
           = get2 (X dm') i j)
    ∧ (∀ i j, i < total_rows (dm :: dms) → j < total_cols (dm :: dms) →
         off_blocks (dm :: dms) i j → get2 X1 i j = Some zero).
Proof.
  intros Hwf. unfold vstack. rewrite !np_sum_cons.
  fold (total_rows (dm :: dms)) (total_cols (dm :: dms)).
  destruct (vstack_loop_spec (dm :: dms)
              (zeros zero (total_rows (dm :: dms)) (total_cols (dm :: dms))) 0 0)
    as (X1 & HX1 & Hwf1 & Hs0 & Hs1 & Hin & Hout);
    [apply wf_zeros|done|cbn [zeros shape0]; lia|cbn [zeros shape1]; lia|].
  exists X1. split_and!; try done.
  - cbn [np_zeros mbind result_bind mret result_ret].
    rewrite HX1. done.
  - intros i j Hi Hj Hoff. rewrite Hout; [by apply get2_zeros|].
    intros k dm' Hk. apply Hoff. done.
Qed.
End VstackFacts.

(** * The claims about [vstack] *)

Section VstackClaims.
Context {A : Type} (zero : A).
Implicit Types (dm : DesignMatrix A) (dms : list (DesignMatrix A)).

(** C1: for every non-empty list of design matrices, the matrix returned
    by [vstack] has as many rows as the inputs have together and as many
    columns as the inputs have together; the entries of the [k]-th input
    are found at the row offset and column offset given by the sums of
    the row and column counts of the inputs before it, and every entry
    outside these diagonal blocks is zero. *)
Theorem vstack_block_diagonal dms :
  dms ≠ [] → Forall wf_dm dms →
  ∃ out, vstack zero dms = inr out
    ∧ shape out = (total_rows dms, total_cols dms)
    ∧ (∀ k dm i j, dms !! k = Some dm →
         i < (shape dm).1 → j < (shape dm).2 →
         get2 (X out) (row_offset dms k + i) (col_offset dms k + j)
           = get2 (X dm) i j)
    ∧ (∀ i j, i < total_rows dms → j < total_cols dms →
         off_blocks dms i j → get2 (X out) i j = Some zero).
Proof.
  intros Hne Hwf. destruct dms as [|dm dms]; [done|].
  destruct (vstack_cons zero dm dms Hwf)
    as (X1 & Hv & _ & Hs0 & Hs1 & Hin & Hout).
  eexists. split; [exact Hv|]. unfold shape at 1. cbn [X].
  split_and!; [|done|done]. by rewrite Hs0, Hs1.
Qed.

(** C2: for every non-empty list of design matrices, [prior_mu] of the
    result is the concatenation, in input order, of the inputs'
    [prior_mu], and likewise for [prior_sigma]; when each input's prior
    vectors are as long as that input has columns, the result's prior
    vectors are as long as the result has columns. *)
Theorem vstack_priors_concatenated dms :
  dms ≠ [] → Forall wf_dm dms →
  ∃ out, vstack zero dms = inr out
    ∧ prior_mu out = concat (map prior_mu dms)
    ∧ prior_sigma out = concat (map prior_sigma dms)
    ∧ (Forall (λ dm, length (prior_mu dm) = (shape dm).2) dms →
         length (prior_mu out) = (shape out).2)
    ∧ (Forall (λ dm, length (prior_sigma dm) = (shape dm).2) dms →
         length (prior_sigma out) = (shape out).2).
Proof.
  intros Hne Hwf. destruct dms as [|dm dms]; [done|].
  destruct (vstack_cons zero dm dms Hwf) as (X1 & Hv & _ & _ & Hs1 & _).
  eexists. split; [exact Hv|]. cbn [prior_mu prior_sigma X shape snd].
  rewrite Hs1. split_and!; [done|done| |].
  - generalize (dm :: dms). clear. intros l Hl.
    induction Hl as [|d l Hd _ IH]; [done|].
    rewrite total_cols_cons. cbn [map concat]. rewrite length_app.
    cbn [shape snd] in Hd. lia.
  - generalize (dm :: dms). clear. intros l Hl.
    induction Hl as [|d l Hd _ IH]; [done|].
    rewrite total_cols_cons. cbn [map concat]. rewrite length_app.
    cbn [shape snd] in Hd. lia.
Qed.

(** C3, as amended: [vstack] applied to the empty list fails, and it
    fails before [dms[0].name] is reached: [np.sum([])] is the float
    [0.0], which [np.zeros] rejects as a dimension.  For every non-empty
    list of well-formed design matrices [vstack] returns normally. *)
Theorem vstack_fails_only_on_empty :
  vstack zero [] = raise TypeError
  ∧ ∀ dms, dms ≠ [] → Forall wf_dm dms → ∃ out, vstack zero dms = inr out.
Proof.
  split; [reflexivity|]. intros dms Hne Hwf.
  destruct dms as [|dm dms]; [done|].
  destruct (vstack_cons zero dm dms Hwf) as (X1 & Hv & _). eauto.
Qed.

(** C10: for every non-empty list of design matrices, the name of the
    result is the name of the first input, whatever the names of the
    other inputs. *)
Theorem vstack_name_of_first dm dms :
  Forall wf_dm (dm :: dms) →
  ∃ out, vstack zero (dm :: dms) = inr out ∧ name out = name dm.
Proof.
  intros Hwf. destruct (vstack_cons zero dm dms Hwf) as (X1 & Hv & _).
  eexists. split; [exact Hv|]. reflexivity.
Qed.
End VstackClaims.

Import Sample.

Local Ltac wf_sample :=
  repeat first [ apply Forall_nil_2 | apply Forall_cons_2 | split | reflexivity ].

Lemma vstack_block_diagonal_witness :
  [dmA; dmC; dmB] ≠ [] ∧ Forall wf_dm [dmA; dmC; dmB]
  ∧ ∃ out, vstack 0 [dmA; dmC; dmB] = inr out
      ∧ shape out = (3, 5)
      ∧ (∀ k dm i j, [dmA; dmC; dmB] !! k = Some dm →
           i < (shape dm).1 → j < (shape dm).2 →
           get2 (X out) (row_offset [dmA; dmC; dmB] k + i)
                        (col_offset [dmA; dmC; dmB] k + j) = get2 (X dm) i j)
      ∧ (∀ i j, i < 3 → j < 5 →
           off_blocks [dmA; dmC; dmB] i j → get2 (X out) i j = Some 0).
Proof.
  split; [discriminate|]. split; [wf_sample|].
  apply (vstack_block_diagonal 0 [dmA; dmC; dmB]); [discriminate|wf_sample].
Defined.

Lemma vstack_priors_concatenated_witness :
  [dmA; dmB] ≠ [] ∧ Forall wf_dm [dmA; dmB]
  ∧ ∃ out, vstack 0 [dmA; dmB] = inr out
      ∧ prior_mu out = [10; 20; 21]
      ∧ prior_sigma out = [11; 22; 23]
      ∧ (Forall (λ dm, length (prior_mu dm) = (shape dm).2) [dmA; dmB] →
           length (prior_mu out) = (shape out).2)
      ∧ (Forall (λ dm, length (prior_sigma dm) = (shape dm).2) [dmA; dmB] →
           length (prior_sigma out) = (shape out).2).
Proof.
  split; [discriminate|]. split; [wf_sample|].
  apply (vstack_priors_concatenated 0 [dmA; dmB]); [discriminate|wf_sample].
Defined.

Lemma vstack_fails_only_on_empty_witness :
  [dmB; dmA] ≠ [] ∧ Forall wf_dm [dmB; dmA]
  ∧ ∃ out, vstack 0 [dmB; dmA] = inr out.
Proof.
  split; [discriminate|]. split; [wf_sample|].
  apply (proj2 (vstack_fails_only_on_empty 0) [dmB; dmA]);
    [discriminate|wf_sample].
Defined.

(** C3, as first stated, has the empty list fail at [dms[0].name], which
    raises [IndexError]; the call raises [TypeError] at [np.zeros], two
    statements earlier, and [np.hstack] of no array would raise before
    [dms[0].name] as well. *)
Lemma vstack_empty_raises_before_first :
  first ([] : list (DesignMatrix nat)) = raise IndexError
  ∧ np_zeros 0 (np_sum []) (np_sum []) = raise TypeError
  ∧ np_hstack (map prior_mu ([] : list (DesignMatrix nat))) = raise ValueError
  ∧ vstack 0 ([] : list (DesignMatrix nat)) = raise TypeError
  ∧ vstack 0 ([] : list (DesignMatrix nat)) ≠ raise IndexError.
Proof. split_and!; [reflexivity..|discriminate]. Qed.

Lemma vstack_name_of_first_witness :
  Forall wf_dm [dmB; dmA; dmC]
  ∧ ∃ out, vstack 0 [dmB; dmA; dmC] = inr out ∧ name out = "spline".
Proof.
  split; [wf_sample|].
  apply (vstack_name_of_first 0 dmB [dmA; dmC]). wf_sample.
Defined.

(** * Facts about [vstack] on the heap *)

Section HeapFacts.
Context {A : Type} (zero : A).
Local Abbreviation heap := (gmap loc (cell A)).
Implicit Types (h hb : heap) (l lX : loc) (dms : list loc).

Lemma keeps_ret hb {T} (x : T) (Q : T → Prop) :
  Q x → keeps hb (mret x : Py A T) Q.
Proof. intros HQ h Hh. split; [done|]. by intros ? [= <-]. Qed.

Lemma keeps_lift hb {T} (r : result T) (Q : T → Prop) :
  (∀ x, r = inr x → Q x) → keeps hb (lift r : Py A T) Q.
Proof. intros HQ h Hh. split; [done|]. exact HQ. Qed.

Lemma keeps_lift_True hb {T} (r : result T) :
  keeps hb (lift r : Py A T) (λ _, True).
Proof. by apply keeps_lift. Qed.

Lemma keeps_bind hb {T U} (m : Py A T) (k : T → Py A U) Q R :
  keeps hb m Q → (∀ x, Q x → keeps hb (k x) R) → keeps hb (m ≫= k) R.
Proof.
  intros Hm Hk h Hh. destruct (Hm h Hh) as [Hsub HQ].
  unfold mbind, Py_bind. destruct (m h) as [[e|x] h']; simpl in *.
  - split; [done|]. by intros ? [=].
  - by apply (Hk x); [apply HQ|].
Qed.

Lemma keeps_weaken hb {T} (m : Py A T) (Q R : T → Prop) :
  keeps hb m Q → (∀ x, Q x → R x) → keeps hb m R.
Proof. intros Hm HQR h Hh. destruct (Hm h Hh). split; eauto. Qed.

Lemma keeps_alloc hb (c : cell A) : keeps hb (alloc c) (λ l, hb !! l = None).
Proof.
  intros h Hh. unfold alloc. simpl.
  assert (h !! fresh (dom h) = None) as Hfresh
    by (apply not_elem_of_dom, is_fresh).
  split.
  - etrans; [exact Hh|]. by apply insert_subseteq.
  - intros ? [= <-]. destruct (hb !! fresh (dom h)) eqn:E; [|done].
    by rewrite (lookup_weaken _ _ _ _ E Hh) in Hfresh.
Qed.

Lemma keeps_load hb l : keeps hb (load l) (λ _, True).
Proof. intros h Hh. unfold load. by destruct (h !! l). Qed.

Lemma keeps_store hb l (c : cell A) :
  hb !! l = None → keeps hb (store l c) (λ _, True).
Proof.
  intros Hl h Hh. unfold store. simpl. split; [|done].
  apply map_subseteq_spec. intros l' c' Hc'.
  rewrite lookup_insert_ne by congruence.
  by apply (lookup_weaken hb).
Qed.

(** Statements that only read. *)
Local Ltac keeps_reads :=
  repeat first
    [ apply keeps_load
    | by apply keeps_ret
    | by apply keeps_lift
    | eapply keeps_bind; [|intros ? _]
    | match goal with |- keeps _ (match ?c with _ => _ end) _ => destruct c end
    | match goal with |- keeps _ (let '(_, _) := ?p in _) _ => destruct p end ].

Lemma keeps_load_arr2 hb l : keeps hb (@load_arr2 A l) (λ _, True).
Proof. unfold load_arr2. keeps_reads. Qed.

Lemma keeps_load_arr1 hb l : keeps hb (@load_arr1 A l) (λ _, True).
Proof. unfold load_arr1. keeps_reads. Qed.

Lemma keeps_load_dm hb l : keeps hb (@load_dm A l) (λ _, True).
Proof. unfold load_dm. keeps_reads. Qed.

Lemma keeps_dm_X hb l : keeps hb (@dm_X A l) (λ _, True).
Proof.
  unfold dm_X. eapply keeps_bind; [apply keeps_load_dm|].
  intros [[[x mu] sg] nm] _. apply keeps_load_arr2.
Qed.

Lemma keeps_dm_shape hb l : keeps hb (@dm_shape A l) (λ _, True).
Proof.
  unfold dm_shape. eapply keeps_bind; [apply keeps_dm_X|].
  intros a _. by apply keeps_ret.
Qed.

Lemma keeps_dm_prior_mu hb l : keeps hb (@dm_prior_mu A l) (λ _, True).
Proof.
  unfold dm_prior_mu. eapply keeps_bind; [apply keeps_load_dm|].
  intros [[[x mu] sg] nm] _. apply keeps_load_arr1.
Qed.

Lemma keeps_dm_prior_sigma hb l : keeps hb (@dm_prior_sigma A l) (λ _, True).
Proof.
  unfold dm_prior_sigma. eapply keeps_bind; [apply keeps_load_dm|].
  intros [[[x mu] sg] nm] _. apply keeps_load_arr1.
Qed.

Lemma keeps_dm_name hb l : keeps hb (@dm_name A l) (λ _, True).
Proof.
  unfold dm_name. eapply keeps_bind; [apply keeps_load_dm|].
  intros [[[x mu] sg] nm] _. by apply keeps_ret.
Qed.

Lemma keeps_comprehension hb {T} (f : loc → Py A T) dms :
  (∀ l, keeps hb (f l) (λ _, True)) →
  keeps hb (comprehension f dms) (λ _, True).
Proof.
  intros Hf. induction dms as [|dm dms IH]; simpl; [by apply keeps_ret|].
  eapply keeps_bind; [apply Hf|]. intros y _.
  eapply keeps_bind; [apply IH|]. intros ys _. by apply keeps_ret.
Qed.

(** The loop writes to the object at [lX] and to no other. *)
Lemma keeps_vstack_loop_st hb lX dms : ∀ idx jdx,
  hb !! lX = None → keeps hb (@vstack_loop_st A lX dms idx jdx) (λ _, True).
Proof.
  induction dms as [|dm dms IH]; intros idx jdx HlX; simpl;
    [by apply keeps_ret|].
  eapply keeps_bind; [apply keeps_dm_shape|]. intros s _.
  eapply keeps_bind; [apply keeps_dm_X|]. intros src _.
  eapply keeps_bind; [apply keeps_load_arr2|]. intros Xa _.
  eapply keeps_bind; [apply keeps_lift_True|]. intros Xa' _.
  eapply keeps_bind; [by apply keeps_store|]. intros _ _.
  by apply IH.
Qed.

(** [vstack] allocates its result and writes to nothing that existed
    before the call. *)
Lemma keeps_vstack_st hb dms :
  keeps hb (vstack_st zero dms) (λ l, hb !! l = None).
Proof.
  unfold vstack_st.
  eapply keeps_bind.
  { apply keeps_comprehension. intros l.
    eapply keeps_bind; [apply keeps_dm_shape|]. intros s _. by apply keeps_ret. }
  intros rs _. eapply keeps_bind.
  { apply keeps_comprehension. intros l.
    eapply keeps_bind; [apply keeps_dm_shape|]. intros s _. by apply keeps_ret. }
  intros cs _.
  eapply keeps_bind; [apply keeps_lift_True|]. intros X0 _.
  eapply keeps_bind; [apply keeps_alloc|]. intros lX HlX. simpl in HlX.
  eapply keeps_bind; [by apply keeps_vstack_loop_st|]. intros _ _.
  eapply keeps_bind; [apply keeps_comprehension, keeps_dm_prior_mu|].
  intros mus _.
  eapply keeps_bind; [apply keeps_lift_True|]. intros mu _.
  eapply keeps_bind; [apply keeps_alloc|]. intros lmu _.
  eapply keeps_bind; [apply keeps_comprehension, keeps_dm_prior_sigma|].
  intros sigmas _.
  eapply keeps_bind; [apply keeps_lift_True|]. intros sigma _.
  eapply keeps_bind; [apply keeps_alloc|]. intros lsigma _.
  eapply keeps_bind; [apply keeps_lift_True|]. intros dm0 _.
  eapply keeps_bind; [apply keeps_dm_name|]. intros nm _.
  apply keeps_alloc.
Qed.

Lemma deref_weaken h h' l (dm : DesignMatrix A) :
  h ⊆ h' → deref h l = Some dm → deref h' l = Some dm.
Proof.
  intros Hsub. unfold deref.
  destruct (h !! l) as [[| |x mu sg nm]|] eqn:Hl; try done.
  rewrite (lookup_weaken _ _ _ _ Hl Hsub).
  destruct (h !! x) as [[a| |]|] eqn:Hx; try done.
  destruct (h !! mu) as [[|m|]|] eqn:Hmu; try done.
  destruct (h !! sg) as [[|s|]|] eqn:Hsg; try done.
  rewrite (lookup_weaken _ _ _ _ Hx Hsub), (lookup_weaken _ _ _ _ Hmu Hsub),
    (lookup_weaken _ _ _ _ Hsg Hsub). done.
Qed.

Lemma deref_inv h l (dm : DesignMatrix A) :
  deref h l = Some dm →
  ∃ x mu sg, h !! l = Some (CDm x mu sg (name dm))
    ∧ h !! x = Some (CArr2 (X dm))
    ∧ h !! mu = Some (CArr1 (prior_mu dm))
    ∧ h !! sg = Some (CArr1 (prior_sigma dm)).
Proof.
  unfold deref.
  destruct (h !! l) as [[| |x mu sg nm]|] eqn:Hl; try done.
  destruct (h !! x) as [[a| |]|] eqn:Hx; try done.
  destruct (h !! mu) as [[|m|]|] eqn:Hmu; try done.
  destruct (h !! sg) as [[|s|]|] eqn:Hsg; try done.
  intros [= <-]. by exists x, mu, sg.
Qed.

Lemma run_bind {T U} (m : Py A T) (k : T → Py A U) h x h' :
  m h = (inr x, h') → (m ≫= k) h = k x h'.
Proof. intros Hm. unfold mbind, Py_bind. by rewrite Hm. Qed.

Lemma run_bind_raise {T U} (m : Py A T) (k : T → Py A U) h e h' :
  m h = (inl e, h') → (m ≫= k) h = (inl e, h').
Proof. intros Hm. unfold mbind, Py_bind. by rewrite Hm. Qed.

Lemma run_load h l c : h !! l = Some c → load l h = (inr c, h).
Proof. intros Hl. unfold load. by rewrite Hl. Qed.

Lemma run_load_arr2 h l a :
  h !! l = Some (CArr2 a) → load_arr2 l h = (inr a, h).
Proof.
  intros Hl. unfold load_arr2. by rewrite (run_bind _ _ _ _ _ (run_load _ _ _ Hl)).
Qed.

Lemma run_load_arr1 h l v :
  h !! l = Some (CArr1 v) → load_arr1 l h = (inr v, h).
Proof.
  intros Hl. unfold load_arr1. by rewrite (run_bind _ _ _ _ _ (run_load _ _ _ Hl)).
Qed.

Lemma run_load_dm h l x mu sg nm :
  h !! l = Some (CDm x mu sg nm) → load_dm l h = (inr (x, mu, sg, nm), h).
Proof.
  intros Hl. unfold load_dm. by rewrite (run_bind _ _ _ _ _ (run_load _ _ _ Hl)).
Qed.

Lemma run_dm_X h l (dm : DesignMatrix A) :
  deref h l = Some dm → dm_X l h = (inr (X dm), h).
Proof.
  intros (x & mu & sg & Hl & Hx & _)%deref_inv. unfold dm_X.
  rewrite (run_bind _ _ _ _ _ (run_load_dm _ _ _ _ _ _ Hl)).
  by apply run_load_arr2.
Qed.

Lemma run_dm_shape h l (dm : DesignMatrix A) :
  deref h l = Some dm → dm_shape l h = (inr (shape dm), h).
Proof.
  intros Hd. unfold dm_shape. by rewrite (run_bind _ _ _ _ _ (run_dm_X _ _ _ Hd)).
Qed.

Lemma run_dm_prior_mu h l (dm : DesignMatrix A) :
  deref h l = Some dm → dm_prior_mu l h = (inr (prior_mu dm), h).
Proof.
  intros (x & mu & sg & Hl & _ & Hmu & _)%deref_inv. unfold dm_prior_mu.
  rewrite (run_bind _ _ _ _ _ (run_load_dm _ _ _ _ _ _ Hl)).
  by apply run_load_arr1.
Qed.

Lemma run_dm_prior_sigma h l (dm : DesignMatrix A) :
  deref h l = Some dm → dm_prior_sigma l h = (inr (prior_sigma dm), h).
Proof.
  intros (x & mu & sg & Hl & _ & _ & Hsg)%deref_inv. unfold dm_prior_sigma.
  rewrite (run_bind _ _ _ _ _ (run_load_dm _ _ _ _ _ _ Hl)).
  by apply run_load_arr1.
Qed.

Lemma run_dm_name h l (dm : DesignMatrix A) :
  deref h l = Some dm → dm_name l h = (inr (name dm), h).
Proof.
  intros (x & mu & sg & Hl & _)%deref_inv. unfold dm_name.
  by rewrite (run_bind _ _ _ _ _ (run_load_dm _ _ _ _ _ _ Hl)).
Qed.

(** A comprehension of reads returns the values read and leaves the heap
    as it is. *)
Lemma run_comprehension {T} (f : loc → Py A T) (g : DesignMatrix A → T) h
    dms (vs : list (DesignMatrix A)) :
  (∀ l dm, deref h l = Some dm → f l h = (inr (g dm), h)) →
  Forall2 (λ l dm, deref h l = Some dm) dms vs →
  comprehension f dms h = (inr (map g vs), h).
Proof.
  intros Hf Hrep. induction Hrep as [|l dm dms vs Hl _ IH]; [done|].
  cbn [comprehension map]. rewrite (run_bind _ _ _ _ _ (Hf _ _ Hl)).
  by rewrite (run_bind _ _ _ _ _ IH).
Qed.

(** The loop on the heap computes what the loop on values computes, in
    the array object at [lX]. *)
Lemma run_vstack_loop_st h lX dms (vs : list (DesignMatrix A)) :
  h !! lX = None →
  Forall2 (λ l dm, deref h l = Some dm) dms vs →
  ∀ Xa idx jdx,
    match vstack_loop vs (Xa, idx, jdx) with
    | inl e => (vstack_loop_st lX dms idx jdx (<[lX := CArr2 Xa]> h)).1 = inl e
    | inr (Xa', _, _) =>
        vstack_loop_st lX dms idx jdx (<[lX := CArr2 Xa]> h)
          = (inr (), <[lX := CArr2 Xa']> h)
    end.
Proof.
  intros HlX Hrep. induction Hrep as [|l dm dms vs Hl _ IH]; intros Xa idx jdx;
    [done|].
  cbn [vstack_loop vstack_loop_st].
  assert (deref (<[lX := CArr2 Xa]> h) l = Some dm) as Hl'
    by (eapply deref_weaken; [by apply insert_subseteq|done]).
  rewrite (run_bind _ _ _ _ _ (run_dm_shape _ _ _ Hl')).
  rewrite (run_bind _ _ _ _ _ (run_dm_X _ _ _ Hl')).
  rewrite (run_bind _ _ _ _ _ (run_load_arr2 _ lX Xa (lookup_insert_eq _ _ _))).
  destruct (setitem2 Xa idx (idx + (shape dm).1) jdx (jdx + (shape dm).2) (X dm))
    as [e|Xa'] eqn:Hset; cbn [mbind result_bind].
  - by erewrite run_bind_raise.
  - erewrite run_bind; [|reflexivity].
    erewrite run_bind; [|reflexivity].
    rewrite insert_insert_eq. apply IH.
Qed.

(** [vstack] on the heap refines [vstack] on values: it raises when the
    latter raises, and otherwise returns a new object that stands for the
    design matrix the latter returns. *)
Lemma vstack_st_refines h dms (vs : list (DesignMatrix A)) :
  Forall2 (λ l dm, deref h l = Some dm) dms vs →
  match vstack zero vs with
  | inl e => (vstack_st zero dms h).1 = inl e
  | inr out =>
      ∃ l, (vstack_st zero dms h).1 = inr l
        ∧ h !! l = None
        ∧ deref (vstack_st zero dms h).2 l = Some out
  end.
Proof.
  intros Hrep. destruct Hrep as [|l0 dm0 dms vs Hl0 Hrep]; [done|].
  assert (Forall2 (λ l dm, deref h l = Some dm) (l0 :: dms) (dm0 :: vs)) as Hall
    by by constructor.
  rewrite vstack_unfold_cons. unfold vstack_st.
  erewrite run_bind; cycle 1.
  { eapply (run_comprehension _ (λ dm, (shape dm).1)); [|exact Hall].
    intros l dm Hl. by rewrite (run_bind _ _ _ _ _ (run_dm_shape _ _ _ Hl)). }
  erewrite run_bind; cycle 1.
  { eapply (run_comprehension _ (λ dm, (shape dm).2)); [|exact Hall].
    intros l dm Hl. by rewrite (run_bind _ _ _ _ _ (run_dm_shape _ _ _ Hl)). }
  rewrite !np_sum_cons.
  fold (total_rows (dm0 :: vs)) (total_cols (dm0 :: vs)).
  cbn [np_zeros mret result_ret].
  erewrite run_bind; [|reflexivity].
  erewrite run_bind; [|reflexivity].
  set (lX := fresh (dom h)).
  assert (h !! lX = None) as HlX by apply not_elem_of_dom, is_fresh.
  pose proof (run_vstack_loop_st h lX _ _ HlX Hall
    (zeros zero (total_rows (dm0 :: vs)) (total_cols (dm0 :: vs))) 0 0) as Hloop.
  destruct (vstack_loop (dm0 :: vs) _) as [e|[[X1 i1] j1]].
  { unfold mbind at 1, Py_bind at 1.
    destruct (vstack_loop_st _ _ _ _ _) as [r hr]. simpl in Hloop. by subst r. }
  rewrite (run_bind _ _ _ _ _ Hloop).
  set (h1 := <[lX := CArr2 X1]> h).
  assert (h ⊆ h1) as Hsub1 by by apply insert_subseteq.
  erewrite run_bind; cycle 1.
  { eapply (run_comprehension _ prior_mu); [apply run_dm_prior_mu|].
    eapply Forall2_impl; [exact Hall|]. intros ?? Hd. simpl in Hd.
    by eapply deref_weaken. }
  cbn [map np_hstack]. erewrite run_bind; [|reflexivity].
  erewrite run_bind; [|reflexivity].
  set (lmu := fresh (dom h1)).
  assert (h1 !! lmu = None) as Hlmu by apply not_elem_of_dom, is_fresh.
  set (h2 := <[lmu := _]> h1).
  assert (h1 ⊆ h2) as Hsub2 by by apply insert_subseteq.
  erewrite run_bind; cycle 1.
  { eapply (run_comprehension _ prior_sigma); [apply run_dm_prior_sigma|].
    eapply Forall2_impl; [exact Hall|]. intros ?? Hd. simpl in Hd.
    eapply deref_weaken; [|exact Hd]. etrans; [exact Hsub1|exact Hsub2]. }
  cbn [map np_hstack]. erewrite run_bind; [|reflexivity].
  erewrite run_bind; [|reflexivity].
  set (lsg := fresh (dom h2)).
  assert (h2 !! lsg = None) as Hlsg by apply not_elem_of_dom, is_fresh.
  set (h3 := <[lsg := _]> h2).
  assert (h2 ⊆ h3) as Hsub3 by by apply insert_subseteq.
  cbn [first]. erewrite run_bind; [|reflexivity].
  erewrite run_bind; cycle 1.
  { apply run_dm_name. eapply deref_weaken; [|exact Hl0].
    etrans; [exact Hsub1|]. etrans; [exact Hsub2|exact Hsub3]. }
  unfold alloc. cbn [fst snd].
  set (lD := fresh (dom h3)).
  assert (h3 !! lD = None) as HlD by apply not_elem_of_dom, is_fresh.
  exists lD. split; [done|]. split.
  - destruct (h !! lD) eqn:E; [|done].
    assert (h ⊆ h3) as Hsub
      by (etrans; [exact Hsub1|]; etrans; [exact Hsub2|exact Hsub3]).
    by rewrite (lookup_weaken _ _ _ _ E Hsub) in HlD.
  - assert (h3 !! lX = Some (CArr2 X1)) as HX.
    { eapply lookup_weaken; [apply lookup_insert_eq|].
      etrans; [exact Hsub2|exact Hsub3]. }
    assert (h3 !! lmu = Some (CArr1 (concat (map prior_mu (dm0 :: vs))))) as Hmu.
    { eapply lookup_weaken; [apply lookup_insert_eq|exact Hsub3]. }
    assert (h3 !! lsg = Some (CArr1 (concat (map prior_sigma (dm0 :: vs))))) as Hsg
      by apply lookup_insert_eq.
    unfold deref. rewrite lookup_insert_eq.
    rewrite !lookup_insert_ne by congruence.
    by rewrite HX, Hmu, Hsg.
Qed.
End HeapFacts.

(** * The claim that [vstack] leaves its inputs as they are *)

Section FrameClaim.
Context {A : Type} (zero : A).

(** C4: [vstack] is a stateless transformation: whatever the list of
    references it is called with, after the call (even one that raises)
    every object that existed before the call is unchanged; so a design
    matrix of the input has the [X] array, [prior_mu], [prior_sigma] and
    [name] it had before the call. *)
Theorem vstack_st_inputs_unchanged (dms : list loc) (h : gmap loc (cell A))
    (l : loc) (dm : DesignMatrix A) :
  deref h l = Some dm →
  deref (vstack_st zero dms h).2 l = Some dm ∧ h ⊆ (vstack_st zero dms h).2.
Proof.
  intros Hd. destruct (keeps_vstack_st zero h dms h) as [Hsub _]; [done|].
  split; [|done]. by eapply deref_weaken.
Qed.
End FrameClaim.

Lemma vstack_st_inputs_unchanged_witness :
  deref SampleHeap.h0 1%positive = Some Sample.dmA
  ∧ deref (vstack_st 0 [1%positive; 5%positive] SampleHeap.h0).2 1%positive
      = Some Sample.dmA
  ∧ SampleHeap.h0 ⊆ (vstack_st 0 [1%positive; 5%positive] SampleHeap.h0).2.
Proof.
  split; [reflexivity|].
  apply (vstack_st_inputs_unchanged 0 [1%positive; 5%positive] SampleHeap.h0).
  reflexivity.
Defined.

(** * Background restoration *)

Section UncorrFacts.
Variables prec emax : Z.

Lemma get3_zip_with (g : float → float → float) (c d : cube) t i j x y :
  get3 c t i j = Some x → get3 d t i j = Some y →
  get3 (zip_with (zip_with (zip_with g)) c d) t i j = Some (g x y).
Proof.
  unfold get3. intros Hc Hd. rewrite lookup_zip_with.
  destruct (c !! t) as [ci|]; [|done]. destruct (d !! t) as [di|]; [|done].
  simpl in *. rewrite lookup_zip_with.
  destruct (ci !! i) as [cr|]; [|done]. destruct (di !! i) as [dr|]; [|done].
  simpl in *. rewrite lookup_zip_with. by rewrite Hc, Hd.
Qed.

Lemma get3_map (g : float → float) (c : cube) t i j :
  get3 (map (map (map g)) c) t i j = g <$> get3 c t i j.
Proof.
  unfold get3. rewrite list_lookup_fmap.
  destruct (c !! t) as [ci|]; [|done]. simpl. rewrite list_lookup_fmap.
  destruct (ci !! i) as [cr|]; [|done]. simpl. by rewrite list_lookup_fmap.
Qed.

Lemma nan_to_num_finite x : isfinite x = true → nan_to_num prec emax x = x.
Proof. by destruct x. Qed.

(** Adding [0.0] gives the same float back, except that [-0.0] becomes
    [0.0]. *)
Lemma SFadd_fzero x :
  SFadd prec emax x fzero
    = match x with S754_zero true => S754_zero false | _ => x end.
Proof. by destruct x as [[]|[]| |]. Qed.

Lemma uncorr_get3 tpf t i j f b :
  get3 (flux tpf) t i j = Some f → get3 (flux_bkg tpf) t i j = Some b →
  get3 (flux (uncorr prec emax tpf)) t i j
    = Some (SFadd prec emax f (nan_to_num prec emax b)).
Proof.
  intros Hf Hb. unfold uncorr, tpf_add. cbn [flux].
  apply get3_zip_with; [done|]. by rewrite get3_map, Hb.
Qed.

Lemma tpfs_uncorr_lookup tpfs k tpf :
  tpfs !! k = Some tpf →
  tpfs_uncorr prec emax tpfs !! k = Some (uncorr prec emax tpf).
Proof. intros Hk. unfold tpfs_uncorr. by rewrite list_lookup_fmap, Hk. Qed.

(** C5, as amended: for every downloaded target pixel file, each flux
    value of the reconstructed pixel data is the corrected flux value
    plus [nan_to_num] of the background value of the same cadence and
    pixel, by elementwise addition; that is the corrected flux plus the
    background value wherever the background value is finite. *)
Theorem uncorr_flux_adds_background tpfs k tpf t i j f b :
  tpfs !! k = Some tpf →
  get3 (flux tpf) t i j = Some f → get3 (flux_bkg tpf) t i j = Some b →
  ∃ tpf', tpfs_uncorr prec emax tpfs !! k = Some tpf'
    ∧ get3 (flux tpf') t i j
        = Some (SFadd prec emax f (nan_to_num prec emax b))
    ∧ (isfinite b = true →
         get3 (flux tpf') t i j = Some (SFadd prec emax f b)).
Proof.
  intros Hk Hf Hb. eexists. split; [by apply tpfs_uncorr_lookup|].
  split; [by apply uncorr_get3|].
  intros Hfin. rewrite (uncorr_get3 _ _ _ _ _ _ Hf Hb).
  by rewrite nan_to_num_finite.
Qed.

(** C6: where the background value is NaN it counts as zero, and the
    reconstructed flux is the corrected flux unchanged: the same float,
    but for a corrected flux of [-0.0], which becomes the equal [0.0]. *)
Theorem uncorr_flux_nan_background tpfs k tpf t i j f :
  tpfs !! k = Some tpf →
  get3 (flux tpf) t i j = Some f → get3 (flux_bkg tpf) t i j = Some S754_nan →
  ∃ tpf' v, tpfs_uncorr prec emax tpfs !! k = Some tpf'
    ∧ get3 (flux tpf') t i j = Some v
    ∧ v = SFadd prec emax f fzero
    ∧ same_value v f
    ∧ (f ≠ S754_zero true → v = f).
Proof.
  intros Hk Hf Hb. eexists _, _. split; [by apply tpfs_uncorr_lookup|].
  split; [by apply uncorr_get3|].
  cbn [nan_to_num]. split; [done|]. rewrite SFadd_fzero.
  destruct f as [[]|[]| |]; split; try (by left); try done.
  by right.
Qed.
End UncorrFacts.

Import SampleFloat.

Lemma uncorr_flux_adds_background_witness :
  [tpf1] !! 0 = Some tpf1
  ∧ get3 (flux tpf1) 0 0 1 = Some one32
  ∧ get3 (flux_bkg tpf1) 0 0 1 = Some f2_5
  ∧ ∃ tpf', tpfs_uncorr 24 128 [tpf1] !! 0 = Some tpf'
      ∧ get3 (flux tpf') 0 0 1
          = Some (SFadd 24 128 one32 (nan_to_num 24 128 f2_5))
      ∧ (isfinite f2_5 = true →
           get3 (flux tpf') 0 0 1 = Some (SFadd 24 128 one32 f2_5)).
Proof.
  split; [reflexivity|]. split; [reflexivity|]. split; [reflexivity|].
  apply (uncorr_flux_adds_background 24 128 [tpf1] 0 tpf1 0 0 1 one32 f2_5);
    reflexivity.
Defined.

(** C5, as first stated, makes every reconstructed flux value the sum of
    the corrected flux and the background value; with a corrected flux of
    [1.0] and a NaN background the code gives [1.0], the sum is NaN. *)
Lemma uncorr_flux_not_plain_sum :
  get3 (flux tpf1) 0 0 0 = Some one32
  ∧ get3 (flux_bkg tpf1) 0 0 0 = Some S754_nan
  ∧ SFadd 24 128 one32 S754_nan = S754_nan
  ∧ ∃ tpf', tpfs_uncorr 24 128 [tpf1] !! 0 = Some tpf'
      ∧ get3 (flux tpf') 0 0 0 = Some one32
      ∧ get3 (flux tpf') 0 0 0 ≠ Some (SFadd 24 128 one32 S754_nan).
Proof.
  split_and!; [reflexivity..|]. eexists. split; [reflexivity|].
  split; [reflexivity|discriminate].
Qed.

Lemma uncorr_flux_nan_background_witness :
  [tpf1] !! 0 = Some tpf1
  ∧ get3 (flux tpf1) 0 0 0 = Some one32
  ∧ get3 (flux_bkg tpf1) 0 0 0 = Some S754_nan
  ∧ ∃ tpf' v, tpfs_uncorr 24 128 [tpf1] !! 0 = Some tpf'
      ∧ get3 (flux tpf') 0 0 0 = Some v
      ∧ v = SFadd 24 128 one32 fzero
      ∧ same_value v one32
      ∧ (one32 ≠ S754_zero true → v = one32).
Proof.
  split; [reflexivity|]. split; [reflexivity|]. split; [reflexivity|].
  apply (uncorr_flux_nan_background 24 128 [tpf1] 0 tpf1 0 0 0 one32);
    reflexivity.
Defined.

(** * Growing the aperture *)

Section ApertureFacts.
Implicit Types (mask : ndarray bool) (m : nat → bool).

Lemma get2_array_map {A B} (f : A → B) (a : ndarray A) i j :
  get2 (array_map f a) i j = f <$> get2 a i j.
Proof.
  unfold get2, array_map. cbn [rows]. rewrite list_lookup_fmap.
  destruct (rows a !! i) as [r|]; [|done]. simpl. by rewrite list_lookup_fmap.
Qed.

Lemma get2_array_zip {A B C} (f : A → B → C) (a : ndarray A) (b : ndarray B)
    i j x y :
  get2 a i j = Some x → get2 b i j = Some y →
  get2 (array_zip f a b) i j = Some (f x y).
Proof.
  unfold get2, array_zip. cbn [rows]. intros Ha Hb. rewrite lookup_zip_with.
  destruct (rows a !! i) as [ra|]; [|done].
  destruct (rows b !! i) as [rb|]; [|done].
  simpl in *. rewrite lookup_zip_with. by rewrite Ha, Hb.
Qed.

Lemma get2_array_zip_Some {A B C} (f : A → B → C) (a : ndarray A)
    (b : ndarray B) i j z :
  get2 (array_zip f a b) i j = Some z →
  ∃ x y, get2 a i j = Some x ∧ get2 b i j = Some y ∧ z = f x y.
Proof.
  unfold get2, array_zip. cbn [rows]. rewrite lookup_zip_with.
  destruct (rows a !! i) as [ra|]; [|done].
  destruct (rows b !! i) as [rb|]; [|done].
  simpl. rewrite lookup_zip_with.
  destruct (ra !! j) as [x|]; [|done]. destruct (rb !! j) as [y|]; [|done].
  simpl. intros [= <-]. by exists x, y.
Qed.

Lemma wf_array_map {A B} (f : A → B) (a : ndarray A) :
  wf_ndarray a → wf_ndarray (array_map f a).
Proof.
  intros [Hlen Hrows]. split; cbn; [by rewrite length_map|].
  apply Forall_fmap. eapply Forall_impl; [exact Hrows|].
  intros r Hr. simpl. by rewrite length_map.
Qed.

Lemma wf_array_zip {A B C} (f : A → B → C) (a : ndarray A) (b : ndarray B) :
  wf_ndarray a → wf_ndarray b →
  shape0 b = shape0 a → shape1 b = shape1 a →
  wf_ndarray (array_zip f a b).
Proof.
  intros [Hla Hra] [Hlb Hrb] H0 H1. split; cbn.
  - rewrite length_zip_with. lia.
  - rewrite Forall_lookup. intros i r. rewrite lookup_zip_with.
    destruct (rows a !! i) as [ra|] eqn:Ea; [|done].
    destruct (rows b !! i) as [rb|] eqn:Eb; [|done].
    simpl. intros [= <-]. rewrite length_zip_with.
    rewrite Forall_lookup in Hra. rewrite Forall_lookup in Hrb.
    rewrite (Hra _ _ Ea), (Hrb _ _ Eb). lia.
Qed.

(** An array computed entry by entry from the indices. *)
Lemma get2_imap2 {A B} (F : nat → nat → B) (a : ndarray A) r c i j :
  get2 (Ndarray r c (imap (λ i row, imap (λ j _, F i j) row) (rows a))) i j
    = (λ _, F i j) <$> get2 a i j.
Proof.
  unfold get2. cbn [rows]. rewrite list_lookup_imap.
  destruct (rows a !! i) as [ra|]; [|done]. simpl.
  by rewrite list_lookup_imap.
Qed.

Lemma wf_imap2 {A B} (F : nat → nat → B) (a : ndarray A) :
  wf_ndarray a →
  wf_ndarray (Ndarray (shape0 a) (shape1 a)
                (imap (λ i row, imap (λ j _, F i j) row) (rows a))).
Proof.
  intros [Hlen Hrows]. split; cbn; [by rewrite length_imap|].
  rewrite Forall_lookup. intros i r. rewrite list_lookup_imap.
  destruct (rows a !! i) as [ra|] eqn:Ea; [|done]. simpl. intros [= <-].
  rewrite length_imap. rewrite Forall_lookup in Hrows. by apply (Hrows i).
Qed.

(** On a 0/1 array the gradient is nonzero where the two entries it
    reads differ. *)
Lemma gradient_at_nonzero m n i :
  nonzero (gradient_at (λ k, f64 (astype_int (m k))) n i)
    = xorb (m (upper n i)) (m (lower n i)).
Proof.
  unfold gradient_at, upper, lower.
  destruct (i =? 0); [|destruct (i =? n - 1)];
    match goal with |- context [xorb (m ?a) (m ?b)] =>
      destruct (m a), (m b) end; by vm_compute.
Qed.

Lemma gradient_at_ext (f g : nat → float) n i :
  2 ≤ n → i < n → (∀ k, k < n → f k = g k) →
  gradient_at f n i = gradient_at g n i.
Proof.
  intros Hn Hi Hfg. unfold gradient_at.
  destruct (Nat.eqb_spec i 0); [by rewrite !Hfg by lia|].
  destruct (Nat.eqb_spec i (n - 1)); by rewrite !Hfg by lia.
Qed.

Lemma upper_lower_lt n i : 2 ≤ n → i < n → upper n i < n ∧ lower n i < n.
Proof.
  intros Hn Hi. unfold upper, lower.
  destruct (Nat.eqb_spec i 0); [lia|]. destruct (Nat.eqb_spec i (n - 1)); lia.
Qed.

(** A nonzero gradient at an entry that is not set finds a set entry one
    step away. *)
Lemma xorb_neighbour m n i :
  2 ≤ n → i < n → m i = false →
  xorb (m (upper n i)) (m (lower n i)) = true →
  ∃ i', i' < n ∧ (i' = i + 1 ∨ i = i' + 1) ∧ m i' = true.
Proof.
  intros Hn Hi Hmi. unfold upper, lower.
  destruct (Nat.eqb_spec i 0) as [->|Hi0].
  - rewrite Hmi, xorb_false_r. intros H1. exists 1. split_and!; [lia|by left|done].
  - destruct (Nat.eqb_spec i (n - 1)) as [->|Hin].
    + rewrite Hmi, xorb_false_l. intros H1. exists (n - 2).
      split_and!; [lia|right; lia|done].
    + destruct (m (i + 1)) eqn:Hu.
      * intros _. exists (i + 1). split_and!; [lia|by left|done].
      * rewrite xorb_false_l. intros Hl. exists (i - 1).
        split_and!; [lia|right; lia|done].
Qed.

(** What [bigger_aper] returns on a mask with at least two rows and two
    columns, entry by entry. *)
Lemma bigger_aper_spec mask :
  wf_ndarray mask → 2 ≤ shape0 mask → 2 ≤ shape1 mask →
  let m i j := default false (get2 mask i j) in
  ∃ b, bigger_aper mask = inr b
    ∧ wf_ndarray b ∧ shape0 b = shape0 mask ∧ shape1 b = shape1 mask
    ∧ ∀ i j, i < shape0 mask → j < shape1 mask →
        get2 b i j =
          Some ((xorb (m (upper (shape0 mask) i) j) (m (lower (shape0 mask) i) j)
                 || xorb (m i (upper (shape1 mask) j)) (m i (lower (shape1 mask) j)))
                || m i j).
Proof.
  intros Hwf Hr Hc m. unfold bigger_aper, np_gradient.
  set (f := array_map (λ b, f64 (astype_int b)) mask).
  assert (shape0 f = shape0 mask) as Hf0 by done.
  assert (shape1 f = shape1 mask) as Hf1 by done.
  rewrite Hf0, Hf1.
  destruct (Nat.ltb_spec (shape0 mask) 2); [lia|].
  destruct (Nat.ltb_spec (shape1 mask) 2); [lia|].
  cbn [mbind result_bind mret result_ret].
  assert (wf_ndarray f) as Hwff by by apply wf_array_map.
  eexists. split; [reflexivity|]. split_and!; [|done|done|].
  - apply wf_array_zip; [apply wf_array_zip| | |]; try done;
      apply wf_array_map; rewrite <- ?Hf0, <- ?Hf1; by apply wf_imap2.
  - intros i j Hi Hj.
    assert (∀ i j, i < shape0 mask → j < shape1 mask →
              get2 mask i j = Some (m i j)) as Hm.
    { intros i' j' Hi' Hj'. unfold m.
      by destruct (get2_is_Some mask i' j') as [x ->]. }
    assert (∀ i j, i < shape0 mask → j < shape1 mask →
              get2 f i j = Some (f64 (astype_int (m i j)))) as Hf.
    { intros i' j' Hi' Hj'. unfold f. by rewrite get2_array_map, Hm. }
    assert (∀ i j, i < shape0 mask → j < shape1 mask →
              default S754_nan (get2 f i j) = f64 (astype_int (m i j))) as Hat.
    { intros i' j' Hi' Hj'. by rewrite Hf. }
    apply get2_array_zip; [|by apply Hm].
    apply get2_array_zip; rewrite get2_array_map, get2_imap2, (Hf i j) by done;
      cbn [fmap option_fmap option_map]; f_equal.
    + rewrite <- (gradient_at_nonzero (λ k, m k j)). f_equal.
      apply gradient_at_ext; [done|done|]. intros k Hk. by apply Hat.
    + rewrite <- (gradient_at_nonzero (λ k, m i k)). f_equal.
      apply gradient_at_ext; [done|done|]. intros k Hk. by apply Hat.
Qed.

(** [np.gradient] raises on a mask with a single row or column, and so
    does [bigger_aper]. *)
Lemma bigger_aper_raises mask :
  shape0 mask < 2 ∨ shape1 mask < 2 → bigger_aper mask = raise ValueError.
Proof.
  intros Hs. unfold bigger_aper, np_gradient.
  change (shape0 (array_map _ mask)) with (shape0 mask).
  change (shape1 (array_map _ mask)) with (shape1 mask).
  destruct (Nat.ltb_spec (shape0 mask) 2); [done|].
  destruct (Nat.ltb_spec (shape1 mask) 2); [done|lia].
Qed.
End ApertureFacts.

(** Each aperture of [bigger_apers] comes from the pipeline mask of the
    target pixel file at the same position. *)
Lemma bigger_apers_each tpfs : ∀ apers,
  bigger_apers tpfs = inr apers →
  Forall2 (λ tpf b, bigger_aper (pipeline_mask tpf) = inr b) tpfs apers.
Proof.
  unfold bigger_apers.
  induction tpfs as [|tpf tpfs IH]; intros apers; cbn [mapM].
  - intros [= <-]. constructor.
  - destruct (bigger_aper (pipeline_mask tpf)) as [e|b] eqn:Hb; [done|].
    cbn [mbind result_bind].
    destruct (mapM _ tpfs) as [e|bs]; [done|].
    cbn [mbind result_bind mret result_ret]. intros [= <-].
    constructor; [done|]. by apply IH.
Qed.

(** The comprehension returns when each mask has two rows and two
    columns. *)
Lemma bigger_apers_returns tpfs :
  Forall (λ tpf, ∃ b, bigger_aper (pipeline_mask tpf) = inr b) tpfs →
  ∃ apers, bigger_apers tpfs = inr apers.
Proof.
  unfold bigger_apers. induction 1 as [|tpf tpfs [b Hb] _ [apers IH]];
    cbn [mapM]; [by eexists|].
  rewrite Hb. cbn [mbind result_bind]. rewrite IH.
  cbn [mbind result_bind mret result_ret]. by eexists.
Qed.

(** One aperture: it exists when the mask has two rows and two columns,
    contains the mask, and adds only neighbours of mask pixels. *)
Lemma bigger_aper_grows (tpf : TargetPixelFile) :
  wf_ndarray (pipeline_mask tpf) →
  (2 ≤ shape0 (pipeline_mask tpf) → 2 ≤ shape1 (pipeline_mask tpf) →
     ∃ b, bigger_aper (pipeline_mask tpf) = inr b)
  ∧ ∀ b, bigger_aper (pipeline_mask tpf) = inr b →
      (∀ i j, get2 (pipeline_mask tpf) i j = Some true → get2 b i j = Some true)
      ∧ (∀ i j, get2 b i j = Some true →
           get2 (pipeline_mask tpf) i j ≠ Some true →
           ∃ i' j', adjacent i j i' j'
             ∧ get2 (pipeline_mask tpf) i' j' = Some true).
Proof.
  set (mask := pipeline_mask tpf). intros Hwf. split.
  { intros Hr Hc.
    destruct (bigger_aper_spec mask Hwf Hr Hc) as (b & Hb & _). eauto. }
  intros b Hb.
  assert (2 ≤ shape0 mask ∧ 2 ≤ shape1 mask) as [Hr Hc].
  { destruct (decide (shape0 mask < 2 ∨ shape1 mask < 2)) as [Hs|Hs]; [|lia].
    by rewrite (bigger_aper_raises mask Hs) in Hb. }
  destruct (bigger_aper_spec mask Hwf Hr Hc)
    as (b' & Hb' & Hwfb & Hs0 & Hs1 & Hget0).
  assert (b' = b) as -> by congruence. clear Hb'.
  set (m := λ i j, default false (get2 mask i j)).
  assert (∀ i j, i < shape0 mask → j < shape1 mask →
            get2 b i j =
              Some ((xorb (m (upper (shape0 mask) i) j) (m (lower (shape0 mask) i) j)
                     || xorb (m i (upper (shape1 mask) j)) (m i (lower (shape1 mask) j)))
                    || m i j)) as Hget by exact Hget0.
  clear Hget0.
  assert (∀ i j, i < shape0 mask → j < shape1 mask →
            get2 mask i j = Some (m i j)) as Hm.
  { intros i j Hi Hj. unfold m.
    by destruct (get2_is_Some mask i j) as [x ->]. }
  split.
  - intros i j Hij. destruct (get2_Some_lt _ _ _ _ Hwf Hij) as [Hi Hj].
    rewrite Hget by done. rewrite (Hm i j Hi Hj) in Hij.
    injection Hij as ->. by rewrite orb_true_r.
  - intros i j Hbij Hnot.
    destruct (get2_Some_lt _ _ _ _ Hwfb Hbij) as [Hi Hj].
    rewrite Hs0 in Hi. rewrite Hs1 in Hj.
    assert (m i j = false) as Hmij.
    { specialize (Hm i j Hi Hj). destruct (m i j); [by rewrite Hm in Hnot|done]. }
    rewrite Hget in Hbij by done. injection Hbij as Hbij.
    rewrite Hmij, orb_false_r in Hbij.
    apply orb_true_iff in Hbij as [Hx|Hx].
    + destruct (xorb_neighbour (λ k, m k j) (shape0 mask) i)
        as (i' & Hi' & Hadj & Hset); [done..|].
      exists i', j. split; [by left|]. rewrite Hm by done. by f_equal.
    + destruct (xorb_neighbour (λ k, m i k) (shape1 mask) j)
        as (j' & Hj' & Hadj & Hset); [done..|].
      exists i, j'. split; [by right|]. rewrite Hm by done. by f_equal.
Qed.

(** One aperture, pixel by pixel: it has the shape of the mask, and a
    pixel is in it exactly when it is in the mask or the two mask entries
    that the gradient reads along its column, or along its row, differ. *)
Lemma bigger_aper_pixels (tpf : TargetPixelFile) b :
  wf_ndarray (pipeline_mask tpf) →
  bigger_aper (pipeline_mask tpf) = inr b →
  2 ≤ shape0 (pipeline_mask tpf) ∧ 2 ≤ shape1 (pipeline_mask tpf)
  ∧ shape0 b = shape0 (pipeline_mask tpf)
  ∧ shape1 b = shape1 (pipeline_mask tpf)
  ∧ ∀ i j, i < shape0 (pipeline_mask tpf) → j < shape1 (pipeline_mask tpf) →
      get2 b i j = Some true ↔
        get2 (pipeline_mask tpf) i j = Some true
        ∨ get2 (pipeline_mask tpf) (upper (shape0 (pipeline_mask tpf)) i) j
            ≠ get2 (pipeline_mask tpf) (lower (shape0 (pipeline_mask tpf)) i) j
        ∨ get2 (pipeline_mask tpf) i (upper (shape1 (pipeline_mask tpf)) j)
            ≠ get2 (pipeline_mask tpf) i (lower (shape1 (pipeline_mask tpf)) j).
Proof.
  set (mask := pipeline_mask tpf). intros Hwf Hb.
  assert (2 ≤ shape0 mask ∧ 2 ≤ shape1 mask) as [Hr Hc].
  { destruct (decide (shape0 mask < 2 ∨ shape1 mask < 2)) as [Hs|Hs]; [|lia].
    by rewrite (bigger_aper_raises mask Hs) in Hb. }
  destruct (bigger_aper_spec mask Hwf Hr Hc)
    as (b' & Hb' & Hwfb & Hs0 & Hs1 & Hget0).
  assert (b' = b) as -> by congruence. clear Hb'.
  set (m := λ i j, default false (get2 mask i j)).
  assert (∀ i j, i < shape0 mask → j < shape1 mask →
            get2 b i j =
              Some ((xorb (m (upper (shape0 mask) i) j) (m (lower (shape0 mask) i) j)
                     || xorb (m i (upper (shape1 mask) j)) (m i (lower (shape1 mask) j)))
                    || m i j)) as Hget by exact Hget0.
  clear Hget0.
  assert (∀ i j, i < shape0 mask → j < shape1 mask →
            get2 mask i j = Some (m i j)) as Hm.
  { intros i j Hi Hj. unfold m.
    by destruct (get2_is_Some mask i j) as [x ->]. }
  split_and!; [done..|].
  intros i j Hi Hj.
  destruct (upper_lower_lt _ i Hr Hi) as [Hu Hl].
  destruct (upper_lower_lt _ j Hc Hj) as [Hu' Hl'].
  rewrite Hget by done. rewrite !Hm by done.
  destruct (m i j), (m (upper (shape0 mask) i) j), (m (lower (shape0 mask) i) j),
    (m i (upper (shape1 mask) j)), (m i (lower (shape1 mask) j));
    cbn; split; try (intros _; by eauto); try done;
    intros [|[|]]; congruence.
Qed.

(** C7: for every target pixel file, the enlarged aperture is a superset
    of the pipeline mask, and every pixel it adds to the pipeline mask
    has a pixel of the pipeline mask next to it along its row or its
    column.  The aperture has the shape of the mask, and which pixels it
    holds is settled: a pixel is in it exactly when it is in the mask, or
    the two mask entries that [np.gradient] reads along its column
    differ, or the two it reads along its row differ (the entries at
    [lower] and [upper]: the two neighbours of a pixel inside the array,
    the pixel and its one neighbour at an end).  The enlarged apertures
    exist, one per file, as soon as every mask has two rows and two
    columns, which [np.gradient] needs. *)
Theorem bigger_apers_grow_by_one (tpfs : list TargetPixelFile) :
  Forall (λ tpf, wf_ndarray (pipeline_mask tpf)) tpfs →
  (Forall (λ tpf, 2 ≤ shape0 (pipeline_mask tpf)
                  ∧ 2 ≤ shape1 (pipeline_mask tpf)) tpfs →
     ∃ apers, bigger_apers tpfs = inr apers)
  ∧ ∀ apers, bigger_apers tpfs = inr apers →
      length apers = length tpfs
      ∧ ∀ k tpf, tpfs !! k = Some tpf →
        ∃ b, apers !! k = Some b
          ∧ shape0 b = shape0 (pipeline_mask tpf)
          ∧ shape1 b = shape1 (pipeline_mask tpf)
          ∧ (∀ i j, get2 (pipeline_mask tpf) i j = Some true →
               get2 b i j = Some true)
          ∧ (∀ i j, get2 b i j = Some true →
               get2 (pipeline_mask tpf) i j ≠ Some true →
               ∃ i' j', adjacent i j i' j'
                 ∧ get2 (pipeline_mask tpf) i' j' = Some true)
          ∧ (∀ i j, i < shape0 (pipeline_mask tpf) →
               j < shape1 (pipeline_mask tpf) →
               get2 b i j = Some true ↔
                 get2 (pipeline_mask tpf) i j = Some true
                 ∨ get2 (pipeline_mask tpf) (upper (shape0 (pipeline_mask tpf)) i) j
                     ≠ get2 (pipeline_mask tpf) (lower (shape0 (pipeline_mask tpf)) i) j
                 ∨ get2 (pipeline_mask tpf) i (upper (shape1 (pipeline_mask tpf)) j)
                     ≠ get2 (pipeline_mask tpf) i (lower (shape1 (pipeline_mask tpf)) j)).
Proof.
  intros Hwf. split.
  - intros Hdims. apply bigger_apers_returns.
    rewrite Forall_forall in Hwf, Hdims. apply Forall_forall. intros tpf Hin.
    destruct (Hdims tpf Hin) as [Hr Hc].
    by apply (bigger_aper_grows tpf (Hwf tpf Hin)).
  - intros apers Hapers. apply bigger_apers_each in Hapers.
    split; [symmetry; by eapply Forall2_length|].
    intros k tpf Hk.
    destruct (Forall2_lookup_l _ _ _ _ _ Hapers Hk) as (b & Hb & Hrun).
    rewrite Forall_lookup in Hwf. specialize (Hwf k tpf Hk).
    destruct (bigger_aper_pixels tpf b Hwf Hrun) as (_ & _ & Hs0 & Hs1 & Hiff).
    destruct (bigger_aper_grows tpf Hwf) as [_ Hgrow].
    destruct (Hgrow b Hrun) as [Hsup Hadj].
    exists b. by split_and!.
Qed.

Lemma bigger_apers_grow_by_one_witness :
  Forall (λ tpf, wf_ndarray (pipeline_mask tpf)) [SampleMask.tpf_mask1]
  ∧ ∃ b, bigger_apers [SampleMask.tpf_mask1] = inr [b]
      ∧ shape0 b = 4 ∧ shape1 b = 5
      ∧ (∀ i j, get2 SampleMask.mask1 i j = Some true → get2 b i j = Some true)
      ∧ (∀ i j, get2 b i j = Some true →
           get2 SampleMask.mask1 i j ≠ Some true →
           ∃ i' j', adjacent i j i' j' ∧ get2 SampleMask.mask1 i' j' = Some true)
      ∧ (get2 b 0 2 = Some true ↔
           get2 SampleMask.mask1 0 2 = Some true
           ∨ get2 SampleMask.mask1 1 2 ≠ get2 SampleMask.mask1 0 2
           ∨ get2 SampleMask.mask1 0 3 ≠ get2 SampleMask.mask1 0 1).
Proof.
  assert (Forall (λ tpf, wf_ndarray (pipeline_mask tpf)) [SampleMask.tpf_mask1])
    as Hwf by (repeat constructor).
  split; [exact Hwf|].
  destruct (bigger_apers_grow_by_one [SampleMask.tpf_mask1] Hwf) as [_ Hall].
  destruct (Hall [_] eq_refl) as [_ Hone].
  destruct (Hone 0 SampleMask.tpf_mask1 eq_refl)
    as (b & Hb & Hs0 & Hs1 & Hsup & Hadj & Hiff).
  injection Hb as <-.
  eexists. split; [reflexivity|]. split; [exact Hs0|]. split; [exact Hs1|].
  split; [exact Hsup|]. split; [exact Hadj|].
  apply (Hiff 0 2); cbn; lia.
Defined.

(** * Pruning the spline design matrix *)

Section MaskFacts.
Context {A : Type}.
Implicit Types (mask : list bool) (l : list A).

Lemma elem_of_where_true mask : ∀ s j,
  j ∈ where_true mask s ↔ s ≤ j ∧ mask !! (j - s) = Some true.
Proof.
  induction mask as [|b mask IH]; intros s j; cbn [where_true].
  - rewrite elem_of_nil. split; [done|]. intros [_ Hj]. by rewrite lookup_nil in Hj.
  - assert (S s ≤ j ∧ mask !! (j - S s) = Some true
            ↔ s < j ∧ (b :: mask) !! (j - s) = Some true) as Htl.
    { split; intros [Hle Hj]; (split; [lia|]).
      - by replace (j - s) with (S (j - S s)) by lia.
      - by replace (j - s) with (S (j - S s)) in Hj by lia. }
    destruct b.
    + rewrite elem_of_cons, IH, Htl. split.
      * intros [->|[Hlt Hj]]; [|split; [lia|done]].
        split; [lia|]. by rewrite Nat.sub_diag.
      * intros [Hle Hj]. destruct (decide (j = s)) as [->|]; [by left|].
        right. split; [lia|done].
    + rewrite IH, Htl. split; [intros [Hlt Hj]; split; [lia|done]|].
      intros [Hle Hj]. split; [|done].
      destruct (decide (j = s)) as [->|]; [|lia].
      by rewrite Nat.sub_diag in Hj.
Qed.

(** The indices come in increasing order. *)
Lemma where_true_increasing mask : ∀ s k k' j j',
  k < k' → where_true mask s !! k = Some j → where_true mask s !! k' = Some j' →
  j < j'.
Proof.
  induction mask as [|b mask IH]; intros s k k' j j' Hk; cbn [where_true];
    [done|].
  destruct b; [|by apply IH].
  destruct k' as [|k']; [lia|]. destruct k as [|k]; cbn [lookup list_lookup].
  - intros [= <-] Hj'. apply list_elem_of_lookup_2 in Hj'.
    apply elem_of_where_true in Hj'. lia.
  - apply IH. lia.
Qed.

Lemma length_compress mask : ∀ l s,
  length mask = length l → length (compress mask l) = length (where_true mask s).
Proof.
  induction mask as [|b mask IH]; intros [|x l] s Hlen; try done.
  cbn [compress where_true]. cbn [length] in Hlen.
  destruct b; cbn [length]; [f_equal|]; apply IH; lia.
Qed.

(** The [k]-th item kept is the item at the [k]-th set index. *)
Lemma lookup_compress mask : ∀ l s k j,
  length mask = length l → where_true mask s !! k = Some j →
  compress mask l !! k = l !! (j - s).
Proof.
  induction mask as [|b mask IH]; intros [|x l] s k j Hlen; try done.
  injection Hlen as Hlen. cbn [compress where_true].
  assert (∀ k, where_true mask (S s) !! k = Some j →
            compress mask l !! k = (x :: l) !! (j - s)) as Htl.
  { intros k' Hk'. rewrite (IH l (S s) k' j Hlen Hk').
    apply list_elem_of_lookup_2, elem_of_where_true in Hk'.
    by replace (j - s) with (S (j - S s)) by lia. }
  destruct b; [|by apply Htl].
  destruct k as [|k]; cbn [lookup list_lookup].
  - intros [= <-]. by rewrite Nat.sub_diag.
  - apply Htl.
Qed.
End MaskFacts.

Section SumFacts.
Variables prec emax : Z.
Implicit Types (t : sum_tree) (l col : list float).

Lemma SFeqb_fzero x : SFeqb x fzero = true ↔ ∃ s, x = S754_zero s.
Proof.
  split; [|by intros [s ->]].
  destruct x as [s|[]| |[] m e]; try done. by exists s.
Qed.

(** Zeros add up to zero, however they are added. *)
Lemma tree_value_all_zero t :
  all_zero (leaves t) → ∃ s, tree_value prec emax t = S754_zero s.
Proof.
  unfold all_zero.
  induction t as [x|t1 IH1 t2 IH2]; cbn [leaves tree_value]; intros Hz.
  - rewrite Forall_singleton in Hz. by apply SFeqb_fzero in Hz.
  - apply Forall_app in Hz as [Hz1 Hz2].
    destruct (IH1 Hz1) as [s1 ->], (IH2 Hz2) as [s2 ->].
    destruct s1, s2; by eexists.
Qed.

Lemma adds_up_all_zero col s :
  all_zero col → adds_up prec emax col s → nonzero s = false.
Proof.
  intros Hz (t & zs & <- & Hperm & Hzs).
  unfold nonzero. apply negb_false_iff, SFeqb_fzero, tree_value_all_zero.
  unfold all_zero. rewrite Hperm. by apply Forall_app.
Qed.

(** A finite sum has finite terms: a NaN or an infinity in a sum stays
    in it. *)
Lemma SFadd_finite_inv x y :
  isfinite (SFadd prec emax x y) = true → isfinite x = true ∧ isfinite y = true.
Proof. by destruct x as [[]|[]| |[]], y as [[]|[]| |[]]. Qed.

Lemma tree_value_finite_inv t :
  isfinite (tree_value prec emax t) = true →
  Forall (λ y, isfinite y = true) (leaves t).
Proof.
  induction t as [x|t1 IH1 t2 IH2]; cbn [leaves tree_value]; intros Hfin.
  - by apply Forall_singleton.
  - apply SFadd_finite_inv in Hfin as [H1 H2]. apply Forall_app. auto.
Qed.

Lemma adds_up_finite_inv l s :
  adds_up prec emax l s → isfinite s = true → Forall (λ y, isfinite y = true) l.
Proof.
  intros (t & zs & <- & Hperm & _) Hfin.
  apply tree_value_finite_inv in Hfin. rewrite Hperm in Hfin.
  by apply Forall_app in Hfin as [Hl _].
Qed.

(** Adding from left to right is one of the orders. *)
Lemma fold_add_tree l : ∀ t,
  ∃ t', tree_value prec emax t' = fold_left (SFadd prec emax) l (tree_value prec emax t)
    ∧ leaves t' = leaves t ++ l.
Proof.
  induction l as [|x l IH]; intros t; cbn [fold_left].
  - exists t. by rewrite app_nil_r.
  - destruct (IH (Plus t (Leaf x))) as (t' & Hv & Hl). exists t'.
    split; [done|]. rewrite Hl. cbn [leaves]. by rewrite <- app_assoc.
Qed.

Lemma reduce_in_order_summation : summation prec emax (reduce_in_order prec emax).
Proof.
  intros l. destruct (fold_add_tree l (Leaf fzero)) as (t & Hv & Hl).
  exists t, [fzero]. split; [done|]. split.
  - rewrite Hl. cbn [leaves]. by rewrite (Permutation_app_comm l).
  - by apply Forall_singleton.
Qed.

(** The pairwise order is one of the orders, too. *)
Lemma leaves_plus_in_order l : ∀ t, leaves (plus_in_order t l) = leaves t ++ l.
Proof.
  unfold plus_in_order.
  induction l as [|x l IH]; intros t; cbn [fold_left]; [by rewrite app_nil_r|].
  rewrite IH. cbn [leaves]. by rewrite <- app_assoc.
Qed.

Lemma leaves_zip_plus (accs : list sum_tree) : ∀ (xs : list float),
  length xs = length accs →
  zip_with (λ r x, Plus r (Leaf x)) accs xs ≫= leaves ≡ₚ (accs ≫= leaves) ++ xs.
Proof.
  induction accs as [|r accs IH]; intros [|x xs] Hlen; try done.
  cbn [zip_with]. rewrite !bind_cons. cbn [leaves].
  rewrite IH by (cbn in Hlen; lia).
  rewrite <- !app_assoc. f_equiv. cbn. apply Permutation_middle.
Qed.

Lemma leaves_plus_blocks l : ∀ accs accs' rest,
  length accs = 8 → plus_blocks accs l = (accs', rest) →
  length accs' = 8 ∧ (accs' ≫= leaves) ++ rest ≡ₚ (accs ≫= leaves) ++ l.
Proof.
  remember (length l) as n eqn:Hn. revert l Hn.
  induction n as [n IH] using lt_wf_ind. intros l -> accs accs' rest Hlen.
  destruct l as [|x0 [|x1 [|x2 [|x3 [|x4 [|x5 [|x6 [|x7 l']]]]]]]];
    cbn [plus_blocks]; try (by intros [= <- <-]).
  intros Hrun.
  apply (IH (length l') ltac:(cbn; lia) l' eq_refl) in Hrun as [Hlen' Hperm].
  - split; [done|]. rewrite Hperm. rewrite leaves_zip_plus by (by rewrite Hlen).
    by rewrite <- app_assoc.
  - rewrite length_zip_with, Hlen. cbn. lia.
Qed.

Lemma leaves_plus_pairs accs :
  leaves (plus_pairs accs)
    ≡ₚ (accs ≫= leaves) ++ (if decide (length accs = 8) then [] else [fzero]).
Proof.
  destruct accs as [|r0 [|r1 [|r2 [|r3 [|r4 [|r5 [|r6 [|r7 [|r8 accs]]]]]]]]];
    cbn [plus_pairs]; rewrite ?leaves_plus_in_order; cbn [leaves length];
    try (rewrite decide_False by lia; by rewrite (Permutation_app_comm [fzero])).
  rewrite decide_True by done. rewrite app_nil_r.
  rewrite !bind_cons. cbn [mbind list_bind]. by rewrite <- !app_assoc, app_nil_r.
Qed.

Lemma leaves_pairwise_tree fuel : ∀ l,
  ∃ zs, leaves (pairwise_tree fuel l) ≡ₚ l ++ zs ∧ all_zero zs.
Proof.
  assert (∀ l, ∃ zs, leaves (plus_in_order (Leaf fzero) l) ≡ₚ l ++ zs ∧ all_zero zs)
    as Hord.
  { intros l. exists [fzero]. rewrite leaves_plus_in_order. cbn [leaves].
    split; [by rewrite (Permutation_app_comm l)|by apply Forall_singleton]. }
  assert (∀ x0 x1 x2 x3 x4 x5 x6 x7 l',
            ∃ zs,
              leaves (let '(accs, rest) :=
                        plus_blocks [Leaf x0; Leaf x1; Leaf x2; Leaf x3;
                                     Leaf x4; Leaf x5; Leaf x6; Leaf x7] l' in
                      plus_in_order (plus_pairs accs) rest)
                ≡ₚ (x0 :: x1 :: x2 :: x3 :: x4 :: x5 :: x6 :: x7 :: l') ++ zs
              ∧ all_zero zs) as Hblocks.
  { intros x0 x1 x2 x3 x4 x5 x6 x7 l'.
    destruct (plus_blocks _ l') as [accs rest] eqn:Hb.
    apply leaves_plus_blocks in Hb as [Hlen Hperm]; [|done].
    exists []. split; [|constructor].
    rewrite leaves_plus_in_order, leaves_plus_pairs, decide_True by done.
    rewrite !app_nil_r, Hperm. done. }
  induction fuel as [|fuel IH]; intros l.
  - destruct l as [|x0 [|x1 [|x2 [|x3 [|x4 [|x5 [|x6 [|x7 l']]]]]]]];
      try apply Hord.
    cbn [pairwise_tree]. destruct (_ <=? 128); [apply Hblocks|apply Hord].
  - destruct l as [|x0 [|x1 [|x2 [|x3 [|x4 [|x5 [|x6 [|x7 l']]]]]]]];
      try apply Hord.
    cbn [pairwise_tree].
    set (l := x0 :: x1 :: x2 :: x3 :: x4 :: x5 :: x6 :: x7 :: l').
    destruct (length l <=? 128); [apply Hblocks|].
    set (n2 := length l / 2 - (length l / 2) mod 8).
    destruct (IH (take n2 l)) as (zs1 & H1 & Hz1).
    destruct (IH (drop n2 l)) as (zs2 & H2 & Hz2).
    exists (zs1 ++ zs2). split; [|by apply Forall_app].
    cbn [leaves]. rewrite H1, H2.
    rewrite <- (take_drop n2 l) at 3.
    rewrite <- !app_assoc. f_equiv. rewrite !app_assoc. f_equiv.
    apply Permutation_app_comm.
Qed.

(** The length of the run is enough fuel: more fuel changes nothing. *)
Lemma pairwise_tree_fuel fuel : ∀ fuel' l,
  length l ≤ fuel → length l ≤ fuel' →
  pairwise_tree fuel l = pairwise_tree fuel' l.
Proof.
  induction fuel as [|fuel IH]; intros fuel' l Hf Hf'.
  { by destruct l; [destruct fuel'|cbn in Hf; lia]. }
  destruct fuel' as [|fuel']; [by destruct l; [|cbn in Hf'; lia]|].
  destruct l as [|x0 [|x1 [|x2 [|x3 [|x4 [|x5 [|x6 [|x7 l']]]]]]]]; try done.
  cbn [pairwise_tree].
  set (l := x0 :: x1 :: x2 :: x3 :: x4 :: x5 :: x6 :: x7 :: l') in *.
  destruct (Nat.leb_spec (length l) 128) as [|Hlong]; [done|].
  set (n2 := length l / 2 - (length l / 2) mod 8).
  assert (0 < n2 < length l) as Hn2.
  { unfold n2. pose proof (Nat.div_mod_eq (length l) 2).
    pose proof (Nat.mod_upper_bound (length l) 2).
    pose proof (Nat.mod_upper_bound (length l / 2) 8). lia. }
  f_equal; apply IH; rewrite ?length_take, ?length_drop; lia.
Qed.

Lemma reduce_pairwise_summation : summation prec emax (reduce_pairwise prec emax).
Proof.
  intros l. destruct (leaves_pairwise_tree (length l) l) as (zs & Hperm & Hzs).
  exists (Plus (Leaf fzero) (pairwise_tree (length l) l)), (fzero :: zs).
  split; [done|]. split; [|by constructor].
  cbn [leaves]. rewrite Hperm. cbn. by rewrite Permutation_middle.
Qed.
End SumFacts.

(** Rounding never takes a positive sum to zero. *)

Section RoundFacts.
Variables prec emax : Z.
Hypothesis prec_pos : (0 < prec)%Z.

(** Shifting a mantissa right by fewer bits than it has leaves a
    positive mantissa. *)
Lemma iter_shr_1_pos (k : positive) : ∀ mrs m,
  shr_m mrs = Zpos m → (Zpos k < Zpos (digits2_pos m))%Z →
  ∃ m', shr_m (SpecFloat.iter_pos shr_1 k mrs) = Zpos m'
    ∧ Zpos (digits2_pos m') = (Zpos (digits2_pos m) - Zpos k)%Z.
Proof.
  assert (∀ mrs m, shr_m mrs = Zpos m → (1 < Zpos (digits2_pos m))%Z →
            ∃ m', shr_m (shr_1 mrs) = Zpos m'
              ∧ Zpos (digits2_pos m') = (Zpos (digits2_pos m) - 1)%Z) as Hone.
  { intros [m0 r s] m. cbn [shr_m]. intros -> Hd.
    destruct m as [p|p|]; cbn [digits2_pos] in Hd |- *; [| |lia];
      exists p; cbn [shr_m]; (split; [done|lia]). }
  induction k as [k IH|k IH|]; intros mrs m Hm Hd; cbn [SpecFloat.iter_pos].
  - destruct (Hone mrs m Hm) as (m1 & Hm1 & Hd1); [lia|].
    destruct (IH _ m1 Hm1) as (m2 & Hm2 & Hd2); [lia|].
    destruct (IH _ m2 Hm2) as (m3 & Hm3 & Hd3); [lia|].
    exists m3. split; [done|lia].
  - destruct (IH _ m Hm) as (m2 & Hm2 & Hd2); [lia|].
    destruct (IH _ m2 Hm2) as (m3 & Hm3 & Hd3); [lia|].
    exists m3. split; [done|lia].
  - by apply Hone.
Qed.

Lemma shr_fexp_pos (m : positive) e l mrs e' :
  (emin prec emax ≤ e)%Z →
  shr_fexp prec emax (Zpos m) e l = (mrs, e') →
  (∃ m', shr_m mrs = Zpos m') ∧ (emin prec emax ≤ e')%Z.
Proof using prec_pos.
  intros He. unfold shr_fexp, shr. cbn [Zdigits2].
  assert (shr_m (shr_record_of_loc (Zpos m) l) = Zpos m) as Hrec
    by by destruct l as [|[]].
  destruct (fexp prec emax (Zpos (digits2_pos m) + e) - e)%Z as [|n|n] eqn:Hn.
  - intros [= <- <-]. eauto.
  - intros [= <- <-]. unfold fexp in Hn.
    destruct (iter_shr_1_pos n _ m Hrec) as (m' & Hm' & _); [lia|].
    split; [by eauto|lia].
  - intros [= <- <-]. eauto.
Qed.

(** Rounding a positive mantissa at an exponent not below [emin] gives a
    positive float. *)
Lemma binary_round_aux_pos sx (m : positive) e l :
  (emin prec emax ≤ e)%Z →
  binary_round_aux prec emax sx (Zpos m) e l = S754_infinity sx
  ∨ ∃ m' e', binary_round_aux prec emax sx (Zpos m) e l = S754_finite sx m' e'
      ∧ (emin prec emax ≤ e')%Z.
Proof using prec_pos.
  intros He. unfold binary_round_aux.
  destruct (shr_fexp prec emax (Zpos m) e l) as [mrs1 e1] eqn:H1.
  destruct (shr_fexp_pos _ _ _ _ _ He H1) as [[m1 Hm1] He1].
  assert (∃ m2, round_nearest_even (shr_m mrs1) (loc_of_shr_record mrs1) = Zpos m2)
    as [m2 Hm2].
  { rewrite Hm1. unfold round_nearest_even.
    destruct (loc_of_shr_record mrs1) as [|[]]; try destruct (Z.even _);
      cbn; eauto. }
  rewrite Hm2.
  destruct (shr_fexp prec emax (Zpos m2) e1 loc_Exact) as [mrs2 e2] eqn:H2.
  destruct (shr_fexp_pos _ _ _ _ _ He1 H2) as [[m3 Hm3] He2].
  rewrite Hm3. destruct (e2 <=? emax - prec)%Z; [right|by left]. eauto.
Qed.

Lemma binary_round_pos sx (m : positive) e :
  (emin prec emax ≤ e)%Z →
  binary_round prec emax sx m e = S754_infinity sx
  ∨ ∃ m' e', binary_round prec emax sx m e = S754_finite sx m' e'
      ∧ (emin prec emax ≤ e')%Z.
Proof using prec_pos.
  intros He. unfold binary_round.
  destruct (shl_align m e _) as [mz ez] eqn:Hal.
  apply binary_round_aux_pos.
  unfold shl_align in Hal.
  destruct (_ - e)%Z eqn:Hd; injection Hal as <- <-; try done.
  unfold fexp. lia.
Qed.
End RoundFacts.

Section NonNegativeFacts.
Variables prec emax : Z.
Hypothesis prec_pos : (0 < prec)%Z.
Implicit Types (t : sum_tree) (l col : list float).

Lemma nonnegative_at_least_zero x :
  nonnegative prec emax x = true → at_least_zero prec emax x.
Proof.
  unfold nonnegative. destruct x as [s|s| |s m e]; cbn; try done.
  - by destruct s.
  - unfold bounded, canonical_mantissa, fexp.
    intros [[Hc _]%andb_true_iff Hs%negb_true_iff]%andb_true_iff.
    apply Z.eqb_eq in Hc. split; [done|lia].
Qed.

(** The sum of two floats that are at least zero is at least zero, and
    it is zero only when both are. *)
Lemma SFadd_at_least_zero x y :
  at_least_zero prec emax x → at_least_zero prec emax y →
  at_least_zero prec emax (SFadd prec emax x y)
  ∧ (SFeqb (SFadd prec emax x y) fzero = true →
     SFeqb x fzero = true ∧ SFeqb y fzero = true).
Proof using prec_pos.
  destruct x as [sx|sx| |sx mx ex], y as [sy|sy| |sy my ey]; cbn [at_least_zero];
    try done; try (intros; subst; by destruct_and?; subst; cbn).
  - intros _ _. by destruct sx, sy.
  - intros [-> Hx] [-> Hy]. cbn [SFadd cond_Zopp].
    destruct (shl_align mx ex (Z.min ex ey)) as [ax ?],
      (shl_align my ey (Z.min ex ey)) as [ay ?].
    cbn [fst]. change (Z.pos ax + Z.pos ay)%Z with (Z.pos (ax + ay)).
    cbn [binary_normalize].
    destruct (binary_round_pos prec emax prec_pos false (ax + ay) (Z.min ex ey))
      as [->|(m & e & -> & He)]; [lia|done|done].
Qed.

Lemma tree_value_at_least_zero t :
  Forall (at_least_zero prec emax) (leaves t) →
  at_least_zero prec emax (tree_value prec emax t)
  ∧ (SFeqb (tree_value prec emax t) fzero = true → all_zero (leaves t)).
Proof using prec_pos.
  unfold all_zero.
  induction t as [x|t1 IH1 t2 IH2]; cbn [leaves tree_value]; intros Hl.
  - rewrite Forall_singleton in Hl. split; [done|]. by rewrite Forall_singleton.
  - apply Forall_app in Hl as [Hl1 Hl2].
    destruct (IH1 Hl1) as [H1 Hz1], (IH2 Hl2) as [H2 Hz2].
    destruct (SFadd_at_least_zero _ _ H1 H2) as [Hsum Hz]. split; [done|].
    intros [Hx Hy]%Hz. apply Forall_app. auto.
Qed.

(** A sum of [nonnegative] floats is not zero exactly when one of them is
    not zero, in whichever order they are added. *)
Lemma adds_up_nonnegative col s :
  Forall (λ x, nonnegative prec emax x = true) col →
  adds_up prec emax col s →
  nonzero s = true ↔ ¬ all_zero col.
Proof using prec_pos.
  intros Hcol (t & zs & <- & Hperm & Hzs).
  assert (all_zero (leaves t) ↔ all_zero col) as Hall.
  { unfold all_zero. rewrite Hperm, Forall_app. tauto. }
  destruct (tree_value_at_least_zero t) as [_ Hz].
  { rewrite Hperm. apply Forall_app. split.
    - eapply Forall_impl; [exact Hcol|]. apply nonnegative_at_least_zero.
    - eapply Forall_impl; [exact Hzs|]. by intros x [sx ->]%SFeqb_fzero. }
  unfold nonzero. rewrite negb_true_iff, <- Hall. split.
  - intros Hnz Hzero.
    destruct (tree_value_all_zero prec emax t Hzero) as [s0 Hs0].
    by rewrite Hs0 in Hnz.
  - intros Hnot. destruct (SFeqb _ fzero) eqn:E; [|done]. by destruct Hnot; auto.
Qed.
End NonNegativeFacts.

Section PruneFacts.
Variable add_reduce : list float → float.
Implicit Types (a : ndarray float) (col : list float).

Lemma length_sum_axis0 a : length (sum_axis0 add_reduce a) = shape1 a.
Proof. unfold sum_axis0. by rewrite length_map, length_seq. Qed.

(** The [j]-th sum is the sum of column [j]. *)
Lemma lookup_sum_axis0 a j :
  j < shape1 a →
  sum_axis0 add_reduce a !! j = Some (add_reduce (column a j)).
Proof.
  intros Hj. unfold sum_axis0. rewrite list_lookup_fmap.
  by rewrite lookup_seq_lt.
Qed.

Lemma elem_of_kept_columns a j :
  j ∈ kept_columns add_reduce a
    ↔ j < shape1 a ∧ nonzero (add_reduce (column a j)) = true.
Proof.
  unfold kept_columns.
  rewrite elem_of_where_true, Nat.sub_0_r, list_lookup_fmap. split.
  - intros [_ Hj].
    destruct (sum_axis0 add_reduce a !! j) as [x|] eqn:Hx; [|done].
    assert (j < shape1 a) as Hlt.
    { apply lookup_lt_Some in Hx. by rewrite length_sum_axis0 in Hx. }
    rewrite lookup_sum_axis0 in Hx by done. injection Hx as <-.
    split; [done|]. by injection Hj.
  - intros [Hlt Hnz]. split; [lia|]. rewrite lookup_sum_axis0 by done.
    cbn. by rewrite Hnz.
Qed.

(** The pruned array, entry by entry and column by column. *)
Lemma take_columns_kept a :
  wf_ndarray a →
  ∃ ap, take_columns a (map nonzero (sum_axis0 add_reduce a)) = inr ap
    ∧ wf_ndarray ap
    ∧ shape0 ap = shape0 a
    ∧ shape1 ap = length (kept_columns add_reduce a)
    ∧ ∀ k j, kept_columns add_reduce a !! k = Some j →
        column ap k = column a j ∧ ∀ i, get2 ap i k = get2 a i j.
Proof.
  intros Hwf. unfold take_columns.
  set (mask := map nonzero (sum_axis0 add_reduce a)).
  assert (length mask = shape1 a) as Hmask
    by (unfold mask; by rewrite length_map, length_sum_axis0).
  rewrite Hmask, Nat.eqb_refl. eexists. split; [reflexivity|].
  destruct Hwf as [Hlen Hrows].
  assert (∀ k j r, kept_columns add_reduce a !! k = Some j → r ∈ rows a →
            compress mask r !! k = r !! j) as Hrow.
  { intros k j r Hk Hr. rewrite Forall_forall in Hrows.
    rewrite (lookup_compress mask r 0 k j); [by rewrite Nat.sub_0_r| |done].
    rewrite Hmask. symmetry. by apply Hrows. }
  split_and!; [|done|done|].
  - split; cbn [rows shape0 shape1]; [by rewrite length_map|].
    apply Forall_fmap. eapply Forall_impl; [exact Hrows|].
    intros r Hr. simpl. apply length_compress. by rewrite Hmask.
  - intros k j Hk. split.
    + unfold column. cbn [rows].
      assert (∀ rs, (∀ r, r ∈ rs → r ∈ rows a) →
                omap (λ row, row !! k) (map (compress mask) rs)
                  = omap (λ row, row !! j) rs) as Hcols.
      { induction rs as [|r rs IH]; intros Hin; [done|].
        cbn [map omap list_omap]. rewrite (Hrow k j r Hk) by (apply Hin; left).
        rewrite IH; [done|]. intros r' Hr'. apply Hin. by right. }
      by apply Hcols.
    + intros i. unfold get2. cbn [rows]. rewrite list_lookup_fmap.
      destruct (rows a !! i) as [r|] eqn:Hr; [|done]. cbn.
      apply (Hrow k j r Hk). by eapply list_elem_of_lookup_2.
Qed.
End PruneFacts.

Section PruneNonNegative.
Variables prec emax : Z.
Variable add_reduce : list float → float.
Implicit Types (a : ndarray float).

Lemma elem_of_column {A} (a : ndarray A) j x :
  x ∈ column a j → ∃ i, get2 a i j = Some x.
Proof.
  unfold column. intros (row & Hrow & Hx)%list_elem_of_omap.
  apply list_elem_of_lookup_1 in Hrow as [i Hi]. exists i.
  unfold get2. by rewrite Hi.
Qed.

(** For a matrix without negative entry and without NaN the sum of a
    column is zero only when the column is empty, in whichever order the
    column is added: pruning keeps the columns that are not empty. *)
Lemma kept_columns_nonnegative a j :
  (0 < prec)%Z → summation prec emax add_reduce →
  (∀ i j x, get2 a i j = Some x → nonnegative prec emax x = true) →
  j ∈ kept_columns add_reduce a ↔ j < shape1 a ∧ ¬ all_zero (column a j).
Proof.
  intros Hprec Hsum Hpos. rewrite elem_of_kept_columns.
  rewrite (adds_up_nonnegative prec emax Hprec (column a j)); [done| |done].
  apply Forall_forall. intros x [i Hx]%elem_of_column. by eapply Hpos.
Qed.
End PruneNonNegative.

Section PruneClaim.
Variables prec emax : Z.
Variable add_reduce : list float → float.

(** C8: after pruning, the spline design matrix retains exactly those
    columns of the original matrix whose entries sum to a nonzero value,
    in their original order; no empty (all-zero) column remains.  The
    sum of a column is the one [np.add.reduce] computes, in whichever
    order it adds: the statement holds for every [summation].  An empty
    column is dropped in every order; when no entry is negative or NaN,
    as for the values of a spline basis, the columns kept are the
    columns that are not empty, in every order. *)
Theorem prune_star_dm_keeps_nonzero_columns (star_dm : DesignMatrix float) :
  summation prec emax add_reduce →
  wf_ndarray (X star_dm) →
  let kept := kept_columns add_reduce (X star_dm) in
  (∀ j, j ∈ kept ↔
          j < (shape star_dm).2
          ∧ nonzero (add_reduce (column (X star_dm) j)) = true)
  ∧ (∀ k k' j j', k < k' → kept !! k = Some j → kept !! k' = Some j' → j < j')
  ∧ (∀ j, j < (shape star_dm).2 → all_zero (column (X star_dm) j) → j ∉ kept)
  ∧ ((0 < prec)%Z →
     (∀ i j x, get2 (X star_dm) i j = Some x → nonnegative prec emax x = true) →
     ∀ j, j ∈ kept ↔ j < (shape star_dm).2 ∧ ¬ all_zero (column (X star_dm) j))
  ∧ ∃ pruned, prune_star_dm add_reduce star_dm = inr pruned
      ∧ shape pruned = ((shape star_dm).1, length kept)
      ∧ (∀ k j, kept !! k = Some j →
           column (X pruned) k = column (X star_dm) j
           ∧ ∀ i, get2 (X pruned) i k = get2 (X star_dm) i j)
      ∧ (∀ k, k < (shape pruned).2 → ¬ all_zero (column (X pruned) k)).
Proof.
  intros Hsum Hwf kept.
  assert (∀ j, all_zero (column (X star_dm) j) → j ∉ kept) as Hdrop.
  { intros j Hzero [_ Hnz]%elem_of_kept_columns.
    by rewrite (adds_up_all_zero prec emax _ _ Hzero (Hsum _)) in Hnz. }
  split; [intros j; by apply elem_of_kept_columns|].
  split; [apply where_true_increasing|].
  split; [intros j _; by apply Hdrop|].
  split; [intros Hprec Hpos j; by apply (kept_columns_nonnegative prec emax)|].
  destruct (take_columns_kept add_reduce (X star_dm) Hwf)
    as (ap & Hap & Hwfp & Hs0 & Hs1 & Hcols).
  unfold prune_star_dm. rewrite Hap. cbn [mbind result_bind mret result_ret].
  eexists. split; [reflexivity|]. cbn [X new_DesignMatrix shape fst snd].
  split_and!; [unfold shape; cbn [X new_DesignMatrix]; by rewrite Hs0, Hs1|done|].
  intros k Hk Hzero. rewrite Hs1 in Hk.
  destruct (lookup_lt_is_Some_2 _ _ Hk) as [j Hj].
  destruct (Hcols k j Hj) as [Hcol _]. rewrite Hcol in Hzero.
  apply (Hdrop j Hzero). by eapply list_elem_of_lookup_2.
Qed.
End PruneClaim.

Lemma prune_star_dm_keeps_nonzero_columns_witness :
  summation 53 1024 sum64
  ∧ wf_ndarray (X SampleSpline.star_dm)
  ∧ kept_columns sum64 (X SampleSpline.star_dm) = [0]
  ∧ ∃ pruned,
      prune_star_dm sum64 SampleSpline.star_dm = inr pruned
      ∧ shape pruned = (3, 1)
      ∧ ∀ k, k < (shape pruned).2 → ¬ all_zero (column (X pruned) k).
Proof.
  assert (wf_ndarray (X SampleSpline.star_dm)) as Hwf
    by (split; [reflexivity|repeat constructor]).
  split; [exact (reduce_in_order_summation 53 1024)|].
  split; [exact Hwf|]. split; [reflexivity|].
  destruct (prune_star_dm_keeps_nonzero_columns 53 1024 sum64
              SampleSpline.star_dm (reduce_in_order_summation 53 1024) Hwf)
    as (_ & _ & _ & _ & pruned & Hp & Hshape & _ & Hnz).
  exists pruned. split; [exact Hp|]. split; [exact Hshape|exact Hnz].
Defined.

(** * The flux-error fix *)

Section FluxErrClaim.
Variables prec emax : Z.
Variable add_reduce : list float → float.

End FluxErrClaim.



(** * The embedding on sample inputs *)

Example vstack_sample :
  vstack 0 [Sample.dmA; Sample.dmC; Sample.dmB]
    = inr (mkDesignMatrix
             (Ndarray 3 5 [[1; 0; 0; 0; 0];
                           [2; 0; 0; 0; 0];
                           [0; 0; 0; 3; 4]])
             "bkg" [10; 30; 31; 20; 21] [11; 32; 33; 22; 23]).
Proof. reflexivity. Qed.

Example vstack_st_sample :
  ∃ l, (vstack_st 0 [1%positive; 5%positive] SampleHeap.h0).1 = inr l
    ∧ SampleHeap.h0 !! l = None
    ∧ deref (vstack_st 0 [1%positive; 5%positive] SampleHeap.h0).2 l
        = Some (mkDesignMatrix
                  (Ndarray 3 3 [[1; 0; 0]; [2; 0; 0]; [0; 3; 4]])
                  "bkg" [10; 20; 21] [11; 22; 23]).
Proof. eexists. split; [by vm_compute|]. split; by vm_compute. Qed.

Example setitem2_clips_and_broadcasts :
  setitem2 (zeros 0 2 3) 1 5 1 9 (Ndarray 1 1 [[7]])
    = inr (Ndarray 2 3 [[0; 0; 0]; [0; 7; 7]])
  ∧ setitem2 (zeros 0 2 3) 0 2 0 2 (Ndarray 2 3 [[1; 2; 3]; [4; 5; 6]])
      = raise ValueError.
Proof. split; reflexivity. Qed.

Example nan_to_num_sample :
  map (nan_to_num 24 128)
      [S754_nan; S754_infinity false; S754_infinity true; SampleFloat.f2_5]
    = [fzero; SFmax_float 24 128; SFopp (SFmax_float 24 128); SampleFloat.f2_5].
Proof. reflexivity. Qed.

Example uncorr_sample :
  flux (uncorr 24 128 SampleFloat.tpf1)
    = [[[SampleFloat.one32; S754_finite false 14680064 (-22); fzero]]].
Proof. by vm_compute. Qed.

Example bigger_aper_sample :
  bigger_aper SampleMask.mask1
    = inr (Ndarray 4 5 [[false; false; true;  true;  false];
                        [false; true;  true;  true;  true];
                        [true;  true;  true;  true;  false];
                        [true;  true;  true;  false; false]]).
Proof. by vm_compute. Qed.

(** A pixel between two mask pixels has a zero central difference: it is
    added only if the other axis sees a change. *)
Example bigger_aper_skips_between :
  bigger_aper (Ndarray 3 3 [[true;  false; true];
                            [false; false; false];
                            [true;  false; true]])
    = inr (Ndarray 3 3 [[true;  false; true];
                        [false; false; false];
                        [true;  false; true]]).
Proof. by vm_compute. Qed.

Example bigger_aper_single_row :
  bigger_aper (Ndarray 1 3 [[true; false; false]]) = raise ValueError.
Proof. reflexivity. Qed.

Example prune_star_dm_sample :
  prune_star_dm sum64 SampleSpline.star_dm
    = inr (mkDesignMatrix (Ndarray 3 1 [[f64 1]; [f64 3]; [fzero]]) "spline"
             [fzero] [S754_infinity false]).
Proof. by vm_compute. Qed.

Example np_nanmedian_sample :
  np_nanmedian 53 1024 sum64 [f64 3; S754_nan; f64 1; f64 2] = f64 2
  ∧ np_nanmedian 53 1024 sum64 [f64 3; f64 1; S754_nan; f64 2; f64 8]
      = S754_finite false 5629499534213120 (-51)
  ∧ np_nanmedian 53 1024 sum64 [S754_nan; S754_nan] = S754_nan
  ∧ np_nanmedian 53 1024 sum64 [] = S754_nan.
Proof. split_and!; by vm_compute. Qed.

(** * More about [vstack]: the stacked matrix as a whole *)

Section VstackWhole.
Context {A : Type} (zero : A).
Implicit Types (dm : DesignMatrix A) (dms : list (DesignMatrix A)).

(** Two arrays of one shape with the same entries are the same array. *)
Lemma ndarray_ext (a b : ndarray A) :
  wf_ndarray a → wf_ndarray b →
  shape0 a = shape0 b → shape1 a = shape1 b →
  (∀ i j, i < shape0 a → j < shape1 a → get2 a i j = get2 b i j) →
  a = b.
Proof.
  destruct a as [ra ca rsa], b as [rb cb rsb]. cbn.
  intros [Hla Hra] [Hlb Hrb] <- <- Hget. cbn in *. f_equal.
  apply list_eq_same_length with ra; [done|done|].
  intros i x y Hi Hx Hy.
  rewrite Forall_lookup in Hra. rewrite Forall_lookup in Hrb.
  apply list_eq_same_length with ca; [exact (Hrb i y Hy)|exact (Hra i x Hx)|].
  intros j u v Hj Hu Hv. specialize (Hget i j Hi Hj).
  unfold get2 in Hget. cbn in Hget. rewrite Hx, Hy in Hget. cbn in Hget.
  congruence.
Qed.

(** An entry inside the stacked shape lies in one block, where the
    reference reads the input, or in none, where the reference is zero. *)
Lemma block_entry_cases dms : ∀ i j,
  i < total_rows dms → j < total_cols dms →
  (∃ k dm, dms !! k = Some dm
     ∧ in_block (row_offset dms k) (col_offset dms k) dm i j
     ∧ block_entry zero dms i j
         = default zero (get2 (X dm) (i - row_offset dms k) (j - col_offset dms k)))
  ∨ (off_blocks dms i j ∧ block_entry zero dms i j = zero).
Proof.
  induction dms as [|dm dms IH]; intros i j Hi Hj.
  { unfold total_rows in Hi. simpl in Hi. lia. }
  rewrite total_rows_cons in Hi. rewrite total_cols_cons in Hj.
  cbn [block_entry].
  destruct (Nat.ltb_spec i (shape0 (X dm))) as [Hir|Hir];
    destruct (Nat.ltb_spec j (shape1 (X dm))) as [Hjc|Hjc].
  - left. exists 0, dm. destruct (offset_0 (dm :: dms)) as [-> ->].
    rewrite !Nat.sub_0_r. split_and!; [done| |done].
    unfold in_block. cbn [shape fst snd]. lia.
  - right. split; [|done]. intros [|k] dm' Hk [Hb1 Hb2]; cbn in Hk.
    + injection Hk as <-. destruct (offset_0 (dm :: dms)) as [_ Hc0].
      rewrite Hc0 in Hb2. cbn [shape snd] in Hb2. lia.
    + rewrite row_offset_S in Hb1. lia.
  - right. split; [|done]. intros [|k] dm' Hk [Hb1 Hb2]; cbn in Hk.
    + injection Hk as <-. destruct (offset_0 (dm :: dms)) as [Hr0 _].
      rewrite Hr0 in Hb1. cbn [shape fst] in Hb1. lia.
    + rewrite col_offset_S in Hb2. lia.
  - destruct (IH (i - shape0 (X dm)) (j - shape1 (X dm)))
      as [(k & dm' & Hk & [Hb1 Hb2] & Hval)|[Hoff Hval]]; [lia|lia| |].
    + left. exists (S k), dm'. rewrite row_offset_S, col_offset_S.
      split_and!; [done| |].
      * unfold in_block. lia.
      * rewrite Hval. do 2 f_equal; lia.
    + right. split; [|done]. intros [|k] dm' Hk [Hb1 Hb2]; cbn in Hk.
      * injection Hk as <-. destruct (offset_0 (dm :: dms)) as [Hr0 _].
        rewrite Hr0 in Hb1. cbn [shape fst] in Hb1. lia.
      * rewrite row_offset_S in Hb1. rewrite col_offset_S in Hb2.
        apply (Hoff k dm' Hk). unfold in_block. lia.
Qed.

(** [vstack] builds the array that the reference describes. *)
Lemma vstack_reference dm dms :
  Forall wf_dm (dm :: dms) →
  ∃ X1, vstack zero (dm :: dms)
          = inr (mkDesignMatrix X1 (name dm)
                   (concat (map prior_mu (dm :: dms)))
                   (concat (map prior_sigma (dm :: dms))))
    ∧ wf_ndarray X1
    ∧ shape0 X1 = total_rows (dm :: dms)
    ∧ shape1 X1 = total_cols (dm :: dms)
    ∧ ∀ i j, i < total_rows (dm :: dms) → j < total_cols (dm :: dms) →
        get2 X1 i j = Some (block_entry zero (dm :: dms) i j).
Proof.
  intros Hwf.
  destruct (vstack_cons zero dm dms Hwf)
    as (X1 & Hv & Hwf1 & Hs0 & Hs1 & Hin & Hout).
  exists X1. split_and!; try done. intros i j Hi Hj.
  destruct (block_entry_cases (dm :: dms) i j Hi Hj)
    as [(k & dm' & Hk & [Hb1 Hb2] & Hval)|[Hoff Hval]].
  - rewrite Hval.
    assert (wf_dm dm') as Hwf'.
    { rewrite Forall_lookup in Hwf. by eapply Hwf. }
    destruct (get2_is_Some (X dm') (i - row_offset (dm :: dms) k)
                (j - col_offset (dm :: dms) k)) as [v Hv'];
      [done|cbn [shape fst] in Hb1; lia|cbn [shape snd] in Hb2; lia|].
    rewrite Hv'. cbn [from_option id]. cbn [shape fst] in Hb1. cbn [shape snd] in Hb2.
    rewrite <- Hv'.
    rewrite <- (Hin k dm' _ _ Hk); [f_equal; lia|cbn [shape fst]; lia|cbn [shape snd]; lia].
  - rewrite Hval. by apply Hout.
Qed.

Lemma block_entry_outside dms : ∀ i j,
  total_rows dms ≤ i ∨ total_cols dms ≤ j → block_entry zero dms i j = zero.
Proof.
  induction dms as [|dm dms IH]; intros i j Hij; [done|].
  rewrite total_rows_cons, total_cols_cons in Hij. cbn [block_entry].
  destruct (Nat.ltb_spec i (shape0 (X dm)));
    destruct (Nat.ltb_spec j (shape1 (X dm))); try done.
  - lia.
  - apply IH. lia.
Qed.
End VstackWhole.

Section VstackCompose.
Context {A : Type} (zero : A).
Implicit Types (dm : DesignMatrix A) (dms : list (DesignMatrix A)).

Lemma total_rows_app dms1 dms2 :
  total_rows (dms1 ++ dms2) = total_rows dms1 + total_rows dms2.
Proof. apply sum_list_with_app. Qed.

Lemma total_cols_app dms1 dms2 :
  total_cols (dms1 ++ dms2) = total_cols dms1 + total_cols dms2.
Proof. apply sum_list_with_app. Qed.

(** The arrangement of a concatenation: the arrangement of the first
    list in the top-left corner, that of the second list below and to the
    right of it, zero elsewhere. *)
Lemma block_entry_app dms1 dms2 : ∀ i j,
  block_entry zero (dms1 ++ dms2) i j =
    if i <? total_rows dms1 then
      if j <? total_cols dms1 then block_entry zero dms1 i j else zero
    else
      if j <? total_cols dms1 then zero
      else block_entry zero dms2 (i - total_rows dms1) (j - total_cols dms1).
Proof.
  induction dms1 as [|dm dms1 IH]; intros i j.
  { cbn. by rewrite !Nat.sub_0_r. }
  rewrite total_rows_cons, total_cols_cons.
  cbn [app block_entry]. rewrite IH.
  repeat match goal with
         | |- context [?a <? ?b] => destruct (Nat.ltb_spec a b)
         end; try done; try lia.
  f_equal; lia.
Qed.

(** X1: stacking a single design matrix returns it as it is: the same
    [X], the same priors and the same name. *)
Theorem vstack_singleton dm : wf_dm dm → vstack zero [dm] = inr dm.
Proof.
  intros Hwf.
  destruct (vstack_reference zero dm []) as (X1 & Hv & Hwf1 & Hs0 & Hs1 & Hget);
    [by apply Forall_cons_2|].
  rewrite Hv. clear Hv. unfold wf_dm in Hwf.
  destruct dm as [Xd nm mu sg]. cbn [map concat name prior_mu prior_sigma X] in *.
  rewrite !app_nil_r. f_equal. f_equal.
  assert (total_rows [mkDesignMatrix Xd nm mu sg] = shape0 Xd) as Hr
    by (rewrite total_rows_cons; apply Nat.add_0_r).
  assert (total_cols [mkDesignMatrix Xd nm mu sg] = shape1 Xd) as Hc
    by (rewrite total_cols_cons; apply Nat.add_0_r).
  rewrite Hr in Hs0, Hget. rewrite Hc in Hs1, Hget.
  apply ndarray_ext; [done|done|done|done|].
  intros i j Hi Hj. rewrite Hget by lia. cbn [block_entry X].
  destruct (Nat.ltb_spec i (shape0 Xd)); [|lia].
  destruct (Nat.ltb_spec j (shape1 Xd)); [|lia].
  by destruct (get2_is_Some Xd i j) as [v ->]; [done|lia|lia|].
Qed.

(** The reference entry of a single matrix whose own entries are given
    by [f]. *)
Lemma block_entry_one (Xa : ndarray A) nm mu sg (f : nat → nat → A) i j :
  (∀ i j, i < shape0 Xa → j < shape1 Xa → get2 Xa i j = Some (f i j)) →
  i < shape0 Xa → j < shape1 Xa →
  block_entry zero [mkDesignMatrix Xa nm mu sg] i j = f i j.
Proof.
  intros Hf Hi Hj. cbn [block_entry X].
  destruct (Nat.ltb_spec i (shape0 Xa)); [|lia].
  destruct (Nat.ltb_spec j (shape1 Xa)); [|lia].
  by rewrite Hf.
Qed.

(** X2: stacking is compositional: stacking two non-empty lists one
    after the other gives the same design matrix as stacking each list
    first and then stacking the two results. *)
Theorem vstack_app dms1 dms2 :
  dms1 ≠ [] → dms2 ≠ [] → Forall wf_dm dms1 → Forall wf_dm dms2 →
  ∃ o1 o2 o, vstack zero dms1 = inr o1
    ∧ vstack zero dms2 = inr o2
    ∧ vstack zero (dms1 ++ dms2) = inr o
    ∧ vstack zero [o1; o2] = inr o.
Proof.
  intros Hne1 Hne2 Hwf1 Hwf2.
  destruct dms1 as [|d1 l1]; [done|]. destruct dms2 as [|d2 l2]; [done|].
  set (L1 := d1 :: l1) in *. set (L2 := d2 :: l2) in *.
  destruct (vstack_reference zero d1 l1 Hwf1)
    as (Xa & Hva & Hwfa & Ha0 & Ha1 & Hgeta).
  destruct (vstack_reference zero d2 l2 Hwf2)
    as (Xb & Hvb & Hwfb & Hb0 & Hb1 & Hgetb).
  fold L1 in Hva, Ha0, Ha1, Hgeta. fold L2 in Hvb, Hb0, Hb1, Hgetb.
  assert (Forall wf_dm (d1 :: (l1 ++ L2))) as Hwf12
    by (rewrite app_comm_cons; by apply Forall_app).
  destruct (vstack_reference zero d1 (l1 ++ L2) Hwf12)
    as (Xo & Hvo & Hwfo & Ho0 & Ho1 & Hgeto).
  change (d1 :: (l1 ++ L2)) with (L1 ++ L2) in Hvo, Ho0, Ho1, Hgeto.
  set (o1 := mkDesignMatrix Xa (name d1) (concat (map prior_mu L1))
               (concat (map prior_sigma L1))) in *.
  set (o2 := mkDesignMatrix Xb (name d2) (concat (map prior_mu L2))
               (concat (map prior_sigma L2))) in *.
  assert (Forall wf_dm [o1; o2]) as Hwfp by (by repeat apply Forall_cons_2).
  destruct (vstack_reference zero o1 [o2] Hwfp)
    as (Xp & Hvp & Hwfp' & Hp0 & Hp1 & Hgetp).
  exists o1, o2, (mkDesignMatrix Xo (name d1) (concat (map prior_mu (L1 ++ L2)))
                    (concat (map prior_sigma (L1 ++ L2)))).
  split_and!; [done|done|done|]. rewrite Hvp.
  assert (total_rows [o1; o2] = total_rows L1 + total_rows L2) as Hrows.
  { rewrite !total_rows_cons. cbn [X o1 o2]. rewrite Ha0, Hb0.
    change (total_rows []) with 0. lia. }
  assert (total_cols [o1; o2] = total_cols L1 + total_cols L2) as Hcols.
  { rewrite !total_cols_cons. cbn [X o1 o2]. rewrite Ha1, Hb1.
    change (total_cols []) with 0. lia. }
  rewrite total_rows_app in Ho0, Hgeto. rewrite total_cols_app in Ho1, Hgeto.
  rewrite Hrows in Hp0, Hgetp. rewrite Hcols in Hp1, Hgetp.
  cbn [name o1 map concat prior_mu prior_sigma o2].
  rewrite !app_nil_r, !map_app, !concat_app. f_equal. f_equal.
  apply ndarray_ext; [done|done|congruence|congruence|].
  intros i j Hi Hj. rewrite Hp0 in Hi. rewrite Hp1 in Hj.
  rewrite Hgetp, Hgeto by done. f_equal.
  rewrite block_entry_app.
  rewrite (block_entry_app [o1] [o2]).
  assert (total_rows [o1] = total_rows L1) as ->
    by (rewrite total_rows_cons; cbn [X o1]; rewrite Ha0;
        change (total_rows []) with 0; lia).
  assert (total_cols [o1] = total_cols L1) as ->
    by (rewrite total_cols_cons; cbn [X o1]; rewrite Ha1;
        change (total_cols []) with 0; lia).
  destruct (Nat.ltb_spec i (total_rows L1));
    destruct (Nat.ltb_spec j (total_cols L1)); try done.
  - apply (block_entry_one Xa); [|lia|lia].
    intros i' j' Hi' Hj'. apply Hgeta; lia.
  - apply (block_entry_one Xb); [|lia|lia].
    intros i' j' Hi' Hj'. apply Hgetb; lia.
Qed.
End VstackCompose.

Lemma vstack_singleton_witness :
  wf_dm Sample.dmB ∧ vstack 0 [Sample.dmB] = inr Sample.dmB.
Proof.
  assert (wf_dm Sample.dmB) as Hwf by (split; [reflexivity|repeat constructor]).
  split; [exact Hwf|]. exact (vstack_singleton 0 Sample.dmB Hwf).
Defined.

Lemma vstack_app_witness :
  [Sample.dmA; Sample.dmC] ≠ [] ∧ [Sample.dmB] ≠ []
  ∧ Forall wf_dm [Sample.dmA; Sample.dmC] ∧ Forall wf_dm [Sample.dmB]
  ∧ ∃ o1 o2 o, vstack 0 [Sample.dmA; Sample.dmC] = inr o1
      ∧ vstack 0 [Sample.dmB] = inr o2
      ∧ vstack 0 ([Sample.dmA; Sample.dmC] ++ [Sample.dmB]) = inr o
      ∧ vstack 0 [o1; o2] = inr o.
Proof.
  assert (Forall wf_dm [Sample.dmA; Sample.dmC]) as H1
    by (repeat first [apply Forall_nil_2|apply Forall_cons_2|split|reflexivity]).
  assert (Forall wf_dm [Sample.dmB]) as H2
    by (repeat first [apply Forall_nil_2|apply Forall_cons_2|split|reflexivity]).
  split; [discriminate|]. split; [discriminate|].
  split; [exact H1|]. split; [exact H2|].
  apply (vstack_app 0 [Sample.dmA; Sample.dmC] [Sample.dmB]);
    [discriminate|discriminate|exact H1|exact H2].
Defined.

(** * More about [vstack] on the heap: the result is a new object *)

Section HeapFresh.
Context {A : Type} (zero : A).
Local Abbreviation heap := (gmap loc (cell A)).
Implicit Types (h : heap) (dms : list loc).

(** The heap after a call that returns: the heap before, and four new
    objects, the three arrays of the result and the result itself. *)
Lemma vstack_st_allocates h dms (vs : list (DesignMatrix A)) out :
  Forall2 (λ l dm, deref h l = Some dm) dms vs →
  vstack zero vs = inr out →
  ∃ lD lX lmu lsg,
    vstack_st zero dms h
      = (inr lD,
         <[lD := CDm lX lmu lsg (name out)]>
           (<[lsg := CArr1 (prior_sigma out)]>
              (<[lmu := CArr1 (prior_mu out)]>
                 (<[lX := CArr2 (X out)]> h))))
    ∧ h !! lX = None ∧ h !! lmu = None ∧ h !! lsg = None ∧ h !! lD = None
    ∧ lX ≠ lmu ∧ lX ≠ lsg ∧ lX ≠ lD ∧ lmu ≠ lsg ∧ lmu ≠ lD ∧ lsg ≠ lD.
Proof.
  intros Hrep Hout. destruct Hrep as [|l0 dm0 dms vs Hl0 Hrep]; [done|].
  assert (Forall2 (λ l dm, deref h l = Some dm) (l0 :: dms) (dm0 :: vs)) as Hall
    by by constructor.
  rewrite vstack_unfold_cons in Hout. unfold vstack_st.
  erewrite run_bind; cycle 1.
  { eapply (run_comprehension _ (λ dm, (shape dm).1)); [|exact Hall].
    intros l dm Hl. by rewrite (run_bind _ _ _ _ _ (run_dm_shape _ _ _ Hl)). }
  erewrite run_bind; cycle 1.
  { eapply (run_comprehension _ (λ dm, (shape dm).2)); [|exact Hall].
    intros l dm Hl. by rewrite (run_bind _ _ _ _ _ (run_dm_shape _ _ _ Hl)). }
  rewrite !np_sum_cons.
  fold (total_rows (dm0 :: vs)) (total_cols (dm0 :: vs)).
  cbn [np_zeros mret result_ret].
  erewrite run_bind; [|reflexivity].
  erewrite run_bind; [|reflexivity].
  set (lX := fresh (dom h)).
  assert (h !! lX = None) as HlX by apply not_elem_of_dom, is_fresh.
  pose proof (run_vstack_loop_st h lX _ _ HlX Hall
    (zeros zero (total_rows (dm0 :: vs)) (total_cols (dm0 :: vs))) 0 0) as Hloop.
  destruct (vstack_loop (dm0 :: vs) _) as [e|[[X1 i1] j1]]; [done|].
  injection Hout as <-. cbn [X name prior_mu prior_sigma].
  rewrite (run_bind _ _ _ _ _ Hloop).
  set (h1 := <[lX := CArr2 X1]> h).
  assert (h ⊆ h1) as Hsub1 by by apply insert_subseteq.
  erewrite run_bind; cycle 1.
  { eapply (run_comprehension _ prior_mu); [apply run_dm_prior_mu|].
    eapply Forall2_impl; [exact Hall|]. intros ?? Hd. simpl in Hd.
    by eapply deref_weaken. }
  cbn [map np_hstack]. erewrite run_bind; [|reflexivity].
  erewrite run_bind; [|reflexivity].
  set (lmu := fresh (dom h1)).
  assert (h1 !! lmu = None) as Hlmu by apply not_elem_of_dom, is_fresh.
  set (h2 := <[lmu := _]> h1).
  assert (h1 ⊆ h2) as Hsub2 by by apply insert_subseteq.
  erewrite run_bind; cycle 1.
  { eapply (run_comprehension _ prior_sigma); [apply run_dm_prior_sigma|].
    eapply Forall2_impl; [exact Hall|]. intros ?? Hd. simpl in Hd.
    eapply deref_weaken; [|exact Hd]. etrans; [exact Hsub1|exact Hsub2]. }
  cbn [map np_hstack]. erewrite run_bind; [|reflexivity].
  erewrite run_bind; [|reflexivity].
  set (lsg := fresh (dom h2)).
  assert (h2 !! lsg = None) as Hlsg by apply not_elem_of_dom, is_fresh.
  set (h3 := <[lsg := _]> h2).
  assert (h2 ⊆ h3) as Hsub3 by by apply insert_subseteq.
  cbn [first]. erewrite run_bind; [|reflexivity].
  erewrite run_bind; cycle 1.
  { apply run_dm_name. eapply deref_weaken; [|exact Hl0].
    etrans; [exact Hsub1|]. etrans; [exact Hsub2|exact Hsub3]. }
  unfold alloc.
  set (lD := fresh (dom h3)).
  assert (h3 !! lD = None) as HlD by apply not_elem_of_dom, is_fresh.
  exists lD, lX, lmu, lsg. split; [reflexivity|].
  assert (h1 !! lX = Some (CArr2 X1)) as HX1 by apply lookup_insert_eq.
  assert (h2 !! lX = Some (CArr2 X1)) as HX2
    by (eapply lookup_weaken; [exact HX1|exact Hsub2]).
  assert (h3 !! lX = Some (CArr2 X1)) as HX3
    by (eapply lookup_weaken; [exact HX2|exact Hsub3]).
  assert (is_Some (h2 !! lmu)) as Hmu2 by (unfold h2; rewrite lookup_insert_eq; eauto).
  assert (is_Some (h3 !! lmu)) as Hmu3.
  { destruct Hmu2 as [c Hc]. exists c. eapply lookup_weaken; [exact Hc|exact Hsub3]. }
  assert (is_Some (h3 !! lsg)) as Hsg3 by (unfold h3; rewrite lookup_insert_eq; eauto).
  assert (∀ (m m' : heap) l, m ⊆ m' → m' !! l = None → m !! l = None) as Hnone.
  { intros m m' l Hsub Hl. destruct (m !! l) eqn:E; [|done].
    by rewrite (lookup_weaken _ _ _ _ E Hsub) in Hl. }
  split_and!.
  - done.
  - by apply (Hnone h h1).
  - apply (Hnone h h2); [by etrans|done].
  - apply (Hnone h h3); [|done]. etrans; [exact Hsub1|]. by etrans.
  - intros E. rewrite <- E, HX1 in Hlmu. done.
  - intros E. rewrite <- E, HX2 in Hlsg. done.
  - intros E. rewrite <- E, HX3 in HlD. done.
  - intros E. rewrite <- E in Hlsg. destruct Hmu2 as [c Hc]. congruence.
  - intros E. rewrite <- E in HlD. destruct Hmu3 as [c Hc]. congruence.
  - intros E. rewrite <- E in HlD. destruct Hsg3 as [c Hc]. congruence.
Qed.

(** X3: the design matrix that [vstack] returns is a new object, and
    so are its [X], [prior_mu] and [prior_sigma] arrays: it shares no
    array with an input, and a later write into any object that existed
    before the call leaves the returned design matrix as it is. *)
Theorem vstack_st_result_is_new h dms (vs : list (DesignMatrix A)) out :
  Forall2 (λ l dm, deref h l = Some dm) dms vs →
  vstack zero vs = inr out →
  ∃ lD, (vstack_st zero dms h).1 = inr lD
    ∧ h !! lD = None
    ∧ deref (vstack_st zero dms h).2 lD = Some out
    ∧ ∀ l c, is_Some (h !! l) →
        deref (<[l := c]> (vstack_st zero dms h).2) lD = Some out.
Proof.
  intros Hrep Hout.
  destruct (vstack_st_allocates h dms vs out Hrep Hout)
    as (lD & lX & lmu & lsg & Hrun & HX & Hmu & Hsg & HD & Hne).
  destruct Hne as (? & ? & ? & ? & ? & ?).
  exists lD. rewrite Hrun. cbn [fst snd]. split; [done|]. split; [done|].
  assert (∀ m : heap,
            m !! lD = Some (CDm lX lmu lsg (name out)) →
            m !! lX = Some (CArr2 (X out)) →
            m !! lmu = Some (CArr1 (prior_mu out)) →
            m !! lsg = Some (CArr1 (prior_sigma out)) →
            deref m lD = Some out) as Hderef.
  { intros m Ha Hb Hc Hd. unfold deref. rewrite Ha, Hb, Hc, Hd.
    by destruct out. }
  split.
  - apply Hderef.
    + apply lookup_insert_eq.
    + rewrite !lookup_insert_ne by done. apply lookup_insert_eq.
    + rewrite !lookup_insert_ne by done. apply lookup_insert_eq.
    + rewrite lookup_insert_ne by done. apply lookup_insert_eq.
  - intros l c [c0 Hl].
    assert (l ≠ lD ∧ l ≠ lX ∧ l ≠ lmu ∧ l ≠ lsg) as (? & ? & ? & ?)
      by (split_and!; congruence).
    apply Hderef; rewrite lookup_insert_ne by done.
    + apply lookup_insert_eq.
    + rewrite !lookup_insert_ne by done. apply lookup_insert_eq.
    + rewrite !lookup_insert_ne by done. apply lookup_insert_eq.
    + rewrite lookup_insert_ne by done. apply lookup_insert_eq.
Qed.
End HeapFresh.

Lemma vstack_st_result_is_new_witness :
  Forall2 (λ l dm, deref SampleHeap.h0 l = Some dm)
    [1%positive; 5%positive] [Sample.dmA; Sample.dmB]
  ∧ (∃ out, vstack 0 [Sample.dmA; Sample.dmB] = inr out
      ∧ ∃ lD, (vstack_st 0 [1%positive; 5%positive] SampleHeap.h0).1 = inr lD
          ∧ SampleHeap.h0 !! lD = None
          ∧ deref (vstack_st 0 [1%positive; 5%positive] SampleHeap.h0).2 lD
              = Some out
          ∧ ∀ l c, is_Some (SampleHeap.h0 !! l) →
              deref (<[l := c]> (vstack_st 0 [1%positive; 5%positive]
                                   SampleHeap.h0).2) lD = Some out).
Proof.
  assert (Forall2 (λ l dm, deref SampleHeap.h0 l = Some dm)
            [1%positive; 5%positive] [Sample.dmA; Sample.dmB]) as Hrep
    by (repeat constructor).
  split; [exact Hrep|]. eexists. split; [reflexivity|].
  apply (vstack_st_result_is_new 0 SampleHeap.h0 _ _ _ Hrep). reflexivity.
Defined.

(** * Dropping cadences *)

Section CompressFacts.
Context {A : Type}.

(** Selecting with the mask that a test gives on the list itself is
    filtering by that test. *)
Lemma compress_map (P : A → bool) (l : list A) :
  compress (map P l) l = filter (λ x, P x = true) l.
Proof.
  induction l as [|x l IH]; [done|]. cbn [map compress].
  rewrite filter_cons. destruct (P x) eqn:E.
  - rewrite decide_True by done. by rewrite IH.
  - rewrite decide_False by congruence. done.
Qed.

Lemma length_compress_le (mask : list bool) : ∀ (l : list A),
  length (compress mask l) ≤ length l.
Proof.
  induction mask as [|b mask IH]; intros [|x l]; cbn; try lia.
  specialize (IH l). destruct b; cbn; lia.
Qed.

(** Two lists of one length keep as many items under one mask. *)
Lemma length_compress_same {B} (mask : list bool) : ∀ (l : list A) (k : list B),
  length l = length k → length (compress mask l) = length (compress mask k).
Proof.
  induction mask as [|b mask IH]; intros [|x l] [|y k] Hlen; try done.
  cbn in Hlen. cbn [compress]. destruct b; cbn [length]; [f_equal|]; apply IH; lia.
Qed.
End CompressFacts.

Section CadenceFacts.
Variables prec emax : Z.
Variable add_reduce : list float → float.
Implicit Types (tpf : TargetPixelFile) (img : list (list float)).

(** An entry of a cube lies in one of its images. *)
Lemma get3_elem_of (c : cube) t i j f :
  get3 c t i j = Some f →
  ∃ img, c !! t = Some img ∧ f ∈ concat img.
Proof.
  unfold get3. destruct (c !! t) as [img|]; [|done]. cbn.
  destruct (img !! i) as [row|] eqn:Hrow; [|done]. cbn. intros Hf.
  exists img. split; [done|]. apply list_elem_of_In, in_concat.
  exists row. split; apply list_elem_of_In; by eapply list_elem_of_lookup_2.
Qed.

(** A cadence whose sum is finite holds finite pixels only, in
    whichever order the pixels are added. *)
Lemma image_sum_finite_inv img f :
  summation prec emax add_reduce →
  isfinite (image_sum add_reduce img) = true → f ∈ concat img →
  isfinite f = true.
Proof.
  intros Hadd Hsum Hf. apply (adds_up_finite_inv _ _ _ _ (Hadd _)) in Hsum.
  rewrite Forall_forall in Hsum. by apply Hsum.
Qed.

(** Indexing with a mask as long as the file has cadences returns. *)
Lemma tpf_getitem_flux tpf (P : list (list float) → bool) :
  tpf_getitem tpf (map P (flux tpf))
    = inr (mkTargetPixelFile (filter (λ img, P img = true) (flux tpf))
             (compress (map P (flux tpf)) (flux_bkg tpf)) (pipeline_mask tpf)).
Proof.
  unfold tpf_getitem. rewrite length_map, Nat.eqb_refl. by rewrite compress_map.
Qed.

Lemma finite_flux_cadences_eq tpf :
  finite_flux_cadences add_reduce tpf
    = inr (mkTargetPixelFile
             (filter (λ img, isfinite (image_sum add_reduce img) = true) (flux tpf))
             (compress (map isfinite (sum_axis12 add_reduce (flux tpf)))
                (flux_bkg tpf))
             (pipeline_mask tpf)).
Proof.
  unfold finite_flux_cadences, sum_axis12. rewrite map_map.
  apply (tpf_getitem_flux tpf (λ img, isfinite (image_sum add_reduce img))).
Qed.


(** X5: the raw light curve keeps the cadences whose summed background
    is finite: for a file whose background covers the cadences of its
    flux the selection returns, and every background value of every
    cadence kept is finite, in whichever order the pixels of a cadence
    are added. *)
Theorem finite_bkg_cadences_all_finite tpf :
  summation prec emax add_reduce →
  length (flux_bkg tpf) = length (flux tpf) →
  ∃ tpf', finite_bkg_cadences add_reduce tpf = inr tpf'
    ∧ flux_bkg tpf' `sublist_of` flux_bkg tpf
    ∧ length (flux tpf') = length (flux_bkg tpf')
    ∧ (∀ t i j b, get3 (flux_bkg tpf') t i j = Some b → isfinite b = true).
Proof.
  intros Hadd Hlen. unfold finite_bkg_cadences, tpf_getitem, sum_axis12.
  rewrite !length_map, Hlen, Nat.eqb_refl. eexists. split; [reflexivity|].
  cbn [flux flux_bkg]. rewrite map_map.
  rewrite (compress_map (λ img, isfinite (image_sum add_reduce img))).
  split_and!; [apply sublist_filter| |].
  - rewrite <- (compress_map (λ img, isfinite (image_sum add_reduce img))).
    by apply length_compress_same.
  - intros t i j b Hb. apply get3_elem_of in Hb as (img & Himg & Hb).
    apply list_elem_of_lookup_2, list_elem_of_filter in Himg as [Hsum _].
    by eapply image_sum_finite_inv.
Qed.
End CadenceFacts.

Lemma finite_bkg_cadences_all_finite_witness :
  summation 24 128 sum32
  ∧ length (flux_bkg SampleCadences.tpf3) = length (flux SampleCadences.tpf3)
  ∧ ∃ tpf', finite_bkg_cadences sum32 SampleCadences.tpf3 = inr tpf'
      ∧ flux_bkg tpf' `sublist_of` flux_bkg SampleCadences.tpf3
      ∧ length (flux tpf') = length (flux_bkg tpf')
      ∧ (∀ t i j b, get3 (flux_bkg tpf') t i j = Some b → isfinite b = true).
Proof.
  split; [exact (reduce_in_order_summation 24 128)|]. split; [reflexivity|].
  apply (finite_bkg_cadences_all_finite 24 128 sum32
           SampleCadences.tpf3 (reduce_in_order_summation 24 128)).
  reflexivity.
Defined.

Section ComprehensionFacts.
Context {T U : Type} (f : T → result U).

(** A comprehension whose body may raise: it returns when the body
    returns on every item, with the results in order. *)
Lemma mapM_result_inv (l : list T) : ∀ ys,
  mapM f l = inr ys → Forall2 (λ x y, f x = inr y) l ys.
Proof.
  induction l as [|x l IH]; intros ys; cbn [mapM].
  - intros [= <-]. constructor.
  - destruct (f x) as [e|y] eqn:Hy; [done|]. cbn [mbind result_bind].
    destruct (mapM f l) as [e|ys']; [done|].
    cbn [mbind result_bind mret result_ret]. intros [= <-].
    constructor; [done|]. by apply IH.
Qed.

Lemma mapM_result_returns (l : list T) :
  Forall (λ x, ∃ y, f x = inr y) l → ∃ ys, mapM f l = inr ys.
Proof.
  induction 1 as [|x l [y Hy] _ [ys IH]]; cbn [mapM]; [by eexists|].
  rewrite Hy. cbn [mbind result_bind]. rewrite IH.
  cbn [mbind result_bind mret result_ret]. by eexists.
Qed.
End ComprehensionFacts.

Section UncorrFinite.
Variables prec emax : Z.
Variable add_reduce : list float → float.

Lemma get3_zip_with_inv (g : float → float → float) (c d : cube) t i j v :
  get3 (zip_with (zip_with (zip_with g)) c d) t i j = Some v →
  ∃ x y, get3 c t i j = Some x ∧ get3 d t i j = Some y ∧ v = g x y.
Proof.
  unfold get3. rewrite lookup_zip_with.
  destruct (c !! t) as [ci|]; [|done]. destruct (d !! t) as [di|]; [|done].
  cbn. rewrite lookup_zip_with.
  destruct (ci !! i) as [cr|]; [|done]. destruct (di !! i) as [dr|]; [|done].
  cbn. rewrite lookup_zip_with.
  destruct (cr !! j) as [x|]; [|done]. destruct (dr !! j) as [y|]; [|done].
  cbn. intros [= <-]. by exists x, y.
Qed.

(** X6: the two statements that build [tpfs_uncorr] always return one
    file per downloaded file; every flux value that is left is finite, is
    the corrected flux plus [nan_to_num] of the background of one cadence
    and pixel of the downloaded file, and that corrected flux is finite
    too, in whichever order the pixels of a cadence are added. *)
Theorem tpfs_uncorr_finite_values (tpfs : list TargetPixelFile) :
  summation prec emax add_reduce →
  ∃ res, tpfs_uncorr_finite prec emax add_reduce tpfs = inr res
    ∧ length res = length tpfs
    ∧ ∀ k tpf' t i j v,
        res !! k = Some tpf' → get3 (flux tpf') t i j = Some v →
        isfinite v = true
        ∧ ∃ tpf t0 f b, tpfs !! k = Some tpf
            ∧ get3 (flux tpf) t0 i j = Some f
            ∧ get3 (flux_bkg tpf) t0 i j = Some b
            ∧ v = SFadd prec emax f (nan_to_num prec emax b)
            ∧ isfinite f = true.
Proof.
  intros Hadd.
  destruct (mapM_result_returns (finite_flux_cadences add_reduce)
              (tpfs_uncorr prec emax tpfs)) as [res Hres].
  { apply Forall_forall. intros tpf _. eexists. apply finite_flux_cadences_eq. }
  exists res. split; [done|].
  apply mapM_result_inv in Hres.
  split.
  { apply Forall2_length in Hres. unfold tpfs_uncorr in Hres.
    by rewrite length_map in Hres. }
  intros k tpf' t i j v Hk Hv.
  destruct (Forall2_lookup_r _ _ _ _ _ Hres Hk) as (u & Hu & Hrun).
  unfold tpfs_uncorr in Hu. rewrite list_lookup_fmap in Hu.
  destruct (tpfs !! k) as [tpf|] eqn:Htpf; [|done]. injection Hu as <-.
  rewrite finite_flux_cadences_eq in Hrun. injection Hrun as <-.
  cbn [flux] in Hv.
  assert (isfinite v = true) as Hfin.
  { apply get3_elem_of in Hv as (img & Himg & Hv).
    apply list_elem_of_lookup_2, list_elem_of_filter in Himg as [Hsum _].
    by eapply image_sum_finite_inv. }
  split; [done|].
  unfold get3 in Hv.
  destruct (filter _ _ !! t) as [img|] eqn:Himg; [|done].
  apply list_elem_of_lookup_2, list_elem_of_filter in Himg as [_ Himg].
  apply list_elem_of_lookup_1 in Himg as [t0 Ht0].
  assert (get3 (flux (uncorr prec emax tpf)) t0 i j = Some v) as Hv0.
  { unfold get3. change (flux (uncorr prec emax tpf) !! t0 = Some img) in Ht0.
    by rewrite Ht0. }
  unfold uncorr, tpf_add in Hv0. cbn [flux] in Hv0.
  apply get3_zip_with_inv in Hv0 as (f & b' & Hf & Hb' & ->).
  rewrite get3_map in Hb'.
  destruct (get3 (flux_bkg tpf) t0 i j) as [b|] eqn:Hb; [|done].
  injection Hb' as <-.
  exists tpf, t0, f, b. split_and!; try done.
  by destruct (SFadd_finite_inv prec emax _ _ Hfin).
Qed.
End UncorrFinite.

(** * The pixels outside the aperture *)

Section FlatFacts.
Context {A : Type}.
Implicit Types (a : ndarray A).

Lemma concat_mjoin (ls : list (list A)) : concat ls = mjoin ls.
Proof. induction ls as [|l ls IH]; [done|]. cbn. by rewrite IH. Qed.

(** Entry [(i, j)] is at position [i * shape1 a + j] of the flat array. *)
Lemma flat_lookup a i j :
  wf_ndarray a → j < shape1 a →
  flat a !! (i * shape1 a + j) = get2 a i j.
Proof.
  intros [_ Hrows] Hj. unfold flat, get2. rewrite concat_mjoin.
  apply option_eq. intros x.
  rewrite (join_lookup_Some_same_length' (shape1 a)) by done.
  rewrite bind_Some. done.
Qed.

Lemma length_flat a : wf_ndarray a → length (flat a) = shape0 a * shape1 a.
Proof.
  intros [Hlen Hrows]. unfold flat. rewrite concat_mjoin, length_join.
  rewrite (sum_list_fmap_same (shape1 a)) by done. by rewrite Hlen.
Qed.

Lemma flat_array_map {B} (f : A → B) a : flat (array_map f a) = map f (flat a).
Proof. unfold flat, array_map. cbn [rows]. symmetry. apply concat_map. Qed.

(** A position of the flat array is the position of one entry. *)
Lemma flat_position r c p :
  p < r * c → p = p / c * c + p mod c ∧ p / c < r ∧ p mod c < c.
Proof.
  intros Hp. assert (c ≠ 0) as Hc by (intros ->; lia).
  pose proof (Nat.div_mod_eq p c). pose proof (Nat.mod_upper_bound p c Hc).
  split_and!; [lia| |done].
  apply Nat.Div0.div_lt_upper_bound. lia.
Qed.
End FlatFacts.

Section OutsideFacts.
Implicit Types (tpf : TargetPixelFile) (aper mask : ndarray bool).

(** The enlarged aperture has the shape of the mask and contains it. *)
Lemma bigger_aper_shape mask aper :
  wf_ndarray mask → bigger_aper mask = inr aper →
  wf_ndarray aper ∧ shape0 aper = shape0 mask ∧ shape1 aper = shape1 mask
  ∧ ∀ i j, get2 mask i j = Some true → get2 aper i j = Some true.
Proof.
  intros Hwf Hb.
  assert (2 ≤ shape0 mask ∧ 2 ≤ shape1 mask) as [Hr Hc].
  { destruct (decide (shape0 mask < 2 ∨ shape1 mask < 2)) as [Hs|Hs]; [|lia].
    by rewrite (bigger_aper_raises mask Hs) in Hb. }
  destruct (bigger_aper_spec mask Hwf Hr Hc) as (b' & Hb' & Hwfb & Hs0 & Hs1 & _).
  assert (b' = aper) as -> by congruence.
  split_and!; [done..|].
  destruct (bigger_aper_grows (mkTargetPixelFile [] [] mask) Hwf) as [_ Hsup].
  by destruct (Hsup aper Hb) as [Hin _].
Qed.

(** A pixel is outside the aperture when its position is listed. *)
Lemma elem_of_outside_positions aper i j :
  wf_ndarray aper → j < shape1 aper →
  i * shape1 aper + j ∈ outside_positions aper ↔ get2 aper i j = Some false.
Proof.
  intros Hwf Hj. unfold outside_positions.
  rewrite elem_of_where_true, Nat.sub_0_r, flat_array_map, list_lookup_fmap.
  rewrite flat_lookup by done. split.
  - intros [_ Hm]. destruct (get2 aper i j) as [[]|]; by try done.
  - intros ->. split; [lia|done].
Qed.

(** X7: the background pixels [tpf.flux[:, ~aper]], for the enlarged
    aperture of the file's pipeline mask and images of the shape of the
    mask: the selection returns one row per cadence and one column per
    pixel outside the aperture, in row-major order and each once; a
    column holds the flux of its pixel at every cadence, and no pixel of
    the pipeline mask is among them. *)
Theorem outside_pixels_avoid_mask tpf aper :
  wf_ndarray (pipeline_mask tpf) →
  bigger_aper (pipeline_mask tpf) = inr aper →
  Forall (image_has_shape (shape0 aper) (shape1 aper)) (flux tpf) →
  ∃ pixels, outside_pixels tpf aper = inr pixels
    ∧ wf_ndarray pixels
    ∧ shape0 pixels = length (flux tpf)
    ∧ shape1 pixels = length (outside_positions aper)
    ∧ (∀ k k' p p', k < k' →
         outside_positions aper !! k = Some p →
         outside_positions aper !! k' = Some p' → p < p')
    ∧ (∀ i j, get2 aper i j = Some false →
         i * shape1 aper + j ∈ outside_positions aper)
    ∧ (∀ k p, outside_positions aper !! k = Some p →
         ∃ i j, p = i * shape1 aper + j
           ∧ get2 aper i j = Some false
           ∧ get2 (pipeline_mask tpf) i j = Some false
           ∧ ∀ t, get2 pixels t k = get3 (flux tpf) t i j).
Proof.
  intros Hwfm Haper Himgs.
  destruct (bigger_aper_shape _ _ Hwfm Haper) as (Hwfa & Hs0 & Hs1 & Hsup).
  unfold outside_pixels. rewrite bool_decide_eq_true_2 by done.
  eexists. split; [reflexivity|].
  set (mask := flat (array_map negb aper)).
  assert (length mask = shape0 aper * shape1 aper) as Hmask.
  { unfold mask. rewrite flat_array_map, length_map. by apply length_flat. }
  assert (∀ img, img ∈ flux tpf →
            wf_ndarray (Ndarray (shape0 aper) (shape1 aper) img)) as Hwfi.
  { intros img Hin. rewrite Forall_forall in Himgs. exact (Himgs img Hin). }
  assert (∀ img, img ∈ flux tpf → length mask = length (concat img)) as Hlen.
  { intros img Hin. rewrite Hmask.
    exact (eq_sym (length_flat (Ndarray (shape0 aper) (shape1 aper) img)
                     (Hwfi img Hin))). }
  split_and!.
  - split; cbn [rows shape0 shape1]; [by rewrite length_map|].
    apply Forall_fmap, Forall_forall. intros img Hin. cbn.
    apply length_compress. by apply Hlen.
  - done.
  - done.
  - apply where_true_increasing.
  - intros i j Hij. destruct (get2_Some_lt _ _ _ _ Hwfa Hij) as [_ Hj].
    by apply elem_of_outside_positions.
  - intros k p Hk.
    assert (p < shape0 aper * shape1 aper) as Hp.
    { apply list_elem_of_lookup_2, elem_of_where_true in Hk as [_ Hk].
      apply lookup_lt_Some in Hk. fold mask in Hk. lia. }
    destruct (flat_position _ _ _ Hp) as (Hpeq & Hi & Hj).
    exists (p / shape1 aper), (p mod shape1 aper).
    assert (get2 aper (p / shape1 aper) (p mod shape1 aper) = Some false) as Hout.
    { apply elem_of_outside_positions; [done|done|].
      rewrite <- Hpeq. by eapply list_elem_of_lookup_2. }
    split_and!; [done|done| |].
    + destruct (get2_is_Some (pipeline_mask tpf) (p / shape1 aper)
                  (p mod shape1 aper)) as [b Hb]; [done|lia|lia|].
      destruct b; [|done]. apply Hsup in Hb. congruence.
    + intros t. unfold get2, get3. cbn [rows]. rewrite list_lookup_fmap.
      destruct (flux tpf !! t) as [img|] eqn:Himg; [|done]. cbn.
      assert (img ∈ flux tpf) as Hin by by eapply list_elem_of_lookup_2.
      change (concat (map (map negb) (rows aper))) with mask.
      rewrite (lookup_compress mask (concat img) 0 k p) by (by try apply Hlen).
      rewrite Nat.sub_0_r.
      pose proof (flat_lookup (Ndarray (shape0 aper) (shape1 aper) img)
                    (p / shape1 aper) (p mod shape1 aper) (Hwfi img Hin) Hj)
        as Hflat.
      cbn [shape1] in Hflat. rewrite <- Hpeq in Hflat. exact Hflat.
Qed.
End OutsideFacts.

Lemma outside_pixels_avoid_mask_witness :
  wf_ndarray (pipeline_mask SamplePixels.tpf23)
  ∧ bigger_aper (pipeline_mask SamplePixels.tpf23)
      = inr (Ndarray 2 3 [[true; true; true]; [false; true; false]])
  ∧ Forall (image_has_shape 2 3) (flux SamplePixels.tpf23)
  ∧ ∃ pixels,
      outside_pixels SamplePixels.tpf23
        (Ndarray 2 3 [[true; true; true]; [false; true; false]]) = inr pixels
      ∧ shape0 pixels = 2 ∧ shape1 pixels = 2.
Proof.
  assert (wf_ndarray (pipeline_mask SamplePixels.tpf23)) as Hwf
    by (split; [reflexivity|repeat constructor]).
  assert (bigger_aper (pipeline_mask SamplePixels.tpf23)
            = inr (Ndarray 2 3 [[true; true; true]; [false; true; false]]))
    as Haper by (by vm_compute).
  assert (Forall (image_has_shape 2 3) (flux SamplePixels.tpf23)) as Himgs
    by (repeat constructor).
  split; [exact Hwf|]. split; [exact Haper|]. split; [exact Himgs|].
  destruct (outside_pixels_avoid_mask SamplePixels.tpf23 _ Hwf Haper Himgs)
    as (pixels & Hp & _ & H0 & H1 & _).
  exists pixels. split; [exact Hp|]. split; [exact H0|exact H1].
Defined.

(** * Splitting at the data downlink *)

Section SplitFacts.
Implicit Types (time : list float).

Lemma np_diff_lookup time p :
  np_diff time !! p
    = x ← time !! p; y ← time !! (p + 1); Some (SFsub 53 1024 y x).
Proof.
  unfold np_diff. rewrite lookup_zip_with, lookup_drop.
  by replace (1 + p) with (p + 1) by lia.
Qed.

(** X8: the split points are exactly the indices [k] whose time lies
    more than [0.3] after the time before it; they are inside the array
    (never [0], never its length) and come in strictly increasing
    order. *)
Theorem split_points_are_gaps time :
  (∀ k, k ∈ split_points time ↔
          ∃ x y, 1 ≤ k ∧ time !! (k - 1) = Some x ∧ time !! k = Some y
                 ∧ SFltb f0_3 (SFsub 53 1024 y x) = true)
  ∧ (∀ k, k ∈ split_points time → 1 ≤ k < length time)
  ∧ (∀ n n' k k', n < n' →
       split_points time !! n = Some k → split_points time !! n' = Some k' →
       k < k').
Proof.
  assert (∀ k, k ∈ split_points time ↔
            ∃ x y, 1 ≤ k ∧ time !! (k - 1) = Some x ∧ time !! k = Some y
                   ∧ SFltb f0_3 (SFsub 53 1024 y x) = true) as Hin.
  { intros k. unfold split_points. rewrite list_elem_of_fmap. split.
    - intros (p & -> & Hp). apply elem_of_where_true in Hp as [_ Hp].
      rewrite Nat.sub_0_r, list_lookup_fmap, np_diff_lookup in Hp.
      replace (p + 1 - 1) with p by lia.
      destruct (time !! p) as [x|]; [|done].
      destruct (time !! (p + 1)) as [y|]; [|done].
      cbn in Hp. exists x, y. split_and!; [lia|done|done|congruence].
    - intros (x & y & Hk & Hx & Hy & Hgap). exists (k - 1). split; [lia|].
      apply elem_of_where_true. split; [lia|].
      rewrite Nat.sub_0_r, list_lookup_fmap, np_diff_lookup, Hx.
      replace (k - 1 + 1) with k by lia. rewrite Hy. cbn. by rewrite Hgap. }
  split; [exact Hin|]. split.
  - intros k (x & y & Hk & _ & Hy & _)%Hin. apply lookup_lt_Some in Hy. lia.
  - intros n n' k k' Hn. unfold split_points. rewrite !list_lookup_fmap.
    destruct (where_true _ 0 !! n) as [p|] eqn:Hp; [|done].
    destruct (where_true _ 0 !! n') as [p'|] eqn:Hp'; [|done].
    cbn. intros [= <-] [= <-].
    pose proof (where_true_increasing _ _ _ _ _ _ Hn Hp Hp'). lia.
Qed.
End SplitFacts.

(** * More about pruning: pruning twice, and the priors *)

Section PruneMore.
Variables prec emax : Z.
Variables add_reduce add_reduce' : list float → float.
Implicit Types (a : ndarray float).

(** Selecting with a mask that is set everywhere keeps everything. *)
Lemma compress_all {A} (l : list A) : compress (replicate (length l) true) l = l.
Proof. induction l as [|x l IH]; [done|]. cbn. by rewrite IH. Qed.

Lemma length_where_true_all n : ∀ s, length (where_true (replicate n true) s) = n.
Proof. induction n as [|n IH]; intros s; [done|]. cbn. by rewrite IH. Qed.

Lemma take_columns_all {A} (a : ndarray A) :
  wf_ndarray a → take_columns a (replicate (shape1 a) true) = inr a.
Proof.
  intros [_ Hrows]. unfold take_columns.
  rewrite length_replicate, Nat.eqb_refl.
  cbn [mbind result_bind mret result_ret]. rewrite length_where_true_all.
  f_equal. destruct a as [r c rs]. cbn [shape0 shape1 rows] in *. f_equal.
  induction Hrows as [|row rs Hrow _ IH]; [done|].
  cbn [map]. rewrite IH. f_equal. rewrite <- Hrow. apply compress_all.
Qed.

(** X9: for a spline matrix without negative entry and without NaN,
    pruning does not depend on the order in which [np.add.reduce] adds a
    column, and it is idempotent: pruning the pruned matrix again, be it
    with sums taken in another order, returns it unchanged. *)
Theorem prune_star_dm_idempotent (star_dm : DesignMatrix float) :
  (0 < prec)%Z →
  summation prec emax add_reduce → summation prec emax add_reduce' →
  wf_ndarray (X star_dm) →
  (∀ i j x, get2 (X star_dm) i j = Some x → nonnegative prec emax x = true) →
  ∃ pruned, prune_star_dm add_reduce star_dm = inr pruned
    ∧ prune_star_dm add_reduce' star_dm = inr pruned
    ∧ prune_star_dm add_reduce' pruned = inr pruned.
Proof.
  intros Hprec Hsum Hsum' Hwf Hpos.
  assert (∀ r, summation prec emax r → ∀ j,
            nonzero (r (column (X star_dm) j)) = true
              ↔ ¬ all_zero (column (X star_dm) j)) as Hnz.
  { intros r Hr j. apply (adds_up_nonnegative prec emax Hprec); [|done].
    apply Forall_forall. intros x [i Hx]%elem_of_column. by eapply Hpos. }
  assert (map nonzero (sum_axis0 add_reduce' (X star_dm))
            = map nonzero (sum_axis0 add_reduce (X star_dm))) as Hmask.
  { unfold sum_axis0. rewrite <- !list_fmap_compose.
    apply list_fmap_ext. intros k j _. cbn.
    apply eq_true_iff_eq. by rewrite !Hnz. }
  destruct (take_columns_kept add_reduce (X star_dm) Hwf)
    as (ap & Hap & Hwfp & Hs0 & Hs1 & Hcols).
  unfold prune_star_dm at 1 2. rewrite Hmask, Hap.
  cbn [mbind result_bind mret result_ret]. eexists. split_and!; [done..|].
  unfold prune_star_dm, new_DesignMatrix. cbn [X].
  assert (map nonzero (sum_axis0 add_reduce' ap) = replicate (shape1 ap) true)
    as ->.
  { symmetry. apply replicate_as_Forall. split.
    { by rewrite length_map, length_sum_axis0. }
    apply Forall_lookup. intros k b Hb. rewrite list_lookup_fmap in Hb.
    destruct (sum_axis0 add_reduce' ap !! k) as [x|] eqn:Hx; [|done].
    assert (k < shape1 ap) as Hk.
    { apply lookup_lt_Some in Hx. by rewrite length_sum_axis0 in Hx. }
    rewrite lookup_sum_axis0 in Hx by done. injection Hx as <-.
    injection Hb as <-.
    rewrite Hs1 in Hk. destruct (lookup_lt_is_Some_2 _ _ Hk) as [j Hj].
    destruct (Hcols k j Hj) as [-> _].
    apply list_elem_of_lookup_2, elem_of_kept_columns in Hj as [_ Hj].
    symmetry. apply (Hnz add_reduce' Hsum'). by apply (Hnz add_reduce Hsum). }
  by rewrite take_columns_all.
Qed.
End PruneMore.

Section SplinePriors.
Variable add_reduce : list float → float.

(** X10: after pruning and resetting the priors, the spline design
    matrix has one prior mean and one prior standard deviation per
    retained column; every prior mean is [0.0] and every prior standard
    deviation is [0.001]; the array and the name are those of the pruned
    matrix. *)
Theorem reset_priors_after_prune (star_dm : DesignMatrix float) :
  wf_ndarray (X star_dm) →
  ∃ pruned, prune_star_dm add_reduce star_dm = inr pruned
    ∧ X (reset_priors pruned) = X pruned
    ∧ name (reset_priors pruned) = "spline"
    ∧ length (prior_mu (reset_priors pruned))
        = length (kept_columns add_reduce (X star_dm))
    ∧ length (prior_sigma (reset_priors pruned))
        = length (kept_columns add_reduce (X star_dm))
    ∧ (shape (reset_priors pruned)).2 = length (kept_columns add_reduce (X star_dm))
    ∧ Forall (λ m, m = fzero) (prior_mu (reset_priors pruned))
    ∧ Forall (λ sg, sg = f0_001) (prior_sigma (reset_priors pruned)).
Proof.
  intros Hwf.
  destruct (take_columns_kept add_reduce (X star_dm) Hwf)
    as (ap & Hap & _ & _ & Hs1 & _).
  unfold prune_star_dm. rewrite Hap. cbn [mbind result_bind mret result_ret].
  eexists. split; [reflexivity|].
  unfold reset_priors, new_DesignMatrix, shape.
  cbn [X name prior_mu prior_sigma snd].
  rewrite !length_map, !length_replicate.
  split_and!; try done.
  - apply Forall_fmap, Forall_forall. by intros.
  - apply Forall_fmap, Forall_fmap, Forall_forall. by intros.
Qed.
End SplinePriors.

Lemma prune_star_dm_idempotent_witness :
  (0 < 53)%Z
  ∧ summation 53 1024 sum64
  ∧ wf_ndarray (X SampleSpline.knots_dm)
  ∧ (∀ i j x, get2 (X SampleSpline.knots_dm) i j = Some x →
       nonnegative 53 1024 x = true)
  ∧ ∃ pruned,
      prune_star_dm sum64 SampleSpline.knots_dm = inr pruned
      ∧ X pruned = Ndarray 3 2 [[f64 1; fzero]; [f64 3; f64 2]; [fzero; f64 5]]
      ∧ prune_star_dm sum64 pruned = inr pruned.
Proof.
  assert (wf_ndarray (X SampleSpline.knots_dm)) as Hwf
    by (split; [reflexivity|repeat constructor]).
  assert (∀ i j x, get2 (X SampleSpline.knots_dm) i j = Some x →
            nonnegative 53 1024 x = true) as Hpos.
  { intros [|[|[|i]]] [|[|[|[|j]]]] x Hx; try discriminate Hx;
      injection Hx as <-; reflexivity. }
  split; [reflexivity|]. split; [exact (reduce_in_order_summation 53 1024)|].
  split; [exact Hwf|]. split; [exact Hpos|].
  destruct (prune_star_dm_idempotent 53 1024 sum64
              sum64 SampleSpline.knots_dm eq_refl
              (reduce_in_order_summation 53 1024)
              (reduce_in_order_summation 53 1024) Hwf Hpos)
    as (pruned & Hp & _ & Hpp).
  exists pruned. split; [exact Hp|]. split; [|exact Hpp].
  assert (inr pruned
          = prune_star_dm sum64 SampleSpline.knots_dm) as Heq
    by (by rewrite Hp).
  vm_compute in Heq. injection Heq as ->. reflexivity.
Defined.

Lemma reset_priors_after_prune_witness :
  wf_ndarray (X SampleSpline.star_dm)
  ∧ ∃ pruned,
      prune_star_dm sum64 SampleSpline.star_dm = inr pruned
      ∧ prior_mu (reset_priors pruned) = [fzero]
      ∧ prior_sigma (reset_priors pruned) = [f0_001].
Proof.
  assert (wf_ndarray (X SampleSpline.star_dm)) as Hwf
    by (split; [reflexivity|repeat constructor]).
  split; [exact Hwf|].
  destruct (reset_priors_after_prune sum64
              SampleSpline.star_dm Hwf)
    as (pruned & Hp & _).
  exists pruned. split; [exact Hp|].
  assert (inr pruned
          = prune_star_dm sum64 SampleSpline.star_dm) as Heq
    by (by rewrite Hp).
  vm_compute in Heq. injection Heq as ->. split; reflexivity.
Defined.

(** * More about the enlarged aperture *)

Section ApertureMore.
Implicit Types (mask aper : ndarray bool).

(** X11: which pixels the enlarged aperture holds.  For a mask with at
    least two rows and two columns the aperture has the shape of the
    mask, and a pixel is in it exactly when it is in the mask, or the
    two mask entries that the gradient reads along its column differ, or
    the two it reads along its row differ (the entries at [lower] and
    [upper]: the two neighbours inside the array, the pixel and its one
    neighbour at an end).  So an aperture of an empty mask is empty. *)
Theorem bigger_aper_membership mask :
  wf_ndarray mask → 2 ≤ shape0 mask → 2 ≤ shape1 mask →
  ∃ aper, bigger_aper mask = inr aper
    ∧ shape0 aper = shape0 mask ∧ shape1 aper = shape1 mask
    ∧ (∀ i j, i < shape0 mask → j < shape1 mask →
         get2 aper i j = Some true ↔
           get2 mask i j = Some true
           ∨ get2 mask (upper (shape0 mask) i) j ≠ get2 mask (lower (shape0 mask) i) j
           ∨ get2 mask i (upper (shape1 mask) j) ≠ get2 mask i (lower (shape1 mask) j))
    ∧ ((∀ i j, get2 mask i j ≠ Some true) → ∀ i j, get2 aper i j ≠ Some true).
Proof.
  intros Hwf Hr Hc.
  destruct (bigger_aper_spec mask Hwf Hr Hc) as (aper & Ha & Hwfa & Hs0 & Hs1 & Hget0).
  set (m := λ i j, default false (get2 mask i j)).
  assert (∀ i j, i < shape0 mask → j < shape1 mask →
            get2 aper i j =
              Some ((xorb (m (upper (shape0 mask) i) j) (m (lower (shape0 mask) i) j)
                     || xorb (m i (upper (shape1 mask) j)) (m i (lower (shape1 mask) j)))
                    || m i j)) as Hget by exact Hget0.
  clear Hget0.
  assert (∀ i j, i < shape0 mask → j < shape1 mask →
            get2 mask i j = Some (m i j)) as Hm.
  { intros i j Hi Hj. unfold m.
    by destruct (get2_is_Some mask i j) as [x ->]. }
  assert (∀ i j, i < shape0 mask → j < shape1 mask →
            get2 aper i j = Some true ↔
              get2 mask i j = Some true
              ∨ get2 mask (upper (shape0 mask) i) j ≠ get2 mask (lower (shape0 mask) i) j
              ∨ get2 mask i (upper (shape1 mask) j) ≠ get2 mask i (lower (shape1 mask) j))
    as Hiff.
  { intros i j Hi Hj.
    destruct (upper_lower_lt _ i Hr Hi) as [Hu Hl].
    destruct (upper_lower_lt _ j Hc Hj) as [Hu' Hl'].
    rewrite Hget by done. rewrite !Hm by done.
    destruct (m i j), (m (upper (shape0 mask) i) j), (m (lower (shape0 mask) i) j),
      (m i (upper (shape1 mask) j)), (m i (lower (shape1 mask) j));
      cbn; split; try (intros _; by eauto); try done;
      intros [|[|]]; congruence. }
  exists aper. split_and!; [done..|].
  intros Hempty i j Hij.
  destruct (get2_Some_lt _ _ _ _ Hwfa Hij) as [Hi Hj].
  rewrite Hs0 in Hi. rewrite Hs1 in Hj.
  destruct (upper_lower_lt _ i Hr Hi) as [Hu Hl].
  destruct (upper_lower_lt _ j Hc Hj) as [Hu' Hl'].
  assert (∀ i j, i < shape0 mask → j < shape1 mask →
            get2 mask i j = Some false) as Hfalse.
  { intros i' j' Hi' Hj'. rewrite Hm by done.
    destruct (m i' j') eqn:E; [|done]. destruct (Hempty i' j'). by rewrite Hm, E. }
  apply Hiff in Hij as [Hin|[Hd|Hd]]; [| | |done|done].
  - by apply (Hempty i j).
  - by rewrite !Hfalse in Hd.
  - by rewrite !Hfalse in Hd.
Qed.

Lemma bigger_aper_raise_inv mask e : bigger_aper mask = inl e → e = ValueError.
Proof.
  unfold bigger_aper, np_gradient.
  destruct (_ <? 2); [by intros [= <-]|]. destruct (_ <? 2); [by intros [= <-]|].
  done.
Qed.

(** X12: a pipeline mask with a single row or a single column makes
    [np.gradient] raise, and one such file makes the whole comprehension
    that builds [bigger_apers] raise [ValueError]. *)
Theorem bigger_apers_raise_on_thin_mask (tpfs : list TargetPixelFile) :
  Exists (λ tpf, shape0 (pipeline_mask tpf) < 2 ∨ shape1 (pipeline_mask tpf) < 2)
    tpfs →
  bigger_apers tpfs = raise ValueError.
Proof.
  unfold bigger_apers. induction 1 as [tpf tpfs Hthin|tpf tpfs _ IH]; cbn [mapM].
  - by rewrite (bigger_aper_raises _ Hthin).
  - destruct (bigger_aper (pipeline_mask tpf)) as [e|b] eqn:Hb.
    + by rewrite (bigger_aper_raise_inv _ _ Hb).
    + cbn [mbind result_bind]. by rewrite IH.
Qed.
End ApertureMore.

Lemma bigger_aper_membership_witness :
  wf_ndarray SampleMask.mask1 ∧ 2 ≤ shape0 SampleMask.mask1
  ∧ 2 ≤ shape1 SampleMask.mask1
  ∧ ∃ aper, bigger_aper SampleMask.mask1 = inr aper
      ∧ shape0 aper = 4 ∧ shape1 aper = 5
      ∧ (get2 aper 0 2 = Some true ↔
           get2 SampleMask.mask1 0 2 = Some true
           ∨ get2 SampleMask.mask1 1 2 ≠ get2 SampleMask.mask1 0 2
           ∨ get2 SampleMask.mask1 0 3 ≠ get2 SampleMask.mask1 0 1).
Proof.
  assert (wf_ndarray SampleMask.mask1) as Hwf
    by (split; [reflexivity|repeat constructor]).
  assert (2 ≤ shape0 SampleMask.mask1) as Hr by (cbn; lia).
  assert (2 ≤ shape1 SampleMask.mask1) as Hc by (cbn; lia).
  split; [exact Hwf|]. split; [exact Hr|]. split; [exact Hc|].
  destruct (bigger_aper_membership SampleMask.mask1 Hwf Hr Hc)
    as (aper & Ha & H0 & H1 & Hiff & _).
  exists aper. split; [exact Ha|]. split; [exact H0|]. split; [exact H1|].
  apply (Hiff 0 2); cbn; lia.
Defined.

Lemma bigger_apers_raise_on_thin_mask_witness :
  Exists (λ tpf, shape0 (pipeline_mask tpf) < 2 ∨ shape1 (pipeline_mask tpf) < 2)
    [SampleMask.tpf_mask1; SampleCadences.tpf3]
  ∧ bigger_apers [SampleMask.tpf_mask1; SampleCadences.tpf3] = raise ValueError.
Proof.
  assert (Exists (λ tpf, shape0 (pipeline_mask tpf) < 2
                         ∨ shape1 (pipeline_mask tpf) < 2)
            [SampleMask.tpf_mask1; SampleCadences.tpf3]) as Hex
    by (apply Exists_cons_tl, Exists_cons_hd; left; cbn; lia).
  split; [exact Hex|]. exact (bigger_apers_raise_on_thin_mask _ Hex).
Defined.

(** * More about the flux-error fix *)

Section FluxErrMore.
Variables prec emax : Z.
Variable add_reduce : list float → float.

(** The fix does nothing to a list of finite values. *)
Lemma fix_map_finite (med : float) (l : list float) :
  Forall (λ x, isfinite x = true) l →
  map (λ x, if isfinite x then x else med) l = l.
Proof.
  induction 1 as [|x l Hx _ IH]; [done|]. cbn [map]. by rewrite Hx, IH.
Qed.

(** X13: the fix cannot repair a light curve without any number among
    its flux errors: when every flux error is NaN (or there is none) the
    nanmedian is NaN and the light curve is left exactly as it is. *)
Theorem fix_flux_err_all_nan (lc : Lc.LightCurve) :
  Forall (λ x, isnan x = true) (Lc.flux_err lc) →
  np_nanmedian prec emax add_reduce (Lc.flux_err lc) = S754_nan
  ∧ fix_flux_err prec emax add_reduce lc = lc.
Proof.
  intros Hnan.
  assert (filter (λ x, isnan x = false) (Lc.flux_err lc) = []) as Hfilter.
  { induction Hnan as [|x l Hx _ IH]; [done|].
    rewrite filter_cons, decide_False by congruence. done. }
  assert (np_nanmedian prec emax add_reduce (Lc.flux_err lc) = S754_nan) as Hmed
    by (unfold np_nanmedian; by rewrite Hfilter).
  split; [done|]. unfold fix_flux_err. rewrite Hmed.
  destruct lc as [tm fl fe]. cbn [Lc.time Lc.flux Lc.flux_err] in *. f_equal.
  clear Hfilter Hmed. induction Hnan as [|x l Hx _ IH]; [done|].
  cbn [map]. rewrite IH. by destruct x.
Qed.

(** X14: when the nanmedian of the flux errors is finite, the fix is
    idempotent: the fixed light curve has finite flux errors only, and
    fixing it again changes nothing. *)
Theorem fix_flux_err_idempotent (lc : Lc.LightCurve) :
  isfinite (np_nanmedian prec emax add_reduce (Lc.flux_err lc)) = true →
  Forall (λ x, isfinite x = true)
    (Lc.flux_err (fix_flux_err prec emax add_reduce lc))
  ∧ fix_flux_err prec emax add_reduce (fix_flux_err prec emax add_reduce lc)
      = fix_flux_err prec emax add_reduce lc.
Proof.
  intros Hmed.
  assert (Forall (λ x, isfinite x = true)
            (Lc.flux_err (fix_flux_err prec emax add_reduce lc))) as Hfin.
  { unfold fix_flux_err. cbn [Lc.flux_err]. apply Forall_fmap, Forall_forall.
    intros x _. cbn. by destruct (isfinite x) eqn:Hx. }
  split; [done|].
  unfold fix_flux_err at 1. rewrite fix_map_finite by done.
  by destruct (fix_flux_err prec emax add_reduce lc).
Qed.
End FluxErrMore.

Lemma fix_flux_err_all_nan_witness :
  Forall (λ x, isnan x = true) [S754_nan; S754_nan]
  ∧ np_nanmedian 53 1024 sum64 [S754_nan; S754_nan] = S754_nan
  ∧ fix_flux_err 53 1024 sum64 (Lc.mkLightCurve [f64 1; f64 2] [f64 1; f64 1]
                            [S754_nan; S754_nan])
      = Lc.mkLightCurve [f64 1; f64 2] [f64 1; f64 1] [S754_nan; S754_nan].
Proof.
  assert (Forall (λ x, isnan x = true) [S754_nan; S754_nan]) as Hnan
    by (repeat constructor).
  split; [exact Hnan|].
  exact (fix_flux_err_all_nan 53 1024 sum64
           (Lc.mkLightCurve [f64 1; f64 2] [f64 1; f64 1] [S754_nan; S754_nan])
           Hnan).
Defined.

Lemma fix_flux_err_idempotent_witness :
  isfinite (np_nanmedian 53 1024 sum64 (Lc.flux_err SampleLc.lc_small)) = true
  ∧ Forall (λ x, isfinite x = true)
      (Lc.flux_err (fix_flux_err 53 1024 sum64 SampleLc.lc_small))
  ∧ fix_flux_err 53 1024 sum64 (fix_flux_err 53 1024 sum64 SampleLc.lc_small)
      = fix_flux_err 53 1024 sum64 SampleLc.lc_small.
Proof.
  split; [reflexivity|].
  apply (fix_flux_err_idempotent 53 1024 sum64 SampleLc.lc_small). reflexivity.
Defined.

(** Without a finite nanmedian the fix need not be idempotent: the
    infinity that the first pass writes takes part in the second
    median. *)
Example fix_flux_err_twice_differs :
  Lc.flux_err (fix_flux_err 53 1024 sum64 SampleLc.lc_big)
    = [SampleLc.big; S754_infinity false; SampleLc.big]
  ∧ Lc.flux_err (fix_flux_err 53 1024 sum64 (fix_flux_err 53 1024 sum64 SampleLc.lc_big))
      = [SampleLc.big; SampleLc.big; SampleLc.big].
Proof. split; by vm_compute. Qed.

(** * Setting the priors of the offset terms *)

Section OffsetPriors.
Local Abbreviation heap := (gmap loc (cell float)).
Implicit Types (h : heap) (l arr : loc) (bkgs : list loc)
  (dm : DesignMatrix float).

Lemma run_setitem_last_st h arr (a : list float) v :
  h !! arr = Some (CArr1 a) → a ≠ [] →
  setitem_last_st arr v h
    = (inr (), <[arr := CArr1 (<[length a - 1 := v]> a)]> h).
Proof.
  intros Harr Hne. unfold setitem_last_st.
  rewrite (run_bind _ _ _ _ _ (run_load_arr1 _ _ _ Harr)).
  destruct a as [|x a]; [done|]. cbn [setitem_last].
  erewrite run_bind; [|reflexivity]. reflexivity.
Qed.

Lemma run_dm_prior_mu_ref h l x mu sg nm :
  h !! l = Some (CDm x mu sg nm) → dm_prior_mu_ref l h = (inr mu, h).
Proof.
  intros Hl. unfold dm_prior_mu_ref.
  by rewrite (run_bind _ _ _ _ _ (run_load_dm _ _ _ _ _ _ Hl)).
Qed.

Lemma run_dm_prior_sigma_ref h l x mu sg nm :
  h !! l = Some (CDm x mu sg nm) → dm_prior_sigma_ref l h = (inr sg, h).
Proof.
  intros Hl. unfold dm_prior_sigma_ref.
  by rewrite (run_bind _ _ _ _ _ (run_load_dm _ _ _ _ _ _ Hl)).
Qed.

(** Writing a 1-D array that is no prior array of the design matrix at
    [l] leaves that design matrix as it is. *)
Lemma deref_insert_arr1 h l dm l0 (v0 v : list float) :
  deref h l = Some dm → h !! l0 = Some (CArr1 v0) →
  l0 ∉ prior_cells_of h l →
  deref (<[l0 := CArr1 v]> h) l = Some dm
  ∧ prior_cells_of (<[l0 := CArr1 v]> h) l = prior_cells_of h l.
Proof.
  intros Hd Hl0 Hnot.
  destruct (deref_inv _ _ _ Hd) as (x & mu & sg & Hl & Hx & Hmu & Hsg).
  unfold prior_cells_of in Hnot. rewrite Hl in Hnot.
  apply not_elem_of_cons in Hnot as [Hne1 Hnot].
  apply not_elem_of_cons in Hnot as [Hne2 _].
  assert (l0 ≠ l) by congruence. assert (l0 ≠ x) by congruence.
  unfold deref, prior_cells_of. rewrite (lookup_insert_ne h l0 l) by done.
  rewrite Hl. rewrite !lookup_insert_ne by done.
  rewrite Hx, Hmu, Hsg. by destruct dm.
Qed.

(** The prior arrays of design matrices are 1-D arrays. *)
Lemma prior_cells_arr1 h bkgs (vs : list (DesignMatrix float)) l :
  Forall2 (λ l dm, deref h l = Some dm) bkgs vs →
  l ∈ prior_cells h bkgs → ∃ v, h !! l = Some (CArr1 v).
Proof.
  intros Hrep. unfold prior_cells. rewrite list_elem_of_bind.
  intros (bkg & Hl & Hbkg).
  apply list_elem_of_lookup_1 in Hbkg as [k Hk].
  destruct (Forall2_lookup_l _ _ _ _ _ Hrep Hk) as (dm & _ & Hd).
  destruct (deref_inv _ _ _ Hd) as (x & mu & sg & Hb & _ & Hmu & Hsg).
  unfold prior_cells_of in Hl. rewrite Hb in Hl.
  apply elem_of_cons in Hl as [->|Hl]; [eauto|].
  apply elem_of_cons in Hl as [->|Hl]; [eauto|]. by apply elem_of_nil in Hl.
Qed.

Lemma prior_cells_cons h l bkgs :
  prior_cells h (l :: bkgs) = prior_cells_of h l ++ prior_cells h bkgs.
Proof. reflexivity. Qed.

(** Design matrices whose prior arrays are not written stay as they
    are, and so do their prior arrays. *)
Lemma rep_insert_arr1 h bkgs (vs : list (DesignMatrix float)) l0 (v0 v : list float) :
  Forall2 (λ l dm, deref h l = Some dm) bkgs vs →
  h !! l0 = Some (CArr1 v0) → l0 ∉ prior_cells h bkgs →
  Forall2 (λ l dm, deref (<[l0 := CArr1 v]> h) l = Some dm) bkgs vs
  ∧ prior_cells (<[l0 := CArr1 v]> h) bkgs = prior_cells h bkgs.
Proof.
  intros Hrep Hl0. induction Hrep as [|l dm bkgs vs Hd _ IH]; [done|].
  rewrite !prior_cells_cons. intros [Hn1 Hn2]%not_elem_of_app.
  destruct (deref_insert_arr1 _ _ _ _ _ v Hd Hl0 Hn1) as [Hd' Hc'].
  destruct (IH Hn2) as [Hrep' Hcs']. split; [by constructor|].
  by rewrite Hc', Hcs'.
Qed.

(** X15: the loop that sets the priors of the offset terms, run on
    design matrices that each have at least one component and own their
    prior arrays (no array is shared): it returns; afterwards every
    design matrix of the list has prior mean [1.0] and prior standard
    deviation [0.1] on its last component and is otherwise as before;
    only the prior arrays of the list are written. *)
Theorem set_offset_priors_sets_last bkgs : ∀ (vs : list (DesignMatrix float)) h,
  Forall2 (λ l dm, deref h l = Some dm) bkgs vs →
  Forall (λ dm, prior_mu dm ≠ [] ∧ prior_sigma dm ≠ []) vs →
  NoDup (prior_cells h bkgs) →
  ∃ h', set_offset_priors bkgs h = (inr (), h')
    ∧ Forall2 (λ l dm, deref h' l = Some (with_offset_priors dm)) bkgs vs
    ∧ (∀ l, l ∉ prior_cells h bkgs → h' !! l = h !! l).
Proof.
  induction bkgs as [|bkg bkgs IH]; intros vs h Hrep Hne Hsep.
  { apply Forall2_nil_inv_l in Hrep as ->. exists h. by repeat split. }
  apply Forall2_cons_inv_l in Hrep as (dm & vs' & Hd & Hrep & ->).
  apply Forall_cons in Hne as [[Hmune Hsgne] Hne].
  destruct (deref_inv _ _ _ Hd) as (x & mu & sg & Hb & Hx & Hmu & Hsg).
  rewrite prior_cells_cons in Hsep. unfold prior_cells_of in Hsep at 1.
  rewrite Hb in Hsep. cbn [app] in Hsep.
  apply NoDup_cons in Hsep as [Hmu_not Hsep].
  apply NoDup_cons in Hsep as [Hsg_not Hsep].
  apply not_elem_of_cons in Hmu_not as [Hmusg Hmu_not].
  set (mu' := <[length (prior_mu dm) - 1 := f64 1]> (prior_mu dm)).
  set (sg' := <[length (prior_sigma dm) - 1 := f0_1]> (prior_sigma dm)).
  set (h1 := <[mu := CArr1 mu']> h).
  set (h2 := <[sg := CArr1 sg']> h1).
  assert (mu ≠ bkg ∧ mu ≠ x ∧ sg ≠ bkg ∧ sg ≠ x) as (? & ? & ? & ?)
    by (split_and!; congruence).
  assert (h1 !! sg = Some (CArr1 (prior_sigma dm))) as Hsg1
    by (unfold h1; by rewrite lookup_insert_ne).
  (* the rest of the list is untouched by the two writes *)
  destruct (rep_insert_arr1 h bkgs vs' mu _ mu' Hrep Hmu Hmu_not)
    as [Hrep1 Hcells1].
  fold h1 in Hrep1, Hcells1.
  destruct (rep_insert_arr1 h1 bkgs vs' sg _ sg' Hrep1 Hsg1)
    as [Hrep2 Hcells2]; [by rewrite Hcells1|].
  fold h2 in Hrep2, Hcells2.
  destruct (IH vs' h2 Hrep2 Hne) as (h' & Hrun & Hrep' & Hframe).
  { by rewrite Hcells2, Hcells1. }
  rewrite Hcells2, Hcells1 in Hframe.
  exists h'. split_and!.
  - cbn [set_offset_priors].
    rewrite (run_bind _ _ _ _ _ (run_dm_prior_mu_ref _ _ _ _ _ _ Hb)).
    rewrite (run_bind _ _ _ _ _ (run_setitem_last_st _ _ _ (f64 1) Hmu Hmune)).
    fold mu' h1.
    assert (h1 !! bkg = Some (CDm x mu sg (name dm))) as Hb1
      by (unfold h1; by rewrite lookup_insert_ne).
    rewrite (run_bind _ _ _ _ _ (run_dm_prior_sigma_ref _ _ _ _ _ _ Hb1)).
    rewrite (run_bind _ _ _ _ _ (run_setitem_last_st _ _ _ f0_1 Hsg1 Hsgne)).
    exact Hrun.
  - constructor; [|done].
    assert (∀ l c, l ∉ prior_cells h bkgs → h2 !! l = Some c → h' !! l = Some c)
      as Hkeep.
    { intros l c Hl Hc. by rewrite Hframe. }
    assert ((bkg ∉ prior_cells h bkgs) ∧ (x ∉ prior_cells h bkgs)) as [Hbn Hxn].
    { split; intros Hin;
        destruct (prior_cells_arr1 _ _ _ _ Hrep Hin) as [v Hv]; congruence. }
    unfold deref.
    rewrite (Hkeep bkg (CDm x mu sg (name dm))); [|done|].
    2:{ unfold h2, h1. by rewrite !lookup_insert_ne. }
    rewrite (Hkeep x (CArr2 (X dm))); [|done|].
    2:{ unfold h2, h1. by rewrite !lookup_insert_ne. }
    rewrite (Hkeep mu (CArr1 mu')); [|done|].
    2:{ unfold h2, h1. rewrite lookup_insert_ne by done. apply lookup_insert_eq. }
    rewrite (Hkeep sg (CArr1 sg')); [|done|].
    2:{ unfold h2. apply lookup_insert_eq. }
    done.
  - intros l Hl. rewrite prior_cells_cons in Hl. unfold prior_cells_of in Hl.
    rewrite Hb in Hl. cbn [app] in Hl.
    apply not_elem_of_cons in Hl as [Hl1 Hl].
    apply not_elem_of_cons in Hl as [Hl2 Hl].
    rewrite Hframe by done. unfold h2, h1. by rewrite !lookup_insert_ne.
Qed.
End OffsetPriors.

Lemma set_offset_priors_sets_last_witness :
  Forall2 (λ l dm, deref SampleBkg.hb l = Some dm)
    [1%positive; 5%positive] [SampleBkg.bkg1; SampleBkg.bkg2]
  ∧ Forall (λ dm, prior_mu dm ≠ [] ∧ prior_sigma dm ≠ [])
      [SampleBkg.bkg1; SampleBkg.bkg2]
  ∧ NoDup (prior_cells SampleBkg.hb [1%positive; 5%positive])
  ∧ ∃ h', set_offset_priors [1%positive; 5%positive] SampleBkg.hb = (inr (), h')
      ∧ Forall2 (λ l dm, deref h' l = Some (with_offset_priors dm))
          [1%positive; 5%positive] [SampleBkg.bkg1; SampleBkg.bkg2]
      ∧ (∀ l, l ∉ prior_cells SampleBkg.hb [1%positive; 5%positive] →
           h' !! l = SampleBkg.hb !! l).
Proof.
  assert (Forall2 (λ l dm, deref SampleBkg.hb l = Some dm)
            [1%positive; 5%positive] [SampleBkg.bkg1; SampleBkg.bkg2]) as Hrep
    by (repeat constructor).
  assert (Forall (λ dm, prior_mu dm ≠ [] ∧ prior_sigma dm ≠ [])
            [SampleBkg.bkg1; SampleBkg.bkg2]) as Hne
    by (repeat constructor; discriminate).
  assert (NoDup (prior_cells SampleBkg.hb [1%positive; 5%positive])) as Hsep.
  { change (NoDup [3%positive; 4%positive; 7%positive; 8%positive]).
    apply (bool_decide_unpack _). by vm_compute. }
  split; [exact Hrep|]. split; [exact Hne|]. split; [exact Hsep|].
  exact (set_offset_priors_sets_last [1%positive; 5%positive] _ _ Hrep Hne Hsep).
Defined.

(** * The added properties on sample inputs *)


Lemma tpfs_uncorr_finite_values_witness :
  summation 24 128 sum32
  ∧ ∃ res,
      tpfs_uncorr_finite 24 128 sum32 [SampleCadences.tpf3]
        = inr res
      ∧ length res = 1
      ∧ ∀ k tpf' t i j v,
          res !! k = Some tpf' → get3 (flux tpf') t i j = Some v →
          isfinite v = true
          ∧ ∃ tpf t0 f b, [SampleCadences.tpf3] !! k = Some tpf
              ∧ get3 (flux tpf) t0 i j = Some f
              ∧ get3 (flux_bkg tpf) t0 i j = Some b
              ∧ v = SFadd 24 128 f (nan_to_num 24 128 b)
              ∧ isfinite f = true.
Proof.
  split; [exact (reduce_in_order_summation 24 128)|].
  exact (tpfs_uncorr_finite_values 24 128 sum32
           [SampleCadences.tpf3] (reduce_in_order_summation 24 128)).
Defined.

Lemma split_points_are_gaps_witness :
  split_points SampleTime.times = [3; 5]
  ∧ (∀ k, k ∈ split_points SampleTime.times →
       1 ≤ k < length SampleTime.times).
Proof.
  split; [by vm_compute|].
  exact (proj1 (proj2 (split_points_are_gaps SampleTime.times))).
Defined.

Example outside_pixels_sample :
  outside_pixels SamplePixels.tpf23
    (Ndarray 2 3 [[true; true; true]; [false; true; false]])
    = inr (Ndarray 2 2 [[SamplePixels.px 4; SamplePixels.px 6];
                        [SamplePixels.px 14; SamplePixels.px 16]])
  ∧ outside_pixels SamplePixels.tpf23 (Ndarray 2 2 [[true; false]; [true; false]])
      = raise IndexError
  ∧ outside_pixels SampleMask.tpf_mask1 (Ndarray 2 2 [[true; false]; [true; false]])
      = raise IndexError
  ∧ outside_pixels SampleMask.tpf_mask1 SampleMask.mask1 = inr (Ndarray 0 16 []).
Proof. split_and!; by vm_compute. Qed.

(** The two orders agree on a short run. *)
Example reduce_short_run :
  reduce_pairwise 53 1024 [f64 3; f64 (-1); f64 5] = f64 7
  ∧ reduce_in_order 53 1024 [f64 3; f64 (-1); f64 5] = f64 7
  ∧ reduce_pairwise 53 1024 [S754_zero true] = fzero
  ∧ reduce_pairwise 53 1024 [] = fzero.
Proof. split_and!; by vm_compute. Qed.

(** They differ on a longer one.  Added in order, the column of
    [mixed_dm] that is not empty sums to -1, since 2^53 + 1 rounds to
    2^53; added pairwise it sums to zero.  So pruning keeps the column
    when the matrix is summed row after row and drops it when the column
    is summed as one run: pruning [mixed_dm], whose two columns are
    summed row after row, and pruning the result again, whose single
    column is one run, leaves no column. *)
Example prune_depends_on_order :
  reduce_in_order 53 1024 SampleSpline.mixed_column = f64 (-1)
  ∧ reduce_pairwise 53 1024 SampleSpline.mixed_column = fzero
  ∧ ∃ pruned,
      prune_star_dm sum64 SampleSpline.mixed_dm = inr pruned
      ∧ shape pruned = (16, 1)
      ∧ column (X pruned) 0 = SampleSpline.mixed_column
      ∧ ∃ again, prune_star_dm (reduce_pairwise 53 1024) pruned = inr again
          ∧ shape again = (16, 0).
Proof.
  split; [by vm_compute|]. split; [by vm_compute|].
  eexists. split; [by vm_compute|]. split; [done|]. split; [by vm_compute|].
  eexists. split; [by vm_compute|]. done.
Qed.

(** A cadence whose pixels are in turn the largest finite float and its
    opposite sums to zero in order and to NaN pairwise: as one run it is
    not among the cadences kept. *)
Example cadence_depends_on_order :
  image_sum sum32 SampleCadences.checked = fzero
  ∧ image_sum (reduce_pairwise 24 128) SampleCadences.checked = S754_nan
  ∧ finite_flux_cadences (reduce_pairwise 24 128) SampleCadences.tpf_checked
      = inr (mkTargetPixelFile [] [] (pipeline_mask SampleCadences.tpf_checked))
  ∧ finite_flux_cadences sum32 SampleCadences.tpf_checked
      = inr SampleCadences.tpf_checked.
Proof. split_and!; by vm_compute. Qed.

(** The order of addition matters: the same three floats add up to
    infinity in one order, to the largest finite float in another. *)
Example sum_order_matters :
  tree_value 53 1024
    (Plus (Plus (Leaf SampleLc.big) (Leaf SampleLc.big)) (Leaf (SFopp SampleLc.big)))
    = S754_infinity false
  ∧ tree_value 53 1024
      (Plus (Leaf SampleLc.big) (Plus (Leaf SampleLc.big) (Leaf (SFopp SampleLc.big))))
      = SampleLc.big
  ∧ reduce_in_order 53 1024 [SampleLc.big; SampleLc.big; SFopp SampleLc.big]
      = S754_infinity false.
Proof. split_and!; by vm_compute. Qed.

Example set_offset_priors_sample :
  deref (set_offset_priors [1%positive; 5%positive] SampleBkg.hb).2 5%positive
    = Some (mkDesignMatrix (Ndarray 1 2 [[f64 5; f64 1]]) "bkg"
              [fzero; f64 1] [S754_infinity false; f0_1]).
Proof. by vm_compute. Qed.

(** The float constants are the correctly rounded quotients 3/10, 1/10
    and 1/1000. *)
Example literal_constants :
  SFdiv 53 1024 (f64 3) (f64 10) = f0_3
  ∧ SFdiv 53 1024 (f64 1) (f64 10) = f0_1
  ∧ SFdiv 53 1024 (f64 1) (f64 1000) = f0_001.
Proof. split_and!; by vm_compute. Qed.
